(** * wordfreq: word-frequency counting, shared-memory and distributed variants

    A shallow embedding of the two programs of the repository:
    - the OpenMP program (module [Omp]): [insert_word], [merge_hashmaps],
      [process_file_sync], [process_files_sync], [process_files_parallel],
      [compare_words], [print_results], and the command line of [main]
      (module [OmpMain]);
    - the MPI program [wordfreq_mpi.c] (module [Mpi]): [insert_word],
      [merge_hashmaps], [process_file], [serialize_hashmap],
      [deserialize_hashmap], [compare_words], [print_results], [main].

    Conventions of the embedding.
    - A C string ([char *] up to its terminator) is the list of the bytes
      before the terminator; a raw buffer is a list of bytes that may hold
      NUL.  Bytes are [ascii].
    - [unsigned int] arithmetic of [hash] is written out modulo 2^32.
    - The [int] counters ([count], [items], lengths) are computed in [Z];
      the model is exact as long as no counter leaves the range of [int]
      (signed overflow is undefined in C).
    - A bucket chain is the list of its nodes from the head; the bucket
      array is a list of chains.
    - Allocation failure is not modelled; [MPI_Abort] is the result [None]. *)

From Stdlib Require Import ZArith List Ascii Bool Lia Permutation Sorted.
From Stdlib Require String.
Import ListNotations String.StringSyntax.
Open Scope Z_scope.

Definition cstring := list ascii.

(** A string literal as a C string. *)
Definition str (s : String.string) : cstring :=
  String.list_ascii_of_string s.
Arguments str s%_string_scope.

Definition code (c : ascii) : Z := Z.of_N (N_of_ascii c).

Definition NUL : ascii := Ascii.zero.
Definition LF : ascii := "010"%char.
Definition CR : ascii := "013"%char.
Definition COLON : ascii := ":"%char.

Definition MAX_WORD_LEN : nat := 100.
Definition HASH_TABLE_SIZE : Z := 16384.
Definition MAX_BUFFER_SIZE : Z := 2 ^ 26.
Definition CHUNK_SIZE : Z := 8192.

(** ** The C library, as far as the programs use it *)

Module Libc.

(** [tolower] in the "C" locale (the programs never call [setlocale]). *)
Definition tolower (c : ascii) : ascii :=
  if (65 <=? code c) && (code c <=? 90)
  then ascii_of_N (N_of_ascii c + 32)
  else c.

Definition isspace (c : ascii) : bool :=
  (code c =? 32) || ((9 <=? code c) && (code c <=? 13)).

Definition isdigit (c : ascii) : bool :=
  (48 <=? code c) && (code c <=? 57).

(** [strcmp]: bytes compared as [unsigned char]. *)
Fixpoint strcmp (s1 s2 : cstring) : Z :=
  match s1, s2 with
  | [], [] => 0
  | [], c2 :: _ => 0 - code c2
  | c1 :: _, [] => code c1
  | c1 :: r1, c2 :: r2 =>
      if code c1 =? code c2 then strcmp r1 r2 else code c1 - code c2
  end.

(** [strncasecmp]: at most [n] bytes, compared after [tolower]. *)
Fixpoint strncasecmp (s1 s2 : cstring) (n : nat) : Z :=
  match n with
  | O => 0
  | S n' =>
      match s1, s2 with
      | [], [] => 0
      | [], c2 :: _ => 0 - code (tolower c2)
      | c1 :: _, [] => code (tolower c1)
      | c1 :: r1, c2 :: r2 =>
          if code (tolower c1) =? code (tolower c2)
          then strncasecmp r1 r2 n'
          else code (tolower c1) - code (tolower c2)
      end
  end.

(** The C string held by a buffer: the bytes before the first NUL. *)
Fixpoint cstr (buf : list ascii) : cstring :=
  match buf with
  | [] => []
  | c :: rest => if Ascii.eqb c NUL then [] else c :: cstr rest
  end.

(** [strndup(buffer, n)]: at most [n] bytes, stopping at a NUL. *)
Definition strndup (buffer : list ascii) (n : nat) : cstring :=
  cstr (firstn n buffer).

(** [strchr(s, c)] as the offset of the first [c] in [s]. *)
Fixpoint strchr (s : cstring) (c : ascii) : option nat :=
  match s with
  | [] => None
  | x :: rest =>
      if Ascii.eqb x c then Some O
      else match strchr rest c with
           | Some i => Some (S i)
           | None => None
           end
  end.

(** All the tokens that [strtok(s, d)] followed by [strtok(NULL, d)]
    returns, for a one-byte delimiter string: the non-empty maximal runs of
    bytes other than [d].  [cur] is the token being read. *)
Fixpoint strtok_from (s : cstring) (d : ascii) (cur : cstring)
  : list cstring :=
  match s with
  | [] => match cur with [] => [] | _ => [cur] end
  | c :: rest =>
      if Ascii.eqb c d
      then match cur with
           | [] => strtok_from rest d []
           | _ => cur :: strtok_from rest d []
           end
      else strtok_from rest d (cur ++ [c])
  end.

Definition strtok_all (s : cstring) (d : ascii) : list cstring :=
  strtok_from s d [].

(** Decimal digits read by [strtol], most significant first. *)
Fixpoint digits_value (acc : Z) (s : cstring) : Z :=
  match s with
  | [] => acc
  | c :: rest =>
      if isdigit c then digits_value (acc * 10 + (code c - 48)) rest
      else acc
  end.

Fixpoint skip_space (s : cstring) : cstring :=
  match s with
  | c :: rest => if isspace c then skip_space rest else s
  | [] => []
  end.

(** [strtol(s, NULL, 10)] on LP64: white space, a sign, digits; the value
    saturates at [LONG_MIN]/[LONG_MAX]. *)
Definition strtol (s : cstring) : Z :=
  let s1 := skip_space s in
  let v :=
    match s1 with
    | c :: rest =>
        if Ascii.eqb c "-"%char then 0 - digits_value 0 rest
        else if Ascii.eqb c "+"%char then digits_value 0 rest
        else digits_value 0 s1
    | [] => 0
    end in
  Z.max (- 2 ^ 63) (Z.min (2 ^ 63 - 1) v).

(** Conversion of a [long] to [int]: the low 32 bits, signed. *)
Definition int_of_long (v : Z) : Z :=
  (v + 2 ^ 31) mod 2 ^ 32 - 2 ^ 31.

(** [atoi(s)] is [(int) strtol(s, NULL, 10)]. *)
Definition atoi (s : cstring) : Z := int_of_long (strtol s).

(** The digits that [%d] prints for a non-negative number, pushed in
    front of [acc]; [fuel] bounds the number of digits. *)
Fixpoint digits_of (fuel : nat) (n : Z) (acc : cstring) : cstring :=
  match fuel with
  | O => acc
  | S fuel' =>
      let acc' := ascii_of_N (Z.to_N (48 + n mod 10)) :: acc in
      if n / 10 =? 0 then acc' else digits_of fuel' (n / 10) acc'
  end.

(** What [%d] prints for an [int]. *)
Definition print_int (n : Z) : cstring :=
  if n <? 0 then "-"%char :: digits_of 10 (- n) []
  else digits_of 10 n [].

End Libc.

Import Libc.

(** ** Code shared by the two programs

    [hash] and [is_delimiter] are the same function in both files. *)

Module Common.

(** FNV-1a over the lower-cased bytes, on [unsigned int]. *)
Fixpoint hash_loop (h : Z) (word : cstring) : Z :=
  match word with
  | [] => h
  | c :: rest =>
      hash_loop ((Z.lxor h (code (tolower c)) * 16777619) mod 2 ^ 32) rest
  end.

Definition hash (word : cstring) (size : Z) : Z :=
  hash_loop 2166136261 word mod size.

Fixpoint is_delimiter (c : ascii) (delimiters : cstring) : bool :=
  match delimiters with
  | [] => false
  | d :: rest => if Ascii.eqb c d then true else is_delimiter c rest
  end.

(** [a[i] = x] on an array held as a list. *)
Fixpoint store {A} (i : nat) (x : A) (a : list A) : list A :=
  match a, i with
  | [], _ => []
  | _ :: rest, O => x :: rest
  | y :: rest, S i' => y :: store i' x rest
  end.

(** The tokenizing loop body, the same in [process_file_sync] and
    [process_file].  The state is the table and the bytes [word[0..word_len)];
    [insert] is the call [insert_word(map, word)] made after
    [word[word_len] = 0], which reads the C string held by the buffer. *)
Section Scanner.
Context {T : Type} (insert : T -> cstring -> T).

Definition scan_byte (delims : cstring) (st : T * list ascii) (c : ascii)
  : T * list ascii :=
  if is_delimiter c delims || Ascii.eqb c LF || Ascii.eqb c CR
  then match snd st with
       | [] => st
       | _ => (insert (fst st) (cstr (snd st)), [])
       end
  else if (length (snd st) <? MAX_WORD_LEN - 1)%nat
       then (fst st, snd st ++ [c])
       else st.

(** The [if (word_len > 0)] after the loop. *)
Definition scan_end (st : T * list ascii) : T :=
  match snd st with
  | [] => fst st
  | _ => insert (fst st) (cstr (snd st))
  end.

Definition scan_bytes (delims : cstring) (st : T * list ascii)
  (bytes : list ascii) : T * list ascii :=
  fold_left (scan_byte delims) bytes st.
End Scanner.

(** The tokens that the loop hands to [insert_word], in order. *)
Definition emitted_tokens (delims : cstring) (stream : list ascii)
  : list cstring :=
  scan_end (fun l w => l ++ [w])
           (scan_bytes (fun l w => l ++ [w]) delims ([], []) stream).

(** A file as the programs see it: [fopen] fails, or it succeeds and the
    reads deliver [content] and then stop, at the end of the file or
    ([read_error = true]) on an error that sets the stream's error flag. *)
Inductive file :=
| Unreadable
| Readable (content : list ascii) (read_error : bool).

(** [qsort] of the C library: the array sorted by [compar].  The C standard
    leaves open how elements that compare equal are arranged; the model is
    an insertion sort. *)
Section Qsort.
Context {A : Type} (compar : A -> A -> Z).

Fixpoint qsort_insert (x : A) (l : list A) : list A :=
  match l with
  | [] => [x]
  | y :: rest =>
      if compar x y <=? 0 then x :: l else y :: qsort_insert x rest
  end.

Fixpoint qsort (l : list A) : list A :=
  match l with
  | [] => []
  | x :: rest => qsort_insert x (qsort rest)
  end.
End Qsort.

End Common.

Import Common.

(** ** The distributed program, [wordfreq_mpi.c] *)

Module Mpi.

Record WordNode := mkNode { word : cstring; count : Z }.

Record HashMap := mkMap {
  buckets : list (list WordNode);
  size : Z;
  items : Z
}.

Definition create_hashmap (size : Z) : HashMap :=
  {| buckets := repeat [] (Z.to_nat size); size := size; items := 0 |}.

(** All the nodes of a table, bucket by bucket, each chain from its head:
    the order of every [for (i...) while (node)] traversal. *)
Definition entries (map : HashMap) : list WordNode := concat (buckets map).

(** The [while (node)] loop of [insert_word]: the chain with the count of
    the first matching node incremented, or [None] when no node matches. *)
Fixpoint chain_increment (chain : list WordNode) (w : cstring)
  : option (list WordNode) :=
  match chain with
  | [] => None
  | node :: rest =>
      if strncasecmp (word node) w MAX_WORD_LEN =? 0
      then Some ({| word := word node; count := count node + 1 |} :: rest)
      else match chain_increment rest w with
           | Some rest' => Some (node :: rest')
           | None => None
           end
  end.

Definition insert_word (map : HashMap) (w : cstring) : HashMap :=
  let h := Z.to_nat (hash w (size map)) in
  let chain := nth h (buckets map) [] in
  match chain_increment chain w with
  | Some chain' =>
      {| buckets := store h chain' (buckets map);
         size := size map; items := items map |}
  | None =>
      let node := {| word := firstn (MAX_WORD_LEN - 1) w; count := 1 |} in
      {| buckets := store h (node :: chain) (buckets map);
         size := size map; items := items map + 1 |}
  end.

(** [for (j = 0; j < count; j++) insert_word(map, w)]. *)
Definition insert_times (map : HashMap) (w : cstring) (n : Z) : HashMap :=
  Nat.iter (Z.to_nat n) (fun m => insert_word m w) map.

Definition merge_hashmaps (dest src : HashMap) : HashMap :=
  fold_left (fun d node => insert_times d (word node) (count node))
            (entries src) dest.

(** The successive results of [fread(buffer, 1, CHUNK_SIZE - 1, file)]. *)
Fixpoint fread_chunks (fuel : nat) (content : list ascii)
  : list (list ascii) :=
  match fuel, content with
  | O, _ => []
  | _, [] => []
  | S fuel', _ =>
      firstn (Z.to_nat (CHUNK_SIZE - 1)) content
      :: fread_chunks fuel' (skipn (Z.to_nat (CHUNK_SIZE - 1)) content)
  end.

Definition process_file (f : file) (delims : cstring) : option HashMap :=
  match f with
  | Unreadable => None
  | Readable content read_error =>
      let st :=
        fold_left (scan_bytes insert_word delims)
                  (fread_chunks (length content) content)
                  (create_hashmap HASH_TABLE_SIZE, []) in
      let map := scan_end insert_word st in
      if read_error then None else Some map
  end.

(** The text of ["%s:%d\n"]. *)
Definition record (node : WordNode) : cstring :=
  word node ++ [COLON] ++ print_int (count node) ++ [LF].

(** The loop of [serialize_hashmap]; [None] is the abort on overflow. *)
Fixpoint serialize_loop (nodes : list WordNode) (length0 : Z)
  (buffer : list ascii) (written : Z) : option (list ascii * Z) :=
  match nodes with
  | [] => Some (buffer, written)
  | node :: rest =>
      let len := Z.of_nat (length (record node)) in
      if written + len >=? length0 then None
      else serialize_loop rest length0 (buffer ++ record node)
                          (written + len)
  end.

(** The bytes to send and their number, or [None] for [MPI_Abort].  For
    a table without entries the C code stores the sentinel byte in a buffer
    that it allocated with size 0; the heap is not part of the embedding,
    which sends the sentinel. *)
Definition serialize_hashmap (map : HashMap) : option (list ascii * Z) :=
  let length0 := items map * (Z.of_nat MAX_WORD_LEN + 12) in
  if length0 >? MAX_BUFFER_SIZE then None
  else match serialize_loop (entries map) length0 [] 0 with
       | None => None
       | Some (buffer, written) =>
           if written =? 0 then Some ([NUL], 1) else Some (buffer, written)
       end.

(** One turn of the [while (line)] loop of [deserialize_hashmap]. *)
Definition deserialize_line (map : HashMap) (line : cstring) : HashMap :=
  match strchr line COLON with
  | Some colon =>
      let count := atoi (skipn (S colon) line) in
      if count >? 0 then insert_times map (firstn colon line) count
      else map
  | None => map
  end.

(** [buffer] is the memory from the pointer on.  [strndup] takes its
    bound as a [size_t]: a negative [length] converts to a value beyond the
    size of any object, and the whole string is copied. *)
Definition deserialize_hashmap (map : HashMap) (buffer : list ascii)
  (length : Z) : HashMap :=
  if (length <=? 1) && Ascii.eqb (nth 0 buffer NUL) NUL then map
  else
    let n := if length <? 0 then List.length buffer
             else Z.to_nat length in
    fold_left deserialize_line (strtok_all (strndup buffer n) LF) map.

Definition compare_words (a b : WordNode) : Z :=
  if negb (count b =? count a) then count b - count a
  else strncasecmp (word a) (word b) MAX_WORD_LEN.

(** The lines that [print_results] prints: the array [words] of
    [map->items] nodes, sorted, and its first [top_n] elements. *)
Definition print_results (map : HashMap) (top_n : Z) : list (cstring * Z) :=
  let words :=
    List.map (fun n => {| word := firstn (MAX_WORD_LEN - 1) (word n);
                          count := count n |})
             (firstn (Z.to_nat (items map)) (entries map)) in
  List.map (fun n => (word n, count n))
           (firstn (Z.to_nat top_n) (qsort compare_words words)).

Definition delims : cstring := str " ,.!?;:" ++ [LF].

(** The files of [for (i = rank; i < argc - 1; i += size)]. *)
Definition assigned (rank size : nat) (files : list file) : list file :=
  List.map snd
    (filter (fun p => (rank <=? fst p)%nat
                      && ((fst p - rank) mod size =? 0)%nat)
            (combine (seq 0 (length files)) files)).

Definition local_map (rank size : nat) (files : list file) : HashMap :=
  fold_left
    (fun local f =>
       match process_file f delims with
       | Some tmp => merge_hashmaps local tmp
       | None => local
       end)
    (assigned rank size files) (create_hashmap HASH_TABLE_SIZE).

(** What the gathers deliver to rank 0, unless some rank aborted. *)
Fixpoint gather (sends : list (option (list ascii * Z)))
  : option (list (list ascii * Z)) :=
  match sends with
  | [] => Some []
  | None :: _ => None
  | Some s :: rest =>
      match gather rest with
      | Some l => Some (s :: l)
      | None => None
      end
  end.

(** The table printed by rank 0 of a run of [size] processes on the files
    of the command line; [None] when the run prints no table (no file
    given, or [MPI_Abort]). *)
Definition main (files : list file) (size : nat)
  : option (list (cstring * Z)) :=
  match files with
  | [] => None
  | _ =>
      match gather (List.map
                      (fun rank => serialize_hashmap (local_map rank size files))
                      (seq 0 size)) with
      | None => None
      | Some sends =>
          let total_length := fold_left Z.add (List.map snd sends) 0 in
          if total_length >? MAX_BUFFER_SIZE then None
          else
            let global_map :=
              merge_hashmaps (create_hashmap HASH_TABLE_SIZE)
                             (local_map 0 size files) in
            let global_map :=
              fold_left
                (fun g s =>
                   if snd s >? 0 then deserialize_hashmap g (fst s) (snd s)
                   else g)
                (tl sends) global_map in
            Some (print_results global_map 10)
      end
  end.

End Mpi.

(** ** The shared-memory program (OpenMP) *)

Module Omp.

Record WordNode := mkNode { word : cstring; count : Z; hash : Z }.

Record WordFreq := mkFreq { freq_word : cstring; freq_count : Z }.

Record HashMap := mkMap {
  buckets : list (list WordNode);
  size : Z;
  items : Z
}.

Definition create_hashmap (size : Z) : HashMap :=
  {| buckets := repeat [] (Z.to_nat size); size := size; items := 0 |}.

Definition entries (map : HashMap) : list WordNode := concat (buckets map).

(** The [while (current)] loop of [insert_word]. *)
Fixpoint chain_increment (chain : list WordNode) (w : cstring)
  : option (list WordNode) :=
  match chain with
  | [] => None
  | node :: rest =>
      if strncasecmp (word node) w MAX_WORD_LEN =? 0
      then Some ({| word := word node; count := count node + 1;
                    hash := hash node |} :: rest)
      else match chain_increment rest w with
           | Some rest' => Some (node :: rest')
           | None => None
           end
  end.

Definition insert_word (map : HashMap) (w : cstring) : HashMap :=
  let h := Common.hash w (size map) in
  let chain := nth (Z.to_nat h) (buckets map) [] in
  match chain_increment chain w with
  | Some chain' =>
      {| buckets := store (Z.to_nat h) chain' (buckets map);
         size := size map; items := items map |}
  | None =>
      let node := {| word := w; count := 1; hash := h |} in
      {| buckets := store (Z.to_nat h) (node :: chain) (buckets map);
         size := size map; items := items map + 1 |}
  end.

(** The [while (dest_node && !found)] loop of [merge_hashmaps]: the count
    of [current] added to the first node whose spelling is [strcmp]-equal. *)
Fixpoint chain_add (chain : list WordNode) (current : WordNode)
  : option (list WordNode) :=
  match chain with
  | [] => None
  | dest_node :: rest =>
      if strcmp (word dest_node) (word current) =? 0
      then Some ({| word := word dest_node;
                    count := count dest_node + count current;
                    hash := hash dest_node |} :: rest)
      else match chain_add rest current with
           | Some rest' => Some (dest_node :: rest')
           | None => None
           end
  end.

(** The body of the [while (current)] loop of [merge_hashmaps]. *)
Definition merge_node (dest : HashMap) (current : WordNode) : HashMap :=
  let h := Z.to_nat (Common.hash (word current) (size dest)) in
  let chain := nth h (buckets dest) [] in
  match chain_add chain current with
  | Some chain' =>
      {| buckets := store h chain' (buckets dest);
         size := size dest; items := items dest |}
  | None =>
      let new_node := {| word := word current; count := count current;
                         hash := hash current |} in
      {| buckets := store h (new_node :: chain) (buckets dest);
         size := size dest; items := items dest + 1 |}
  end.

Definition merge_hashmaps (dest src : HashMap) : HashMap :=
  fold_left merge_node (entries src) dest.

(** [fgetc] returns [EOF] at the end of the file and on a read error
    alike, and the function does not look at the error flag. *)
Definition process_file_sync (f : file) (delimiters : cstring)
  : option HashMap :=
  match f with
  | Unreadable => None
  | Readable content _ =>
      Some (scan_end insert_word
              (scan_bytes insert_word delimiters
                          (create_hashmap HASH_TABLE_SIZE, []) content))
  end.

Definition process_files_sync (filenames : list file) (delimiters : cstring)
  : HashMap :=
  fold_left
    (fun global_map f =>
       match process_file_sync f delimiters with
       | Some file_map => merge_hashmaps global_map file_map
       | None => global_map
       end)
    filenames (create_hashmap HASH_TABLE_SIZE).

(** One thread of the parallel region: the files of the iterations it
    was given, merged into its [local_map] in the order it ran them. *)
Definition thread_local_map (filenames : list file) (delimiters : cstring)
  (iterations : list nat) : HashMap :=
  fold_left
    (fun local_map i =>
       match process_file_sync (nth i filenames Unreadable) delimiters with
       | Some file_map => merge_hashmaps local_map file_map
       | None => local_map
       end)
    iterations (create_hashmap HASH_TABLE_SIZE).

(** The parallel region.  Its outcome depends on how [schedule(dynamic)]
    hands the iterations to the threads and on the order in which the
    threads pass the critical section of their last merge; [schedule]
    lists, in that order, the iterations of each thread.  All merges run
    inside the critical section, so no two of them overlap. *)
Definition process_files_parallel (filenames : list file)
  (delimiters : cstring) (schedule : list (list nat)) : HashMap :=
  fold_left
    (fun global_map iterations =>
       merge_hashmaps global_map
                      (thread_local_map filenames delimiters iterations))
    schedule (create_hashmap HASH_TABLE_SIZE).

(** The schedules that [num_threads] threads can produce on [num_files]
    files: every iteration is run once, by one thread. *)
Definition schedule_of (num_files num_threads : nat)
  (schedule : list (list nat)) : Prop :=
  length schedule = num_threads /\
  Permutation (concat schedule) (seq 0 num_files).

Definition compare_words (a b : WordFreq) : Z :=
  if negb (freq_count b =? freq_count a) then freq_count b - freq_count a
  else strcmp (freq_word a) (freq_word b).

Definition print_results (map : HashMap) (top_n : Z) : list (cstring * Z) :=
  let words :=
    List.map (fun n => {| freq_word := word n; freq_count := count n |})
             (firstn (Z.to_nat (items map)) (entries map)) in
  List.map (fun w => (freq_word w, freq_count w))
           (firstn (Z.to_nat top_n) (qsort compare_words words)).

End Omp.

(** ** The command line of the shared-memory program *)

Module OmpMain.

(** The local variables of [main] that the options set, and the global
    flag [verbose]. *)
Record options := mkOptions {
  delimiters : cstring;
  top_n : Z;
  run_bench : bool;
  print_list : bool;
  num_threads : Z;
  verbose : bool
}.

Definition defaults : options :=
  {| delimiters := str " ,.!?;:"; top_n := 10; run_bench := false;
     print_list := false; num_threads := 4; verbose := false |}.

(** How the option loop ends: [main] returns a code; or the files start
    at [filenames]; or [-n] is the last argument and [atoi] is called on
    [argv[argc]], a null pointer, which C leaves undefined. *)
Inductive parsed :=
| Return (code : Z)
| Undefined
| Files (o : options) (filenames : list cstring).

(** The loop [for (i = 1; i < argc; i++)] on [argv[i..argc)], followed
    by the test [i >= argc]. *)
Fixpoint parse (args : list cstring) (o : options) : parsed :=
  match args with
  | [] => Return 1
  | arg :: rest =>
      match arg with
      | [] => Files o args
      | c0 :: arg1 =>
          if negb (Ascii.eqb c0 "-"%char) then Files o args
          else
            match arg1 with
            | [] => Return 1
            | c1 :: _ =>
                if Ascii.eqb c1 "d"%char then
                  match rest with
                  | value :: rest' =>
                      parse rest'
                        {| delimiters := value; top_n := top_n o;
                           run_bench := run_bench o;
                           print_list := print_list o;
                           num_threads := num_threads o;
                           verbose := verbose o |}
                  | [] => Return 1
                  end
                else if Ascii.eqb c1 "t"%char then
                  match rest with
                  | value :: rest' =>
                      parse rest'
                        {| delimiters := delimiters o; top_n := atoi value;
                           run_bench := run_bench o;
                           print_list := print_list o;
                           num_threads := num_threads o;
                           verbose := verbose o |}
                  | [] => Return 1
                  end
                else if Ascii.eqb c1 "b"%char then
                  parse rest
                    {| delimiters := delimiters o; top_n := top_n o;
                       run_bench := true; print_list := print_list o;
                       num_threads := num_threads o; verbose := verbose o |}
                else if Ascii.eqb c1 "r"%char then
                  parse rest
                    {| delimiters := delimiters o; top_n := top_n o;
                       run_bench := run_bench o; print_list := true;
                       num_threads := num_threads o; verbose := verbose o |}
                else if Ascii.eqb c1 "n"%char then
                  match rest with
                  | value :: rest' =>
                      if atoi value <=? 0 then Return 1
                      else
                        parse rest'
                          {| delimiters := delimiters o; top_n := top_n o;
                             run_bench := run_bench o;
                             print_list := print_list o;
                             num_threads := atoi value;
                             verbose := verbose o |}
                  | [] => Undefined
                  end
                else if Ascii.eqb c1 "v"%char then
                  parse rest
                    {| delimiters := delimiters o; top_n := top_n o;
                       run_bench := run_bench o; print_list := print_list o;
                       num_threads := num_threads o; verbose := true |}
                else if Ascii.eqb c1 "h"%char then Return 0
                else Return 1
            end
      end
  end.

(** What a run of [main] shows of the word counts: it returns a code
    before reading any file; or its behaviour is undefined; or it runs the
    benchmark, whose output is a table of times; or it aggregates the files
    and returns 0, having printed the ranking when [-r] was given. *)
Inductive outcome :=
| Returned (code : Z)
| UndefinedBehaviour
| Benchmark (filenames : list cstring)
| Aggregated (printed : option (list (cstring * Z))).

(** [main] on the arguments [argv[1..argc)]; [fs] is what [fopen] and the
    reads find under a file name, [schedule] how the parallel region runs. *)
Definition main (fs : cstring -> file) (schedule : list (list nat))
  (args : list cstring) : outcome :=
  match parse args defaults with
  | Return code => Returned code
  | Undefined => UndefinedBehaviour
  | Files o filenames =>
      if run_bench o then Benchmark filenames
      else
        let map :=
          Omp.process_files_parallel (List.map fs filenames)
                                     (delimiters o) schedule in
        Aggregated (if print_list o
                    then Some (Omp.print_results map (top_n o))
                    else None)
  end.

End OmpMain.

(** ** Vocabulary of the specification *)

(** The case-folded word: the identity of a word in a table. *)
Definition fold_case (w : cstring) : cstring := List.map tolower w.

(** A word as the programs store it: a C string shorter than
    [MAX_WORD_LEN]. *)
Definition word_ok (w : cstring) : Prop :=
  (length w < MAX_WORD_LEN)%nat /\ ~ In NUL w.

Definition cstring_eqb (a b : cstring) : bool :=
  if list_eq_dec ascii_dec a b then true else false.

(** The count recorded for key [k] by a list of (key, count) pairs. *)
Fixpoint total (l : list (cstring * Z)) (k : cstring) : Z :=
  match l with
  | [] => 0
  | (k', c) :: rest =>
      if cstring_eqb k' k then c + total rest k else total rest k
  end.

(** The (spelling, count) pairs of a table, in traversal order. *)
Definition mpi_listing (t : Mpi.HashMap) : list (cstring * Z) :=
  List.map (fun n => (Mpi.word n, Mpi.count n)) (Mpi.entries t).

Definition fold_key (p : cstring * Z) : cstring * Z :=
  (fold_case (fst p), snd p).

(** The (case-folded word, count) pairs of a table. *)
Definition mpi_contents (t : Mpi.HashMap) : list (cstring * Z) :=
  List.map fold_key (mpi_listing t).

(** The invariant of a frequency table, stated once for both programs
    on the shape that their tables share: the two clauses of the data
    model ([inv_nodup]: no two entries have the same key; [inv_items]) and
    what the representation needs to keep them: every node lies in the
    bucket of its hash, holds an admissible word and a positive count.
    [key] is the identity of a word, [Q] says which words are admissible. *)
Record table_inv (key : cstring -> cstring) (Q : cstring -> Prop)
  (t : Mpi.HashMap) : Prop := {
  inv_size : 0 < Mpi.size t;
  inv_length : length (Mpi.buckets t) = Z.to_nat (Mpi.size t);
  inv_items : Mpi.items t = Z.of_nat (length (Mpi.entries t));
  inv_place : forall i node,
    In node (nth i (Mpi.buckets t) []) ->
    Z.to_nat (hash (Mpi.word node) (Mpi.size t)) = i;
  inv_words : forall node, In node (Mpi.entries t) -> Q (Mpi.word node);
  inv_counts : forall node, In node (Mpi.entries t) -> 0 < Mpi.count node;
  inv_nodup :
    NoDup (List.map (fun n => key (Mpi.word n)) (Mpi.entries t))
}.

(** The invariant of the data model: the identity of a word is its
    case-folded bytes, and words are shorter than [MAX_WORD_LEN]. *)
Definition mpi_wf : Mpi.HashMap -> Prop := table_inv fold_case word_ok.

(** A table of the shared-memory program seen as one of the distributed
    program: the same nodes without their [hash] field, which no code
    reads. *)
Definition omp_node_view (n : Omp.WordNode) : Mpi.WordNode :=
  Mpi.mkNode (Omp.word n) (Omp.count n).

Definition omp_view (t : Omp.HashMap) : Mpi.HashMap :=
  Mpi.mkMap (List.map (List.map omp_node_view) (Omp.buckets t))
            (Omp.size t) (Omp.items t).

Definition omp_listing (t : Omp.HashMap) : list (cstring * Z) :=
  List.map (fun n => (Omp.word n, Omp.count n)) (Omp.entries t).

(** The invariant of the data model on a table of the shared-memory
    program. *)
Definition omp_inv (t : Omp.HashMap) : Prop := mpi_wf (omp_view t).

(** The postcondition of insert-or-increment, on the (spelling, count)
    pairs and the [items] field before and after the insertion of [w]:
    an entry with the folded word of [w] gets one more and nothing else
    changes; without such an entry, [(w, 1)] is added, [items] grows by
    one and nothing else changes. *)
Definition insert_postcondition (w : cstring)
  (before after : list (cstring * Z)) (items_before items_after : Z)
  : Prop :=
  (forall w0 c0,
      In (w0, c0) before -> fold_case w0 = fold_case w ->
      items_after = items_before /\
      exists L1 L2,
        before = L1 ++ (w0, c0) :: L2 /\
        after = L1 ++ (w0, c0 + 1) :: L2)
  /\
  ((forall w0 c0, In (w0, c0) before -> fold_case w0 <> fold_case w) ->
   items_after = items_before + 1 /\
   exists L1 L2,
     before = L1 ++ L2 /\ after = L1 ++ (w, 1) :: L2).


(** The tokenizer in the words of the specification.  A byte separates
    words when it is in the supplied set, or a newline, or a carriage
    return; the tokens are the maximal runs of other bytes, in stream
    order; a run is maximal when it starts at the beginning of the stream or
    after a separator and ends at the end of the stream or before a
    separator; runs are not empty. *)
Definition is_separator (delims : cstring) (c : ascii) : bool :=
  existsb (Ascii.eqb c) delims || Ascii.eqb c LF || Ascii.eqb c CR.

Inductive maximal_runs (sep : ascii -> bool)
  : list ascii -> list (list ascii) -> Prop :=
| runs_end : maximal_runs sep [] []
| runs_separator c stream runs :
    sep c = true ->
    maximal_runs sep stream runs ->
    maximal_runs sep (c :: stream) runs
| runs_last run :
    run <> [] -> (forall x, In x run -> sep x = false) ->
    maximal_runs sep run [run]
| runs_run run c stream runs :
    run <> [] -> (forall x, In x run -> sep x = false) ->
    sep c = true ->
    maximal_runs sep stream runs ->
    maximal_runs sep (run ++ c :: stream) (run :: runs).

(** The longest word that the buffer [word[MAX_WORD_LEN]] holds with its
    terminator. *)
Definition max_word_length : nat := MAX_WORD_LEN - 1.

(** What the parser of [deserialize_hashmap] makes of received bytes:
    the lines that it reads, and for a line the record that it takes it
    for (the word before the first [':'] with the count that the text
    after it parses to, when that is positive).  These say, for the bytes
    that [serialize_hashmap] sends, what is read back; the records of a
    region as the specification has them are [region_records] below. *)
Definition received_lines (buffer : list ascii) (length : Z)
  : list cstring :=
  if (length <=? 1) && Ascii.eqb (nth 0 buffer NUL) NUL then []
  else strtok_all (strndup buffer (Z.to_nat length)) LF.

Definition record_of (line : cstring) : option (cstring * Z) :=
  match strchr line COLON with
  | Some colon =>
      if atoi (skipn (S colon) line) >? 0
      then Some (firstn colon line, atoi (skipn (S colon) line))
      else None
  | None => None
  end.

Definition well_formed_records (lines : list cstring)
  : list (cstring * Z) :=
  flat_map (fun line => match record_of line with
                        | Some r => [r]
                        | None => []
                        end) lines.

(** A table that the wire format can carry: no word holds [':'] or a
    newline, and the counts are in the range of [int]. *)
Definition mpi_wire_ok (t : Mpi.HashMap) : Prop :=
  forall node, In node (Mpi.entries t) ->
    ~ In COLON (Mpi.word node) /\ ~ In LF (Mpi.word node) /\
    Mpi.count node < 2 ^ 31.

(** The line of a record, without its terminator. *)
Definition record_line (node : Mpi.WordNode) : cstring :=
  Mpi.word node ++ COLON :: print_int (Mpi.count node).

(** A way to build one table from a multiset of words: the words are
    split into groups, each group is inserted into a table of its own, and
    the tables are merged pairwise, in any order and grouping. *)
Inductive merge_plan :=
| Group (words : list cstring)
| Merge (dest src : merge_plan).


Fixpoint mpi_run_plan (p : merge_plan) : Mpi.HashMap :=
  match p with
  | Group words =>
      fold_left Mpi.insert_word words (Mpi.create_hashmap HASH_TABLE_SIZE)
  | Merge dest src => Mpi.merge_hashmaps (mpi_run_plan dest) (mpi_run_plan src)
  end.

Fixpoint omp_run_plan (p : merge_plan) : Omp.HashMap :=
  match p with
  | Group words =>
      fold_left Omp.insert_word words (Omp.create_hashmap HASH_TABLE_SIZE)
  | Merge dest src => Omp.merge_hashmaps (omp_run_plan dest) (omp_run_plan src)
  end.

(** The (case-folded word, count) pairs of a table of the shared-memory
    program. *)
Definition omp_contents (t : Omp.HashMap) : list (cstring * Z) :=
  List.map fold_key (omp_listing t).

(** One occurrence of each word of a list, under its case-folded key. *)
Definition word_units (ws : list cstring) : list (cstring * Z) :=
  List.map (fun w => (fold_case w, 1)) ws.

(** Ascending lexicographic order of byte strings. *)
Inductive lex_le : cstring -> cstring -> Prop :=
| lex_le_nil b : lex_le [] b
| lex_le_lt x a y b : code x < code y -> lex_le (x :: a) (y :: b)
| lex_le_eq x a b : lex_le a b -> lex_le (x :: a) (x :: b).

(** The order of a ranked list: count descending, ties broken by the
    ascending lexicographic order of the case-folded word. *)
Definition rank_le (p q : cstring * Z) : Prop :=
  snd q < snd p \/
  (snd p = snd q /\ lex_le (fold_case (fst p)) (fold_case (fst q))).

(** The same with ties broken on the spelling as it is. *)
Definition rank_le_verbatim (p q : cstring * Z) : Prop :=
  snd q < snd p \/ (snd p = snd q /\ lex_le (fst p) (fst q)).

Definition nul_free (w : cstring) : Prop := ~ In NUL w.

(** What the tables of the shared-memory program keep through its merges:
    the table invariant with the spelling as it is for the identity of a
    word. *)
Definition omp_wfx (t : Omp.HashMap) : Prop :=
  table_inv (fun w => w) nul_free (omp_view t).

(** The sum of the counts of a list of pairs. *)
Definition mass (l : list (cstring * Z)) : Z :=
  fold_right (fun p a => snd p + a) 0 l.

(** The tokens that a file contributes in the distributed program: those
    of its bytes when it opens and is read without error, none otherwise. *)
Definition mpi_file_tokens (delims : cstring) (f : file) : list cstring :=
  match f with
  | Readable content false => emitted_tokens delims content
  | _ => []
  end.

(** The tokens of all the files of a run of the distributed program. *)
Definition mpi_tokens (files : list file) : list cstring :=
  flat_map (mpi_file_tokens Mpi.delims) files.

(** ** Auxiliary definitions of the proofs *)

(** The order that a comparison function of [qsort] stands for. *)
Definition compar_le {A : Type} (compar : A -> A -> Z) (a b : A) : Prop :=
  compar a b <= 0.

(** The sink that records the tokens handed over by the scanning loop. *)
Definition snoc (l : list cstring) (w : cstring) : list cstring := l ++ [w].

(** A node as a printed line. *)
Definition mpi_pair (n : Mpi.WordNode) : cstring * Z :=
  (Mpi.word n, Mpi.count n).

(** The element of the array [words] that [print_results] fills from a
    node. *)
Definition omp_freq (n : Omp.WordNode) : Omp.WordFreq :=
  Omp.mkFreq (Omp.word n) (Omp.count n).

(** An element of [words] as a printed line. *)
Definition omp_freq_pair (w : Omp.WordFreq) : cstring * Z :=
  (Omp.freq_word w, Omp.freq_count w).

(** A token is an admissible word without separator bytes. *)
Definition token_ok (delims : cstring) (tok : cstring) : Prop :=
  word_ok tok /\ forall x, In x tok -> is_separator delims x = false.

(** Invariant of the scanning loop: the tokens emitted so far are
    admissible, the buffer holds no separator and is within its capacity. *)
Definition scan_ok (delims : cstring) (st : list cstring * list ascii)
  : Prop :=
  (forall tok, In tok (fst st) -> token_ok delims tok) /\
  (forall x, In x (snd st) -> is_separator delims x = false) /\
  (length (snd st) <= max_word_length)%nat.

(** What one file adds to a table of the shared-memory program. *)
Definition omp_file_listing (delims : cstring) (f : file)
  : list (cstring * Z) :=
  match Omp.process_file_sync f delims with
  | Some t => omp_listing t
  | None => []
  end.

(** The body of the loops over files in the shared-memory program. *)
Definition omp_add_file (delims : cstring) (map : Omp.HashMap) (f : file)
  : Omp.HashMap :=
  match Omp.process_file_sync f delims with
  | Some file_map => Omp.merge_hashmaps map file_map
  | None => map
  end.

(** The invariant together with a property of all the stored words and
    the sum of all the counts. *)
Definition mpi_ext (Q : cstring -> Prop) (m : Z) (t : Mpi.HashMap) : Prop :=
  mpi_wf t /\
  (forall n, In n (Mpi.entries t) -> Q (Mpi.word n)) /\
  mass (mpi_listing t) = m.

(** The body of the loop over the files of a rank. *)
Definition mpi_add_file (delims : cstring) (local : Mpi.HashMap) (f : file)
  : Mpi.HashMap :=
  match Mpi.process_file f delims with
  | Some tmp => Mpi.merge_hashmaps local tmp
  | None => local
  end.

(** A word without separator bytes. *)
Definition no_separator (delims : cstring) (w : cstring) : Prop :=
  forall x, In x w -> is_separator delims x = false.

(** The number of tokens in the files of one rank. *)
Definition rank_tokens (size : nat) (files : list file) (rank : nat) : Z :=
  Z.of_nat (length (mpi_tokens (Mpi.assigned rank size files))).

(** The table of one rank merged into the global table. *)
Definition mpi_merge_rank (size : nat) (files : list file)
  (g : Mpi.HashMap) (rank : nat) : Mpi.HashMap :=
  Mpi.merge_hashmaps g (Mpi.local_map rank size files).

(** [compare_words] on printed lines. *)
Definition pair_compare (p q : cstring * Z) : Z :=
  Mpi.compare_words (Mpi.mkNode (fst p) (snd p)) (Mpi.mkNode (fst q) (snd q)).

(** A line whose word is admissible and already case-folded. *)
Definition folded_pair (p : cstring * Z) : Prop :=
  word_ok (fst p) /\ fold_case (fst p) = fst p.

(** ** Vocabulary of the further properties *)

(** How often a case-folded key occurs among the words of a list. *)
Definition occurrences (k : cstring) (ws : list cstring) : Z :=
  Z.of_nat (length (filter (fun w => cstring_eqb (fold_case w) k) ws)).

(** The files that [fopen] opens. *)
Definition opens (f : file) : bool :=
  match f with
  | Unreadable => false
  | Readable _ _ => true
  end.

(** The files that open and are read to their end without error. *)
Definition read_ok (f : file) : bool :=
  match f with
  | Readable _ false => true
  | _ => false
  end.

(** The tokens that a file contributes in the shared-memory program:
    those of the bytes read when it opens, none otherwise. *)
Definition omp_file_tokens (delims : cstring) (f : file) : list cstring :=
  match f with
  | Readable content _ => emitted_tokens delims content
  | Unreadable => []
  end.

(** What [insert_word] of the distributed program needs of a table to
    run: the bucket array has [size] chains; and the stored words are
    shorter than [MAX_WORD_LEN], as every word that it stores is. *)
Definition mpi_short (t : Mpi.HashMap) : Prop :=
  0 < Mpi.size t /\
  length (Mpi.buckets t) = Z.to_nat (Mpi.size t) /\
  forall n, In n (Mpi.entries t) ->
            (length (Mpi.word n) < MAX_WORD_LEN)%nat.

(** A table of the shared-memory program whose stored words are all
    in their case-folded form. *)
Definition omp_folded (t : Omp.HashMap) : Prop :=
  forall n, In n (Omp.entries t) -> fold_case (Omp.word n) = Omp.word n.

(** The letter of an option: the byte after the leading ['-']. *)
Definition option_letter (arg : cstring) : option ascii :=
  match arg with
  | c0 :: c1 :: _ => if Ascii.eqb c0 "-"%char then Some c1 else None
  | _ => None
  end.

(** An argument that the option loop does not stop at. *)
Definition is_option (arg : cstring) : bool :=
  match arg with
  | c0 :: _ => Ascii.eqb c0 "-"%char
  | [] => false
  end.

(** The arguments that the option loop passes over: the options
    without a value ([-b], [-r], [-v]), and the options [-d], [-t], [-n]
    each with the argument that follows it, its value. *)
Inductive option_prefix : list cstring -> Prop :=
| prefix_end : option_prefix []
| prefix_flag o rest :
    option_letter o = Some "b"%char \/ option_letter o = Some "r"%char
    \/ option_letter o = Some "v"%char ->
    option_prefix rest -> option_prefix (o :: rest)
| prefix_value o value rest :
    option_letter o = Some "d"%char \/ option_letter o = Some "t"%char
    \/ option_letter o = Some "n"%char ->
    option_prefix rest -> option_prefix (o :: value :: rest).

(** What the option loop guarantees of its result, from the arguments
    [args] and the settings [o] it started with. *)
Definition parse_post (args : list cstring) (o : OmpMain.options)
  (r : OmpMain.parsed) : Prop :=
  match r with
  | OmpMain.Return code =>
      code = 1 \/
      (code = 0 /\
       exists a, In a args /\ option_letter a = Some "h"%char)
  | OmpMain.Undefined =>
      exists pre a, args = pre ++ [a] /\ option_letter a = Some "n"%char
  | OmpMain.Files o' filenames =>
      exists opts,
        args = opts ++ filenames /\ option_prefix opts /\
        filenames <> [] /\ is_option (hd [] filenames) = false /\
        (0 < OmpMain.num_threads o -> 0 < OmpMain.num_threads o') /\
        (OmpMain.print_list o' = true ->
         OmpMain.print_list o = true \/
         exists a, In a opts /\ option_letter a = Some "r"%char) /\
        (OmpMain.run_bench o' = true ->
         OmpMain.run_bench o = true \/
         exists a, In a opts /\ option_letter a = Some "b"%char)
  end.

(** ** The wire format read off a received region

    The records of a received region in the words of the specification,
    defined on the bytes of the region and not on what the parser makes of
    them: the region is a sequence of lines separated by newlines; a line
    is a well-formed record [word:count] when it has a [':'] and the text
    after the first [':'] is a decimal numeral of positive value. *)














(** * Proofs *)

Arguments MAX_WORD_LEN : simpl never.
Arguments max_word_length : simpl never.
Arguments HASH_TABLE_SIZE : simpl never.
Arguments MAX_BUFFER_SIZE : simpl never.

(** ** The invariant *)

Lemma mpi_wf_size t : mpi_wf t -> 0 < Mpi.size t.
Proof. apply inv_size. Qed.

Lemma mpi_wf_length t :
  mpi_wf t -> length (Mpi.buckets t) = Z.to_nat (Mpi.size t).
Proof. apply inv_length. Qed.

Lemma mpi_wf_items t :
  mpi_wf t -> Mpi.items t = Z.of_nat (length (Mpi.entries t)).
Proof. apply inv_items. Qed.

Lemma mpi_wf_place t :
  mpi_wf t -> forall i node,
    In node (nth i (Mpi.buckets t) []) ->
    Z.to_nat (hash (Mpi.word node) (Mpi.size t)) = i.
Proof. apply inv_place. Qed.

Lemma mpi_wf_words t :
  mpi_wf t -> forall node,
    In node (Mpi.entries t) -> word_ok (Mpi.word node).
Proof. apply inv_words. Qed.

Lemma mpi_wf_counts t :
  mpi_wf t -> forall node, In node (Mpi.entries t) -> 0 < Mpi.count node.
Proof. apply inv_counts. Qed.

Lemma mpi_wf_nodup t :
  mpi_wf t ->
  NoDup (List.map (fun n => fold_case (Mpi.word n)) (Mpi.entries t)).
Proof. apply inv_nodup. Qed.

(** ** Bytes and strings *)

Lemma code_range c : 0 <= code c < 256.
Proof.
  unfold code. pose proof (N_ascii_bounded c). lia.
Qed.

Lemma code_inj c1 c2 : code c1 = code c2 -> c1 = c2.
Proof.
  unfold code. intros H. apply N2Z.inj in H.
  rewrite <- (ascii_N_embedding c1), <- (ascii_N_embedding c2).
  now rewrite H.
Qed.

Lemma code_nul c : code c = 0 -> c = NUL.
Proof. intros H. apply code_inj. exact H. Qed.

Lemma tolower_idem c : tolower (tolower c) = tolower c.
Proof.
  destruct c as [[] [] [] [] [] [] [] []]; reflexivity.
Qed.

Lemma tolower_nul c : tolower c = NUL -> c = NUL.
Proof.
  destruct c as [[] [] [] [] [] [] [] []]; vm_compute; congruence.
Qed.

Lemma fold_case_idem w : fold_case (fold_case w) = fold_case w.
Proof.
  unfold fold_case. rewrite map_map. apply map_ext. apply tolower_idem.
Qed.

Lemma fold_case_length w : length (fold_case w) = length w.
Proof. apply length_map. Qed.

Lemma hash_loop_fold w : forall h, hash_loop h (fold_case w) = hash_loop h w.
Proof.
  induction w as [|c w IH]; intros h; simpl; [reflexivity|].
  rewrite tolower_idem. apply IH.
Qed.

Lemma hash_fold w1 w2 size :
  fold_case w1 = fold_case w2 -> hash w1 size = hash w2 size.
Proof.
  intros H. unfold hash.
  rewrite <- (hash_loop_fold w1), <- (hash_loop_fold w2), H. reflexivity.
Qed.

Lemma hash_range w size : 0 < size -> 0 <= hash w size < size.
Proof. intros H. unfold hash. apply Z.mod_pos_bound. exact H. Qed.

Lemma strncasecmp_fold a : forall b n,
  fold_case a = fold_case b -> strncasecmp a b n = 0.
Proof.
  induction a as [|x a IH]; intros [|y b] [|n] H; simpl in *;
    try reflexivity; try discriminate.
  injection H as Hxy Hab. rewrite Hxy, Z.eqb_refl. now apply IH.
Qed.

Lemma strncasecmp_zero a : forall b n,
  strncasecmp a b n = 0 -> (length a < n)%nat ->
  ~ In NUL a -> ~ In NUL b -> fold_case a = fold_case b.
Proof.
  induction a as [|x a IH]; intros [|y b] [|n] H Hn Ha Hb; simpl in *;
    try reflexivity; try lia.
  - exfalso. apply Hb. left. apply tolower_nul, code_nul. lia.
  - exfalso. apply Ha. left. apply tolower_nul, code_nul. lia.
  - destruct (code (tolower x) =? code (tolower y)) eqn:E.
    + apply Z.eqb_eq, code_inj in E. rewrite E. f_equal.
      apply (IH b n); auto with arith; lia.
    + apply Z.eqb_neq in E. lia.
Qed.

Lemma strcmp_refl a : strcmp a a = 0.
Proof.
  induction a as [|x a IH]; simpl; [reflexivity|].
  now rewrite Z.eqb_refl.
Qed.

Lemma strcmp_zero a : forall b,
  strcmp a b = 0 -> ~ In NUL a -> ~ In NUL b -> a = b.
Proof.
  induction a as [|x a IH]; intros [|y b] H Ha Hb; simpl in *;
    try reflexivity.
  - exfalso. apply Hb. left. apply code_nul. lia.
  - exfalso. apply Ha. left. apply code_nul. lia.
  - destruct (code x =? code y) eqn:E.
    + apply Z.eqb_eq, code_inj in E. subst y. f_equal. apply IH; tauto.
    + apply Z.eqb_neq in E. lia.
Qed.

Lemma cstring_eqb_eq a b : cstring_eqb a b = true <-> a = b.
Proof.
  unfold cstring_eqb. destruct (list_eq_dec ascii_dec a b); split;
    congruence.
Qed.

Lemma cstring_eqb_refl a : cstring_eqb a a = true.
Proof. now apply cstring_eqb_eq. Qed.

Lemma cstring_eqb_neq a b : cstring_eqb a b = false <-> a <> b.
Proof.
  unfold cstring_eqb. destruct (list_eq_dec ascii_dec a b); split;
    congruence.
Qed.

(** ** Arrays held as lists *)

Lemma store_split {A} (d : A) : forall (a : list A) i,
  (i < length a)%nat ->
  exists pre post,
    a = pre ++ nth i a d :: post /\ length pre = i /\
    forall x, store i x a = pre ++ x :: post.
Proof.
  induction a as [|y a IH]; intros i Hi; simpl in Hi; [lia|].
  destruct i as [|i].
  - exists [], a. simpl. auto.
  - destruct (IH i ltac:(lia)) as (pre & post & E & L & S).
    exists (y :: pre), post. simpl. repeat split.
    + now rewrite <- E.
    + now rewrite L.
    + intros x. now rewrite S.
Qed.

Lemma nth_middle_eq {A} (d : A) pre x post i :
  length pre = i -> nth i (pre ++ x :: post) d = x.
Proof. intros <-. apply nth_middle. Qed.

Lemma nth_repeat_nil {A} n i : nth i (repeat (@nil A) n) [] = [].
Proof.
  revert i. induction n as [|n IH]; intros [|i]; simpl; auto.
Qed.

Lemma concat_repeat_nil {A} n : concat (repeat (@nil A) n) = [].
Proof. induction n as [|n IH]; simpl; auto. Qed.

(** ** Lists of (key, count) pairs *)

Lemma total_app l1 l2 k : total (l1 ++ l2) k = total l1 k + total l2 k.
Proof.
  induction l1 as [|[k' c] l1 IH]; simpl; [reflexivity|].
  destruct (cstring_eqb k' k); lia.
Qed.

Lemma total_perm l1 l2 k : Permutation l1 l2 -> total l1 k = total l2 k.
Proof.
  induction 1 as [|[k1 c1] l1 l2 _ IH|[k1 c1] [k2 c2] l|l1 l2 l3 _ IH1 _ IH2];
    simpl; try lia.
  - now rewrite IH.
  - destruct (cstring_eqb k1 k), (cstring_eqb k2 k); lia.
Qed.

Lemma total_absent l k : ~ In k (List.map fst l) -> total l k = 0.
Proof.
  induction l as [|[k' c] l IH]; simpl; intros H; [reflexivity|].
  destruct (cstring_eqb k' k) eqn:E.
  - apply cstring_eqb_eq in E. tauto.
  - apply IH. tauto.
Qed.

Lemma total_unique l k c :
  NoDup (List.map fst l) -> In (k, c) l -> total l k = c.
Proof.
  induction l as [|[k' c'] l IH]; simpl; intros ND H; [tauto|].
  inversion ND as [|? ? Hnin ND']; subst.
  destruct H as [H|H].
  - injection H as -> ->. rewrite cstring_eqb_refl.
    rewrite total_absent by assumption. lia.
  - destruct (cstring_eqb k' k) eqn:E.
    + apply cstring_eqb_eq in E. subst k'. exfalso. apply Hnin.
      change k with (fst (k, c)). now apply in_map.
    + now apply IH.
Qed.

Lemma total_present l k : total l k <> 0 -> exists c, In (k, c) l.
Proof.
  induction l as [|[k' c'] l IH]; simpl; intros H; [congruence|].
  destruct (cstring_eqb k' k) eqn:E.
  - apply cstring_eqb_eq in E. subst k'. eauto.
  - destruct (IH H) as [c Hc]. eauto.
Qed.

Lemma NoDup_map_fst {A B} (l : list (A * B)) :
  NoDup (List.map fst l) -> NoDup l.
Proof.
  induction l as [|x l IH]; simpl; intros H; constructor;
    inversion H; subst; auto.
  intros Hin. apply H2. now apply in_map.
Qed.

(** Two tables without repeated keys and without zero counts that give
    every key the same count hold the same pairs. *)
Lemma total_ext_perm l1 l2 :
  NoDup (List.map fst l1) -> NoDup (List.map fst l2) ->
  (forall k c, In (k, c) l1 -> c <> 0) ->
  (forall k c, In (k, c) l2 -> c <> 0) ->
  (forall k, total l1 k = total l2 k) ->
  Permutation l1 l2.
Proof.
  intros N1 N2 P1 P2 E.
  apply NoDup_Permutation; try now apply NoDup_map_fst.
  intros [k c]. split; intros H.
  - pose proof (total_unique _ _ _ N1 H) as T. rewrite E in T.
    destruct (total_present l2 k) as [c' Hc'].
    + rewrite T. eauto.
    + rewrite (total_unique _ _ _ N2 Hc') in T. now subst.
  - pose proof (total_unique _ _ _ N2 H) as T. rewrite <- E in T.
    destruct (total_present l1 k) as [c' Hc'].
    + rewrite T. eauto.
    + rewrite (total_unique _ _ _ N1 Hc') in T. now subst.
Qed.

Lemma nth_app_other {A} (d : A) pre x y post i :
  i <> length pre ->
  nth i (pre ++ x :: post) d = nth i (pre ++ y :: post) d.
Proof.
  intros H. destruct (Nat.lt_ge_cases i (length pre)) as [Hlt|Hge].
  - now rewrite !app_nth1 by assumption.
  - rewrite !app_nth2 by assumption.
    destruct (i - length pre)%nat as [|j] eqn:E; [lia|]. reflexivity.
Qed.

Lemma in_concat_nth {A} (x : A) ls :
  In x (concat ls) -> exists i, In x (nth i ls []).
Proof.
  intros H. apply in_concat in H. destruct H as (l & Hl & Hx).
  destruct (In_nth _ _ [] Hl) as (i & _ & E). exists i. now rewrite E.
Qed.

Lemma in_nth_concat {A} (x : A) ls i :
  In x (nth i ls []) -> In x (concat ls).
Proof.
  intros H. apply in_concat. exists (nth i ls []). split; [|exact H].
  destruct (Nat.lt_ge_cases i (length ls)) as [Hlt|Hge].
  - now apply nth_In.
  - rewrite nth_overflow in H by assumption. destruct H.
Qed.

(** ** The frequency table of the distributed program *)

Lemma mpi_chain_increment_some chain : forall w chain',
  Mpi.chain_increment chain w = Some chain' ->
  exists l1 e l2,
    chain = l1 ++ e :: l2 /\
    chain' = l1 ++ Mpi.mkNode (Mpi.word e) (Mpi.count e + 1) :: l2 /\
    strncasecmp (Mpi.word e) w MAX_WORD_LEN = 0 /\
    forall x, In x l1 -> strncasecmp (Mpi.word x) w MAX_WORD_LEN <> 0.
Proof.
  induction chain as [|node rest IH]; intros w chain' H; simpl in H;
    [discriminate|].
  destruct (strncasecmp (Mpi.word node) w MAX_WORD_LEN =? 0) eqn:E.
  - injection H as <-. apply Z.eqb_eq in E.
    exists [], node, rest. simpl. repeat split; auto; intros x [].
  - destruct (Mpi.chain_increment rest w) as [rest'|] eqn:R;
      [|discriminate].
    injection H as <-. apply Z.eqb_neq in E.
    destruct (IH _ _ R) as (l1 & e & l2 & -> & -> & Z0 & NZ).
    exists (node :: l1), e, l2. simpl. repeat split; auto.
    intros x [<-|Hx]; auto.
Qed.

Lemma mpi_chain_increment_none chain : forall w,
  Mpi.chain_increment chain w = None ->
  forall x, In x chain -> strncasecmp (Mpi.word x) w MAX_WORD_LEN <> 0.
Proof.
  induction chain as [|node rest IH]; intros w H x Hx; simpl in *;
    [tauto|].
  destruct (strncasecmp (Mpi.word node) w MAX_WORD_LEN =? 0) eqn:E;
    [discriminate|].
  destruct (Mpi.chain_increment rest w) eqn:R; [discriminate|].
  apply Z.eqb_neq in E. destruct Hx as [<-|Hx]; eauto.
Qed.

Lemma word_ok_firstn w : word_ok w -> firstn (MAX_WORD_LEN - 1) w = w.
Proof.
  intros [H _]. apply firstn_all2. lia.
Qed.

(** What [insert_word] does to the bucket array: either the first node
    of the bucket whose folded word is that of [w] gets one more, or no
    node of the table has that folded word and a node for [w] becomes the
    head of the bucket. *)
Lemma mpi_insert_word_cases t w :
  mpi_wf t -> word_ok w ->
  exists pre chain post,
    Mpi.buckets t = pre ++ chain :: post /\
    length pre = Z.to_nat (hash w (Mpi.size t)) /\
    ((exists l1 e l2,
        chain = l1 ++ e :: l2 /\
        fold_case (Mpi.word e) = fold_case w /\
        Mpi.insert_word t w =
          Mpi.mkMap
            (pre ++ (l1 ++ Mpi.mkNode (Mpi.word e) (Mpi.count e + 1) :: l2)
                 :: post)
            (Mpi.size t) (Mpi.items t))
     \/
     ((forall n, In n (Mpi.entries t) ->
                 fold_case (Mpi.word n) <> fold_case w) /\
      Mpi.insert_word t w =
        Mpi.mkMap (pre ++ (Mpi.mkNode w 1 :: chain) :: post)
                  (Mpi.size t) (Mpi.items t + 1))).
Proof.
  intros W Hw.
  pose proof (hash_range w _ (mpi_wf_size _ W)) as Hr.
  set (h := Z.to_nat (hash w (Mpi.size t))).
  assert (Hh : (h < length (Mpi.buckets t))%nat).
  { rewrite (mpi_wf_length _ W). unfold h. lia. }
  destruct (store_split [] _ _ Hh) as (pre & post & E & L & S).
  exists pre, (nth h (Mpi.buckets t) []), post. split; [exact E|].
  split; [exact L|].
  unfold Mpi.insert_word. fold h.
  destruct (Mpi.chain_increment (nth h (Mpi.buckets t) []) w)
    as [chain'|] eqn:C.
  - left. apply mpi_chain_increment_some in C.
    destruct C as (l1 & e & l2 & Ec & -> & Z0 & _).
    exists l1, e, l2. split; [exact Ec|]. split.
    + assert (In e (Mpi.entries t)) as He.
      { apply (in_nth_concat _ _ h). rewrite Ec. apply in_elt. }
      pose proof (mpi_wf_words _ W _ He) as [Hl Hn].
      apply (strncasecmp_zero _ _ MAX_WORD_LEN); auto; apply Hw.
    + now rewrite S.
  - right. split.
    + intros n Hn Hf.
      destruct (in_concat_nth _ _ Hn) as (i & Hi).
      pose proof (mpi_wf_place _ W _ _ Hi) as P.
      rewrite (hash_fold _ _ _ Hf) in P. fold h in P. subst i.
      apply (mpi_chain_increment_none _ _ C n Hi).
      now apply strncasecmp_fold.
    + rewrite word_ok_firstn by assumption. now rewrite S.
Qed.

Lemma concat_mid {A} pre (l1 : list A) x l2 post :
  concat (pre ++ (l1 ++ x :: l2) :: post)
  = (concat pre ++ l1) ++ x :: (l2 ++ concat post).
Proof.
  rewrite concat_app. simpl. now rewrite <- !app_assoc.
Qed.

Lemma concat_head {A} pre (x : A) chain post :
  concat (pre ++ (x :: chain) :: post)
  = concat pre ++ x :: (chain ++ concat post).
Proof. rewrite concat_app. reflexivity. Qed.

Lemma concat_bucket {A} pre (chain : list A) post :
  concat (pre ++ chain :: post) = concat pre ++ (chain ++ concat post).
Proof. rewrite concat_app. reflexivity. Qed.

(** The invariant survives a new count in one node. *)
Lemma table_inv_bump key Q pre l1 e l2 post size items c :
  table_inv key Q (Mpi.mkMap (pre ++ (l1 ++ e :: l2) :: post) size items) ->
  0 < c ->
  table_inv key Q
    (Mpi.mkMap (pre ++ (l1 ++ Mpi.mkNode (Mpi.word e) c :: l2) :: post)
               size items).
Proof.
  intros W Hc.
  pose proof (inv_place _ _ _ W) as Pl. pose proof (inv_words _ _ _ W) as Wo.
  pose proof (inv_counts _ _ _ W) as Co. pose proof (inv_nodup _ _ _ W) as N.
  pose proof (inv_items _ _ _ W) as It.
  pose proof (inv_length _ _ _ W) as Le.
  unfold Mpi.entries in *. cbn [Mpi.buckets Mpi.size Mpi.items] in *.
  rewrite concat_mid in *.
  constructor; unfold Mpi.entries; cbn [Mpi.buckets Mpi.size Mpi.items];
    rewrite ?concat_mid.
  - apply W.
  - rewrite <- Le, !length_app. reflexivity.
  - rewrite It, !length_app. reflexivity.
  - intros i node H.
    destruct (Nat.eq_dec i (length pre)) as [->|Hi].
    + rewrite nth_middle in H. apply in_app_or in H.
      destruct H as [H|[<-|H]].
      * apply Pl. rewrite nth_middle. apply in_or_app. auto.
      * apply (Pl (length pre) e). rewrite nth_middle. apply in_elt.
      * apply Pl. rewrite nth_middle. apply in_or_app. simpl. auto.
    + apply Pl. erewrite (nth_app_other [] pre _ _ post i Hi). exact H.
  - intros node H. apply in_app_or in H. destruct H as [H|[<-|H]].
    + apply Wo. apply in_or_app. auto.
    + apply (Wo e). apply in_elt.
    + apply Wo. apply in_or_app. simpl. auto.
  - intros node H. apply in_app_or in H. destruct H as [H|[<-|H]].
    + apply Co. apply in_or_app. auto.
    + exact Hc.
    + apply Co. apply in_or_app. simpl. auto.
  - rewrite map_app in *. exact N.
Qed.

(** The invariant survives a new node at the head of the bucket of its
    hash, when no entry has its key. *)
Lemma table_inv_push key Q pre chain post size items w c :
  table_inv key Q (Mpi.mkMap (pre ++ chain :: post) size items) ->
  Q w -> 0 < c ->
  Z.to_nat (hash w size) = length pre ->
  (forall n, In n (concat (pre ++ chain :: post)) ->
             key (Mpi.word n) <> key w) ->
  table_inv key Q
    (Mpi.mkMap (pre ++ (Mpi.mkNode w c :: chain) :: post) size (items + 1)).
Proof.
  intros W Hw Hc Hh Fresh.
  pose proof (inv_place _ _ _ W) as Pl. pose proof (inv_words _ _ _ W) as Wo.
  pose proof (inv_counts _ _ _ W) as Co. pose proof (inv_nodup _ _ _ W) as N.
  pose proof (inv_items _ _ _ W) as It.
  pose proof (inv_length _ _ _ W) as Le.
  unfold Mpi.entries in *. cbn [Mpi.buckets Mpi.size Mpi.items] in *.
  rewrite concat_bucket in *.
  constructor; unfold Mpi.entries; cbn [Mpi.buckets Mpi.size Mpi.items];
    rewrite ?concat_head.
  - apply W.
  - rewrite <- Le, !length_app. reflexivity.
  - rewrite It, !length_app. simpl. rewrite !length_app. lia.
  - intros i node H.
    destruct (Nat.eq_dec i (length pre)) as [->|Hi].
    + rewrite nth_middle in H. destruct H as [<-|H]; [exact Hh|].
      apply Pl. now rewrite nth_middle.
    + apply Pl. erewrite (nth_app_other [] pre _ _ post i Hi). exact H.
  - intros node H. apply in_app_or in H. destruct H as [H|[<-|H]].
    + apply Wo. apply in_or_app. auto.
    + exact Hw.
    + apply Wo. apply in_or_app. auto.
  - intros node H. apply in_app_or in H. destruct H as [H|[<-|H]].
    + apply Co. apply in_or_app. auto.
    + exact Hc.
    + apply Co. apply in_or_app. auto.
  - rewrite map_app in *. cbn [List.map].
    apply NoDup_Add with (a := key w)
      (l := List.map (fun n => key (Mpi.word n)) (concat pre) ++
            List.map (fun n => key (Mpi.word n)) (chain ++ concat post)).
    + apply Add_app.
    + split; [exact N|]. rewrite <- map_app.
      intros Hin. apply in_map_iff in Hin.
      destruct Hin as (n & Hn & Hin). now apply (Fresh n).
Qed.

Lemma table_same (t : Mpi.HashMap) bs :
  Mpi.buckets t = bs -> t = Mpi.mkMap bs (Mpi.size t) (Mpi.items t).
Proof. intros <-. now destruct t. Qed.

Lemma mpi_insert_word_wf t w :
  mpi_wf t -> word_ok w -> mpi_wf (Mpi.insert_word t w).
Proof.
  intros W Hw.
  destruct (mpi_insert_word_cases t w W Hw)
    as (pre & chain & post & B & L &
        [(l1 & e & l2 & -> & F & ->) | (Fresh & ->)]);
    rewrite (table_same t _ B) in W.
  - apply table_inv_bump; [exact W|].
    assert (0 < Mpi.count e); [|lia].
    apply (inv_counts _ _ _ W). unfold Mpi.entries. cbn [Mpi.buckets].
    rewrite concat_mid. apply in_elt.
  - apply table_inv_push; auto; [lia|].
    intros n Hn. apply Fresh. unfold Mpi.entries. now rewrite B.
Qed.

Lemma mpi_create_entries size : Mpi.entries (Mpi.create_hashmap size) = [].
Proof. apply concat_repeat_nil. Qed.

Lemma mpi_create_wf size : 0 < size -> mpi_wf (Mpi.create_hashmap size).
Proof.
  intros H. constructor; rewrite ?mpi_create_entries; simpl.
  - exact H.
  - apply repeat_length.
  - reflexivity.
  - intros i node Hn. rewrite nth_repeat_nil in Hn. destruct Hn.
  - intros node [].
  - intros node [].
  - constructor.
Qed.

Lemma mpi_contents_eq t :
  mpi_contents t
  = List.map (fun n => (fold_case (Mpi.word n), Mpi.count n))
             (Mpi.entries t).
Proof. unfold mpi_contents, mpi_listing. now rewrite map_map. Qed.

Lemma mpi_contents_keys t :
  List.map fst (mpi_contents t)
  = List.map (fun n => fold_case (Mpi.word n)) (Mpi.entries t).
Proof. rewrite mpi_contents_eq. now rewrite map_map. Qed.

(** [insert_word] on the list of (spelling, count) pairs. *)
Lemma mpi_insert_word_listing t w :
  mpi_wf t -> word_ok w ->
  (exists L1 w0 c0 L2,
      mpi_listing t = L1 ++ (w0, c0) :: L2 /\
      fold_case w0 = fold_case w /\
      mpi_listing (Mpi.insert_word t w) = L1 ++ (w0, c0 + 1) :: L2 /\
      Mpi.items (Mpi.insert_word t w) = Mpi.items t)
  \/
  (~ In (fold_case w) (List.map fst (mpi_contents t)) /\
   exists L1 L2,
      mpi_listing t = L1 ++ L2 /\
      mpi_listing (Mpi.insert_word t w) = L1 ++ (w, 1) :: L2 /\
      Mpi.items (Mpi.insert_word t w) = Mpi.items t + 1).
Proof.
  intros W Hw.
  destruct (mpi_insert_word_cases t w W Hw)
    as (pre & chain & post & B & L &
        [(l1 & e & l2 & -> & F & ->) | (Fresh & ->)]).
  - left.
    exists (List.map (fun n => (Mpi.word n, Mpi.count n)) (concat pre ++ l1)),
           (Mpi.word e), (Mpi.count e),
           (List.map (fun n => (Mpi.word n, Mpi.count n))
                     (l2 ++ concat post)).
    unfold mpi_listing, Mpi.entries. rewrite B. simpl.
    rewrite !concat_mid, !map_app. simpl. rewrite !map_app. auto.
  - right. split.
    + rewrite mpi_contents_keys. intros Hin. apply in_map_iff in Hin.
      destruct Hin as (n & Hn & Hin). now apply (Fresh n).
    + exists (List.map (fun n => (Mpi.word n, Mpi.count n)) (concat pre)),
             (List.map (fun n => (Mpi.word n, Mpi.count n))
                       (chain ++ concat post)).
      unfold mpi_listing, Mpi.entries. rewrite B. simpl.
      rewrite concat_head, concat_bucket, !map_app. simpl.
      rewrite ?map_app. auto.
Qed.

Lemma mpi_insert_word_total t w k :
  mpi_wf t -> word_ok w ->
  total (mpi_contents (Mpi.insert_word t w)) k
  = total (mpi_contents t) k
    + (if cstring_eqb (fold_case w) k then 1 else 0).
Proof.
  intros W Hw. unfold mpi_contents.
  destruct (mpi_insert_word_listing t w W Hw)
    as [(L1 & w0 & c0 & L2 & -> & F & -> & _)
       |(_ & L1 & L2 & -> & -> & _)];
    rewrite !map_app, !total_app; cbn [List.map total];
    unfold fold_key; cbn [fst snd];
    rewrite ?F; destruct (cstring_eqb (fold_case w) k); lia.
Qed.

Lemma mpi_iter_insert_word m t w :
  mpi_wf t -> word_ok w ->
  mpi_wf (Nat.iter m (fun x => Mpi.insert_word x w) t) /\
  forall k,
    total (mpi_contents (Nat.iter m (fun x => Mpi.insert_word x w) t)) k
    = total (mpi_contents t) k
      + (if cstring_eqb (fold_case w) k then Z.of_nat m else 0).
Proof.
  intros W Hw. induction m as [|m [IHw IHt]].
  - split; [exact W|]. intros k. simpl.
    destruct (cstring_eqb (fold_case w) k); lia.
  - rewrite Nat.iter_succ. split; [now apply mpi_insert_word_wf|].
    intros k. rewrite mpi_insert_word_total, IHt by assumption.
    destruct (cstring_eqb (fold_case w) k); lia.
Qed.

Lemma mpi_insert_times_wf t w n :
  mpi_wf t -> word_ok w -> mpi_wf (Mpi.insert_times t w n).
Proof. intros W Hw. now apply mpi_iter_insert_word. Qed.

Lemma mpi_insert_times_total t w n k :
  mpi_wf t -> word_ok w -> 0 <= n ->
  total (mpi_contents (Mpi.insert_times t w n)) k
  = total (mpi_contents t) k
    + (if cstring_eqb (fold_case w) k then n else 0).
Proof.
  intros W Hw Hn. unfold Mpi.insert_times.
  destruct (mpi_iter_insert_word (Z.to_nat n) t w W Hw) as [_ T].
  rewrite T, Z2Nat.id by assumption. reflexivity.
Qed.

(** The loop of [merge_hashmaps] over any list of nodes. *)
Lemma mpi_merge_nodes nodes : forall dest,
  mpi_wf dest ->
  (forall n, In n nodes -> word_ok (Mpi.word n) /\ 0 < Mpi.count n) ->
  let result :=
    fold_left (fun d node =>
                 Mpi.insert_times d (Mpi.word node) (Mpi.count node))
              nodes dest in
  mpi_wf result /\
  forall k,
    total (mpi_contents result) k
    = total (mpi_contents dest) k
      + total (List.map (fun n => (fold_case (Mpi.word n), Mpi.count n))
                        nodes) k.
Proof.
  induction nodes as [|node nodes IH]; intros dest W H; simpl.
  - split; [exact W|]. intros k. lia.
  - destruct (H node (or_introl eq_refl)) as [Hw Hc].
    destruct (IH (Mpi.insert_times dest (Mpi.word node) (Mpi.count node)))
      as [W' T].
    + now apply mpi_insert_times_wf.
    + intros n Hn. apply H. now right.
    + split; [exact W'|]. intros k. rewrite T.
      rewrite mpi_insert_times_total by (auto; lia).
      destruct (cstring_eqb (fold_case (Mpi.word node)) k); lia.
Qed.

Lemma mpi_merge_wf dest src :
  mpi_wf dest -> mpi_wf src -> mpi_wf (Mpi.merge_hashmaps dest src).
Proof.
  intros Wd Ws. apply mpi_merge_nodes; [exact Wd|].
  intros n Hn. split; [now apply (mpi_wf_words _ Ws)
                      |now apply (mpi_wf_counts _ Ws)].
Qed.

Lemma mpi_merge_total dest src k :
  mpi_wf dest -> mpi_wf src ->
  total (mpi_contents (Mpi.merge_hashmaps dest src)) k
  = total (mpi_contents dest) k + total (mpi_contents src) k.
Proof.
  intros Wd Ws. rewrite (mpi_contents_eq src).
  apply mpi_merge_nodes; [exact Wd|].
  intros n Hn. split; [now apply (mpi_wf_words _ Ws)
                      |now apply (mpi_wf_counts _ Ws)].
Qed.

(** ** The shared-memory table seen through [omp_view] *)

Lemma store_map {A B} (f : A -> B) : forall (a : list A) i x,
  store i (f x) (List.map f a) = List.map f (store i x a).
Proof.
  induction a as [|y a IH]; intros [|i] x; simpl; auto.
  now rewrite IH.
Qed.

Lemma omp_chain_increment_view chain : forall w,
  Mpi.chain_increment (List.map omp_node_view chain) w
  = option_map (List.map omp_node_view) (Omp.chain_increment chain w).
Proof.
  induction chain as [|node rest IH]; intros w; simpl; [reflexivity|].
  destruct (strncasecmp (Omp.word node) w MAX_WORD_LEN =? 0);
    [reflexivity|].
  rewrite IH. destruct (Omp.chain_increment rest w); reflexivity.
Qed.

Lemma omp_insert_word_view t w :
  word_ok w ->
  omp_view (Omp.insert_word t w) = Mpi.insert_word (omp_view t) w.
Proof.
  intros Hw. unfold Omp.insert_word, Mpi.insert_word.
  cbn [omp_view Mpi.buckets Mpi.size Mpi.items].
  change (@nil Mpi.WordNode) with (List.map omp_node_view []).
  rewrite map_nth, omp_chain_increment_view.
  destruct (Omp.chain_increment _ w) as [chain'|]; cbn [option_map].
  - unfold omp_view. cbn [Omp.buckets Omp.size Omp.items].
    now rewrite store_map.
  - unfold omp_view. cbn [Omp.buckets Omp.size Omp.items].
    rewrite word_ok_firstn by assumption.
    now rewrite <- store_map.
Qed.

Lemma omp_listing_view t : omp_listing t = mpi_listing (omp_view t).
Proof.
  unfold omp_listing, mpi_listing, Omp.entries, Mpi.entries, omp_view.
  cbn [Mpi.buckets]. rewrite <- concat_map, map_map. reflexivity.
Qed.

Lemma omp_create_view size :
  omp_view (Omp.create_hashmap size) = Mpi.create_hashmap size.
Proof.
  unfold omp_view, Omp.create_hashmap, Mpi.create_hashmap.
  cbn [Omp.buckets Omp.size Omp.items]. f_equal.
  induction (Z.to_nat size) as [|n IH]; simpl; [reflexivity|].
  now rewrite IH.
Qed.

(** ** Insert-or-increment *)

Lemma mpi_listing_unique t w0 c0 w1 c1 :
  mpi_wf t ->
  In (w0, c0) (mpi_listing t) -> In (w1, c1) (mpi_listing t) ->
  fold_case w0 = fold_case w1 -> (w0, c0) = (w1, c1).
Proof.
  intros W H0 H1 F. pose proof (mpi_wf_nodup _ W) as N.
  unfold mpi_listing in *. apply in_map_iff in H0, H1.
  destruct H0 as (n0 & E0 & I0), H1 as (n1 & E1 & I1).
  injection E0 as <- <-. injection E1 as <- <-.
  assert (n0 = n1) as ->; [|reflexivity].
  revert N I0 I1 F. generalize (Mpi.entries t). intros l.
  induction l as [|x l IH]; simpl; intros N I0 I1 F; [tauto|].
  inversion N as [|? ? Hx N']; subst.
  destruct I0 as [->|I0], I1 as [->|I1]; auto.
  - exfalso. apply Hx. rewrite F.
    now apply (in_map (fun n => fold_case (Mpi.word n))).
  - exfalso. apply Hx. rewrite <- F.
    now apply (in_map (fun n => fold_case (Mpi.word n))).
Qed.

Lemma mpi_insert_word_post t w :
  mpi_wf t -> word_ok w ->
  insert_postcondition w (mpi_listing t)
    (mpi_listing (Mpi.insert_word t w))
    (Mpi.items t) (Mpi.items (Mpi.insert_word t w)).
Proof.
  intros W Hw.
  destruct (mpi_insert_word_listing t w W Hw)
    as [(L1 & w1 & c1 & L2 & E & F & E' & I)
       |(Fresh & L1 & L2 & E & E' & I)]; split.
  - intros w0 c0 H0 F0. split; [exact I|].
    assert ((w0, c0) = (w1, c1)) as X.
    { apply (mpi_listing_unique t); auto.
      - rewrite E. apply in_elt.
      - congruence. }
    injection X as -> ->. eauto.
  - intros H. exfalso. apply (H w1 c1); [|exact F].
    rewrite E. apply in_elt.
  - intros w0 c0 H0 F0. exfalso. apply Fresh. rewrite <- F0.
    unfold mpi_contents. rewrite map_map.
    now apply (in_map (fun x => fst (fold_key x))) in H0.
  - intros _. split; [exact I|]. eauto.
Qed.


Lemma omp_insert_word_post t w :
  omp_inv t -> word_ok w ->
  insert_postcondition w (omp_listing t)
    (omp_listing (Omp.insert_word t w))
    (Omp.items t) (Omp.items (Omp.insert_word t w)).
Proof.
  intros W Hw. rewrite !omp_listing_view, omp_insert_word_view by exact Hw.
  change (Omp.items (Omp.insert_word t w))
    with (Mpi.items (omp_view (Omp.insert_word t w))).
  rewrite omp_insert_word_view by exact Hw.
  now apply (mpi_insert_word_post (omp_view t) w).
Qed.

Lemma omp_insert_word_inv t w :
  omp_inv t -> word_ok w -> omp_inv (Omp.insert_word t w).
Proof.
  intros W Hw. unfold omp_inv. rewrite omp_insert_word_view by exact Hw.
  now apply mpi_insert_word_wf.
Qed.

Lemma omp_create_inv size : 0 < size -> omp_inv (Omp.create_hashmap size).
Proof.
  intros H. unfold omp_inv. rewrite omp_create_view.
  now apply mpi_create_wf.
Qed.


Lemma mpi_listing_create size : mpi_listing (Mpi.create_hashmap size) = [].
Proof. unfold mpi_listing. now rewrite mpi_create_entries. Qed.


Ltac word_ok_tac :=
  split; [unfold MAX_WORD_LEN; simpl; lia
         |simpl; intros H; repeat destruct H as [H|H]; try discriminate H;
          exact H].



(** ** The tokenizer *)

Lemma is_delimiter_existsb c delims :
  is_delimiter c delims = existsb (Ascii.eqb c) delims.
Proof.
  induction delims as [|d delims IH]; simpl; [reflexivity|].
  rewrite IH. now destruct (Ascii.eqb c d).
Qed.

Lemma scan_byte_cases {T} (ins : T -> cstring -> T) delims t w c :
  scan_byte ins delims (t, w) c
  = if is_separator delims c
    then match w with [] => (t, []) | _ => (ins t (cstr w), []) end
    else if (length w <? max_word_length)%nat then (t, w ++ [c])
         else (t, w).
Proof.
  unfold scan_byte, is_separator. rewrite is_delimiter_existsb.
  cbn [fst snd]. destruct w; reflexivity.
Qed.

Lemma scan_bytes_acc delims stream : forall acc w,
  scan_bytes snoc delims (acc, w) stream
  = (acc ++ fst (scan_bytes snoc delims ([], w) stream),
     snd (scan_bytes snoc delims ([], w) stream)).
Proof.
  induction stream as [|c stream IH]; intros acc w.
  - simpl. now rewrite app_nil_r.
  - unfold scan_bytes in *. cbn [fold_left]. rewrite !scan_byte_cases.
    destruct (is_separator delims c).
    + destruct w as [|x w]; [apply IH|].
      rewrite (IH (snoc acc _)), (IH (snoc [] _)). unfold snoc.
      cbn [fst snd]. now rewrite <- app_assoc.
    + destruct (length w <? max_word_length)%nat; apply IH.
Qed.

Lemma scan_bytes_generic {T} (ins : T -> cstring -> T) delims stream :
  forall t w,
    scan_bytes ins delims (t, w) stream
    = (fold_left ins (fst (scan_bytes snoc delims ([], w) stream)) t,
       snd (scan_bytes snoc delims ([], w) stream)).
Proof.
  induction stream as [|c stream IH]; intros t w; [reflexivity|].
  unfold scan_bytes in *. cbn [fold_left]. rewrite !scan_byte_cases.
  destruct (is_separator delims c).
  - destruct w as [|x w]; [apply IH|].
    rewrite IH.
    pose proof (scan_bytes_acc delims stream (snoc [] (cstr (x :: w))) [])
      as A. unfold scan_bytes in A. rewrite A. cbn [fst snd].
    unfold snoc. now rewrite fold_left_app.
  - destruct (length w <? max_word_length)%nat; apply IH.
Qed.

(** Whatever [insert_word] does, the loop calls it on the emitted tokens,
    in order. *)
Lemma scan_generic {T} (ins : T -> cstring -> T) delims stream t :
  scan_end ins (scan_bytes ins delims (t, []) stream)
  = fold_left ins (emitted_tokens delims stream) t.
Proof.
  unfold emitted_tokens. fold snoc. rewrite scan_bytes_generic.
  destruct (scan_bytes snoc delims ([], []) stream) as [toks buf].
  unfold scan_end. cbn [fst snd]. destruct buf; [reflexivity|].
  unfold snoc. now rewrite fold_left_app.
Qed.

Lemma fold_left_concat {A B} (f : A -> B -> A) (ls : list (list B)) :
  forall a,
    fold_left (fun x l => fold_left f l x) ls a = fold_left f (concat ls) a.
Proof.
  induction ls as [|l ls IH]; intros a; simpl; [reflexivity|].
  now rewrite fold_left_app, IH.
Qed.

Lemma fread_chunks_concat fuel : forall content,
  (length content <= fuel)%nat ->
  concat (Mpi.fread_chunks fuel content) = content.
Proof.
  induction fuel as [|fuel IH]; intros content H.
  - destruct content; [reflexivity|simpl in H; lia].
  - destruct content as [|c content]; [reflexivity|].
    cbn [Mpi.fread_chunks concat]. rewrite IH.
    + apply firstn_skipn.
    + rewrite length_skipn. simpl in H.
      assert (0 < Z.to_nat (CHUNK_SIZE - 1))%nat
        by (unfold CHUNK_SIZE; lia).
      simpl length. lia.
Qed.

Lemma mpi_process_file_tokens content read_error delims :
  Mpi.process_file (Readable content read_error) delims
  = if read_error then None
    else Some (fold_left Mpi.insert_word (emitted_tokens delims content)
                         (Mpi.create_hashmap HASH_TABLE_SIZE)).
Proof.
  unfold Mpi.process_file.
  change (scan_bytes Mpi.insert_word delims)
    with (fun st l => fold_left (scan_byte Mpi.insert_word delims) l st).
  rewrite fold_left_concat, fread_chunks_concat by lia.
  change (fold_left (scan_byte Mpi.insert_word delims) content
                    (Mpi.create_hashmap HASH_TABLE_SIZE, []))
    with (scan_bytes Mpi.insert_word delims
                     (Mpi.create_hashmap HASH_TABLE_SIZE, []) content).
  now rewrite scan_generic.
Qed.

Lemma omp_process_file_sync_tokens content read_error delims :
  Omp.process_file_sync (Readable content read_error) delims
  = Some (fold_left Omp.insert_word (emitted_tokens delims content)
                    (Omp.create_hashmap HASH_TABLE_SIZE)).
Proof.
  unfold Omp.process_file_sync. now rewrite scan_generic.
Qed.

Lemma cstr_id w : ~ In NUL w -> cstr w = w.
Proof.
  induction w as [|c w IH]; intros H; simpl; [reflexivity|].
  destruct (Ascii.eqb c NUL) eqn:E.
  - apply Ascii.eqb_eq in E. exfalso. apply H. now left.
  - rewrite IH; [reflexivity|]. intros Hin. apply H. now right.
Qed.

(** Scanning a run of bytes that are not separators fills the buffer up
    to its capacity and emits nothing. *)
Lemma scan_run delims run : forall acc w,
  (forall x, In x run -> is_separator delims x = false) ->
  (length w <= max_word_length)%nat ->
  scan_bytes snoc delims (acc, w) run
  = (acc, firstn max_word_length (w ++ run)).
Proof.
  induction run as [|c run IH]; intros acc w Hs Hw.
  - unfold scan_bytes. cbn [fold_left]. rewrite app_nil_r.
    now rewrite firstn_all2.
  - unfold scan_bytes in *. cbn [fold_left]. rewrite scan_byte_cases.
    rewrite (Hs c) by now left.
    destruct (length w <? max_word_length)%nat eqn:E.
    + apply Nat.ltb_lt in E. rewrite IH.
      * now rewrite <- app_assoc.
      * intros x Hx. apply Hs. now right.
      * rewrite length_app. simpl. lia.
    + apply Nat.ltb_ge in E. rewrite IH.
      * rewrite !firstn_app.
        replace (max_word_length - length w)%nat with 0%nat by lia.
        reflexivity.
      * intros x Hx. apply Hs. now right.
      * exact Hw.
Qed.

Lemma in_firstn {A} (x : A) n : forall l, In x (firstn n l) -> In x l.
Proof.
  induction n as [|n IH]; intros [|y l] H; simpl in *; try tauto.
  destruct H as [H|H]; auto.
Qed.

Lemma scan_maximal_runs delims stream runs :
  maximal_runs (is_separator delims) stream runs ->
  ~ In NUL stream ->
  forall acc,
    scan_end snoc (scan_bytes snoc delims (acc, []) stream)
    = acc ++ List.map (firstn max_word_length) runs.
Proof.
  induction 1 as [|c stream runs Hc _ IH|run Hne Hs
                  |run c stream runs Hne Hs Hc _ IH]; intros Hnul acc.
  - simpl. now rewrite app_nil_r.
  - unfold scan_bytes in *. cbn [fold_left]. rewrite scan_byte_cases, Hc.
    apply IH. intros Hin. apply Hnul. now right.
  - rewrite scan_run by (auto; simpl; lia). rewrite app_nil_l.
    unfold scan_end. cbn [fst snd].
    assert (Hn : ~ In NUL (firstn max_word_length run)).
    { intros Hin. apply Hnul. now apply (in_firstn _ max_word_length). }
    cbn [List.map].
    destruct (firstn max_word_length run) as [|x r] eqn:E.
    + destruct run; [congruence|discriminate E].
    + unfold snoc. now rewrite cstr_id by exact Hn.
  - unfold scan_bytes in *. rewrite fold_left_app.
    pose proof (scan_run delims run acc [] Hs ltac:(simpl; lia)) as R.
    unfold scan_bytes in R. rewrite R. rewrite app_nil_l.
    cbn [fold_left]. rewrite scan_byte_cases, Hc.
    assert (Hn : ~ In NUL (firstn max_word_length run)).
    { intros Hin. apply Hnul. apply in_or_app. left.
      now apply (in_firstn _ max_word_length). }
    cbn [List.map].
    destruct (firstn max_word_length run) as [|x r] eqn:E.
    + destruct run; [congruence|discriminate E].
    + rewrite IH.
      * unfold snoc. rewrite cstr_id by exact Hn.
        now rewrite <- app_assoc.
      * intros Hin. apply Hnul. apply in_or_app. right. now right.
Qed.

(** Every stream has its maximal runs. *)
Lemma maximal_runs_exist sep stream :
  exists runs, maximal_runs sep stream runs.
Proof.
  induction stream as [|c stream [runs IH]].
  - exists []. constructor.
  - destruct (sep c) eqn:E.
    + exists runs. now constructor.
    + inversion IH as [|c' s' r' Hc' H'|run Hne Hs|run c' s' r' Hne Hs Hc' H'];
        subst.
      * exists [[c]]. apply runs_last; [discriminate|].
        intros x [<-|[]]. exact E.
      * exists ([c] :: runs). apply (runs_run sep [c]); auto.
        -- discriminate.
        -- intros x [<-|[]]. exact E.
      * exists [c :: stream]. apply runs_last; [discriminate|].
        intros x [<-|Hx]; auto.
      * exists ((c :: run) :: r').
        apply (runs_run sep (c :: run)); auto.
        -- discriminate.
        -- intros x [<-|Hx]; auto.
Qed.

Lemma maximal_runs_nonempty sep stream runs :
  maximal_runs sep stream runs -> ~ In [] runs.
Proof.
  induction 1 as [|c stream runs Hc _ IH|run Hne Hs
                  |run c stream runs Hne Hs Hc _ IH]; simpl; intuition.
Qed.

Lemma firstn_nonempty {A} n (l : list A) :
  (0 < n)%nat -> firstn n l = [] -> l = [].
Proof.
  destruct n as [|n]; [lia|]. destruct l; [reflexivity|discriminate].
Qed.

Ltac run_tac :=
  intros x H; simpl in H;
  repeat destruct H as [H|H]; try (subst x; reflexivity);
  try contradiction.

(** C6 (tokenizer), amended.  For every byte stream without NUL bytes
    and every supplied delimiter set, the tokens that the loop of
    [process_file_sync] and [process_file] hands to [insert_word] are
    exactly the maximal runs of bytes that are neither in the set nor
    newline nor carriage return, in stream order, each cut to the first
    [MAX_WORD_LEN - 1] bytes; no token is empty; and the table that either
    function returns for a readable file is the one obtained by inserting
    these tokens in order into a new table. *)
Theorem tokenizer_correct :
  forall (delims : cstring) (stream : list ascii)
         (runs : list (list ascii)),
    ~ In NUL stream ->
    maximal_runs (is_separator delims) stream runs ->
    emitted_tokens delims stream = List.map (firstn max_word_length) runs
    /\ ~ In [] (emitted_tokens delims stream)
    /\ Omp.process_file_sync (Readable stream false) delims
       = Some (fold_left Omp.insert_word
                         (List.map (firstn max_word_length) runs)
                         (Omp.create_hashmap HASH_TABLE_SIZE))
    /\ Mpi.process_file (Readable stream false) delims
       = Some (fold_left Mpi.insert_word
                         (List.map (firstn max_word_length) runs)
                         (Mpi.create_hashmap HASH_TABLE_SIZE)).
Proof.
  intros delims stream runs Hnul Hruns.
  assert (E : emitted_tokens delims stream
              = List.map (firstn max_word_length) runs).
  { unfold emitted_tokens. fold snoc.
    now rewrite (scan_maximal_runs delims stream runs Hruns Hnul []). }
  split; [exact E|]. split; [|split].
  - rewrite E. intros Hin. apply in_map_iff in Hin.
    destruct Hin as (run & Hr & Hin).
    apply firstn_nonempty in Hr; [|unfold max_word_length, MAX_WORD_LEN; lia].
    subst run. now apply (maximal_runs_nonempty _ _ _ Hruns).
  - now rewrite omp_process_file_sync_tokens, E.
  - now rewrite mpi_process_file_tokens, E.
Qed.

Lemma tokenizer_correct_witness :
  emitted_tokens (str " ") (str "Apple  apple BANANA")
  = List.map (firstn max_word_length)
             [str "Apple"; str "apple"; str "BANANA"].
Proof.
  apply (tokenizer_correct (str " ") (str "Apple  apple BANANA")
           [str "Apple"; str "apple"; str "BANANA"]).
  - simpl. intros H. repeat destruct H as [H|H]; try discriminate H.
    exact H.
  - apply (runs_run _ (str "Apple") " "%char (str " apple BANANA"));
      [discriminate| |reflexivity|].
    { run_tac. }
    apply runs_separator; [reflexivity|].
    apply (runs_run _ (str "apple") " "%char (str "BANANA"));
      [discriminate| |reflexivity|].
    { run_tac. }
    apply runs_last; [discriminate|]. run_tac.
Defined.

(** C6 as stated fails on streams that hold a NUL byte: the token handed
    to [insert_word] is the C string in the buffer, which ends at the
    first NUL of the run, and is empty when the run starts with NUL. *)
Lemma tokenizer_nul_counterexample :
  let stream := ["a"%char; NUL; "b"%char] in
  let stream' := [NUL; "a"%char] in
  (maximal_runs (is_separator (str " ")) stream [stream] /\
   emitted_tokens (str " ") stream = [str "a"] /\
   emitted_tokens (str " ") stream
   <> List.map (firstn max_word_length) [stream])
  /\
  (maximal_runs (is_separator (str " ")) stream' [stream'] /\
   emitted_tokens (str " ") stream' = [[]]).
Proof.
  intros stream stream'. split; [split; [|split]|split].
  - apply runs_last; [discriminate|]. run_tac.
  - reflexivity.
  - vm_compute. discriminate.
  - apply runs_last; [discriminate|]. run_tac.
  - reflexivity.
Qed.

(** ** Reconstruction from received bytes *)

Lemma cstr_no_nul buf : ~ In NUL (cstr buf).
Proof.
  induction buf as [|c buf IH]; simpl; [tauto|].
  destruct (Ascii.eqb c NUL) eqn:E; simpl; [tauto|].
  apply Ascii.eqb_neq in E. intros [H|H]; auto.
Qed.

Lemma deserialize_hashmap_lines map buffer length :
  0 <= length ->
  Mpi.deserialize_hashmap map buffer length
  = fold_left Mpi.deserialize_line (received_lines buffer length) map.
Proof.
  intros H. unfold Mpi.deserialize_hashmap, received_lines.
  replace (length <? 0) with false by (symmetry; now apply Z.ltb_ge).
  now destruct ((length <=? 1) && Ascii.eqb (nth 0 buffer NUL) NUL).
Qed.

(** ** Printing and parsing counts *)

Lemma digit_code n :
  0 <= n < 10 -> code (ascii_of_N (Z.to_N (48 + n))) = 48 + n.
Proof.
  intros H. unfold code. rewrite N_ascii_embedding; lia.
Qed.

Lemma digit_isdigit n :
  0 <= n < 10 -> isdigit (ascii_of_N (Z.to_N (48 + n))) = true.
Proof.
  intros H. unfold isdigit. rewrite digit_code by exact H.
  apply andb_true_intro. split; apply Z.leb_le; lia.
Qed.

Lemma digits_value_digits_of fuel : forall n acc,
  0 <= n < 10 ^ Z.of_nat fuel ->
  digits_value 0 (digits_of fuel n acc) = digits_value n acc.
Proof.
  induction fuel as [|fuel IH]; intros n acc H.
  - simpl in *. now replace n with 0 by lia.
  - cbn [digits_of].
    assert (Hm : 0 <= n mod 10 < 10) by (apply Z.mod_pos_bound; lia).
    pose proof (Z.div_mod n 10 ltac:(lia)) as Hd.
    destruct (n / 10 =? 0) eqn:E.
    + apply Z.eqb_eq in E. cbn [digits_value].
      rewrite digit_isdigit, digit_code by exact Hm.
      f_equal. lia.
    + apply Z.eqb_neq in E. rewrite IH.
      * cbn [digits_value]. rewrite digit_isdigit, digit_code by exact Hm.
        f_equal. lia.
      * rewrite Nat2Z.inj_succ, Z.pow_succ_r in H by lia.
        split; [apply Z.div_pos; lia|].
        apply Z.div_lt_upper_bound; lia.
Qed.

Lemma digits_of_shape fuel : forall n acc,
  0 <= n ->
  exists ds, digits_of (S fuel) n acc = ds ++ acc /\
             ds <> [] /\ (length ds <= S fuel)%nat /\
             forall d, In d ds -> isdigit d = true.
Proof.
  induction fuel as [|fuel IH]; intros n acc H;
    assert (Hm : 0 <= n mod 10 < 10) by (apply Z.mod_pos_bound; lia).
  - exists [ascii_of_N (Z.to_N (48 + n mod 10))]. cbn [digits_of].
    destruct (n / 10 =? 0); repeat split; try discriminate; simpl; auto.
    + intros d [<-|[]]. now apply digit_isdigit.
    + intros d [<-|[]]. now apply digit_isdigit.
  - remember (S fuel) as f. cbn [digits_of].
    destruct (n / 10 =? 0).
    + exists [ascii_of_N (Z.to_N (48 + n mod 10))].
      repeat split; try discriminate; simpl; try lia.
      intros d [<-|[]]. now apply digit_isdigit.
    + subst f.
      destruct (IH (n / 10)
                   (ascii_of_N (Z.to_N (48 + n mod 10)) :: acc))
        as (ds & E & Hne & Hl & Hd); [apply Z.div_pos; lia|].
      exists (ds ++ [ascii_of_N (Z.to_N (48 + n mod 10))]).
      rewrite E, <- app_assoc. repeat split.
      * destruct ds; discriminate.
      * rewrite length_app. simpl. lia.
      * intros d Hin. apply in_app_or in Hin.
        destruct Hin as [Hin|[<-|[]]]; [now apply Hd|].
        now apply digit_isdigit.
Qed.

(** What [%d] prints for a positive [int]: at most ten digits. *)
Lemma print_int_shape c :
  0 < c < 2 ^ 31 ->
  print_int c <> [] /\ (length (print_int c) <= 10)%nat /\
  forall d, In d (print_int c) -> isdigit d = true.
Proof.
  intros H. unfold print_int.
  replace (c <? 0) with false by (symmetry; apply Z.ltb_ge; lia).
  destruct (digits_of_shape 9 c [] ltac:(lia)) as (ds & E & Hne & Hl & Hd).
  rewrite E, app_nil_r. auto.
Qed.

Lemma isdigit_range d : isdigit d = true -> 48 <= code d <= 57.
Proof.
  unfold isdigit. intros H. apply andb_prop in H. destruct H as [H1 H2].
  apply Z.leb_le in H1, H2. lia.
Qed.

Lemma atoi_print_int c : 0 < c < 2 ^ 31 -> atoi (print_int c) = c.
Proof.
  intros H. destruct (print_int_shape c H) as (Hne & _ & Hd).
  assert (V : digits_value 0 (print_int c) = c).
  { unfold print_int.
    replace (c <? 0) with false by (symmetry; apply Z.ltb_ge; lia).
    rewrite digits_value_digits_of; [reflexivity|].
    change (10 ^ Z.of_nat 10) with 10000000000.
    change (2 ^ 31) with 2147483648 in H. lia. }
  destruct (print_int c) as [|d ds] eqn:E; [congruence|].
  pose proof (isdigit_range d (Hd d (or_introl eq_refl))) as R.
  unfold atoi, strtol. cbn [skip_space].
  replace (isspace d) with false.
  - replace (Ascii.eqb d "-"%char) with false.
    + replace (Ascii.eqb d "+"%char) with false.
      * rewrite V. unfold int_of_long.
        change (2 ^ 31) with 2147483648 in *.
        change (2 ^ 63) with 9223372036854775808.
        change (2 ^ 32) with 4294967296.
        rewrite Z.max_r, Z.min_r by lia.
        rewrite Z.mod_small by lia. lia.
      * symmetry. apply Ascii.eqb_neq. intros ->.
        change (code "+"%char) with 43 in R. lia.
    + symmetry. apply Ascii.eqb_neq. intros ->.
      change (code "-"%char) with 45 in R. lia.
  - unfold isspace. symmetry. apply orb_false_intro.
    + apply Z.eqb_neq. lia.
    + apply andb_false_intro2. apply Z.leb_gt. lia.
Qed.

(** ** Serialization *)

Lemma record_eq node : Mpi.record node = record_line node ++ [LF].
Proof.
  unfold Mpi.record, record_line. now rewrite <- !app_assoc.
Qed.

Lemma record_length node :
  word_ok (Mpi.word node) -> 0 < Mpi.count node < 2 ^ 31 ->
  (2 <= length (Mpi.record node) <= 111)%nat.
Proof.
  intros [Hl _] Hc. destruct (print_int_shape _ Hc) as (_ & Hp & _).
  unfold Mpi.record. rewrite !length_app. simpl.
  unfold MAX_WORD_LEN in Hl. lia.
Qed.

Lemma record_line_bytes node c :
  isdigit c = false -> c <> COLON -> ~ In c (Mpi.word node) ->
  0 < Mpi.count node < 2 ^ 31 ->
  ~ In c (record_line node).
Proof.
  intros Hd Hc Hw Hn Hin. unfold record_line in Hin.
  apply in_app_or in Hin. destruct Hin as [Hin|[Hin|Hin]]; auto.
  destruct (print_int_shape _ Hn) as (_ & _ & Hp).
  apply Hp in Hin. congruence.
Qed.

Lemma strtok_from_app d l : forall s cur,
  ~ In d l -> strtok_from (l ++ s) d cur = strtok_from s d (cur ++ l).
Proof.
  induction l as [|c l IH]; intros s cur H.
  - now rewrite app_nil_r.
  - cbn [app strtok_from].
    destruct (Ascii.eqb c d) eqn:E.
    + apply Ascii.eqb_eq in E. exfalso. apply H. now left.
    + rewrite IH by (intros Hin; apply H; now right).
      now rewrite <- app_assoc.
Qed.

Lemma strtok_records nodes :
  (forall n, In n nodes -> ~ In LF (record_line n)) ->
  strtok_all (concat (List.map Mpi.record nodes)) LF
  = List.map record_line nodes.
Proof.
  unfold strtok_all. induction nodes as [|node nodes IH]; intros H;
    [reflexivity|].
  cbn [List.map concat]. rewrite record_eq, <- app_assoc.
  rewrite strtok_from_app by (apply H; now left).
  cbn [app strtok_from]. rewrite Ascii.eqb_refl.
  destruct (record_line node) as [|x l] eqn:E.
  - unfold record_line in E. destruct (Mpi.word node); discriminate E.
  - rewrite IH; [reflexivity|]. intros n Hn. apply H. now right.
Qed.

Lemma strchr_app c w : forall rest,
  ~ In c w -> strchr (w ++ c :: rest) c = Some (length w).
Proof.
  induction w as [|x w IH]; intros rest H; simpl.
  - now rewrite Ascii.eqb_refl.
  - destruct (Ascii.eqb x c) eqn:E.
    + apply Ascii.eqb_eq in E. exfalso. apply H. now left.
    + rewrite IH by (intros Hin; apply H; now right). reflexivity.
Qed.

Lemma skipn_app_exact {A} (l1 l2 : list A) (x : A) :
  skipn (S (length l1)) (l1 ++ x :: l2) = l2.
Proof. induction l1 as [|y l1 IH]; simpl; auto. Qed.

Lemma firstn_app_exact {A} (l1 l2 : list A) :
  firstn (length l1) (l1 ++ l2) = l1.
Proof.
  rewrite firstn_app, Nat.sub_diag, firstn_all. simpl.
  apply app_nil_r.
Qed.

Lemma deserialize_record_line map node :
  ~ In COLON (Mpi.word node) -> 0 < Mpi.count node < 2 ^ 31 ->
  Mpi.deserialize_line map (record_line node)
  = Mpi.insert_times map (Mpi.word node) (Mpi.count node).
Proof.
  intros Hw Hc. unfold Mpi.deserialize_line, record_line.
  rewrite strchr_app by exact Hw.
  rewrite skipn_app_exact, atoi_print_int by exact Hc.
  replace (Mpi.count node >? 0) with true
    by (symmetry; apply Z.gtb_lt; lia).
  now rewrite firstn_app_exact.
Qed.

Lemma serialize_loop_ok nodes length0 : forall buffer written,
  (forall n, In n nodes -> (length (Mpi.record n) <= 111)%nat) ->
  written + 111 * Z.of_nat (length nodes) < length0 ->
  Mpi.serialize_loop nodes length0 buffer written
  = Some (buffer ++ concat (List.map Mpi.record nodes),
          written
          + Z.of_nat (length (concat (List.map Mpi.record nodes)))).
Proof.
  induction nodes as [|node nodes IH]; intros buffer written Hr Hb.
  - simpl. rewrite app_nil_r. f_equal. f_equal. lia.
  - cbn [Mpi.serialize_loop List.map concat].
    pose proof (Hr node (or_introl eq_refl)) as Hn.
    cbn [length] in Hb.
    replace (written + Z.of_nat (length (Mpi.record node)) >=? length0)
      with false by (symmetry; rewrite Z.geb_leb; apply Z.leb_gt; lia).
    rewrite IH.
    + rewrite <- app_assoc, length_app. f_equal. f_equal. lia.
    + intros n Hin. apply Hr. now right.
    + lia.
Qed.

Lemma records_no_nul nodes :
  (forall n, In n nodes ->
             ~ In NUL (Mpi.word n) /\ 0 < Mpi.count n < 2 ^ 31) ->
  ~ In NUL (concat (List.map Mpi.record nodes)).
Proof.
  intros H Hin. apply in_concat in Hin. destruct Hin as (r & Hr & Hin).
  apply in_map_iff in Hr. destruct Hr as (n & <- & Hn).
  destruct (H n Hn) as [Hw Hc].
  rewrite record_eq in Hin. apply in_app_or in Hin.
  destruct Hin as [Hin|[Hin|[]]]; [|discriminate Hin].
  revert Hin. apply record_line_bytes; auto. discriminate.
Qed.

Lemma mpi_node_ranges t :
  mpi_wf t -> mpi_wire_ok t ->
  forall n, In n (Mpi.entries t) ->
    word_ok (Mpi.word n) /\ 0 < Mpi.count n < 2 ^ 31 /\
    ~ In COLON (Mpi.word n) /\ ~ In LF (Mpi.word n).
Proof.
  intros W K n Hn. destruct (K n Hn) as (Hc & Hl & Hi).
  pose proof (mpi_wf_words _ W n Hn). pose proof (mpi_wf_counts _ W n Hn).
  auto.
Qed.

(** [serialize_hashmap] does not abort on a table that passes its size
    check, and sends the records of the entries in traversal order, or
    the one-byte sentinel when there is no entry. *)
Lemma mpi_serialize_ok t :
  mpi_wf t -> mpi_wire_ok t ->
  Mpi.items t * 112 <= MAX_BUFFER_SIZE ->
  Mpi.serialize_hashmap t
  = Some (match Mpi.entries t with
          | [] => ([NUL], 1)
          | _ => (concat (List.map Mpi.record (Mpi.entries t)),
                  Z.of_nat (length (concat (List.map Mpi.record
                                                     (Mpi.entries t)))))
          end).
Proof.
  intros W K Hb. unfold Mpi.serialize_hashmap.
  change (Z.of_nat MAX_WORD_LEN + 12) with 112.
  replace (Mpi.items t * 112 >? MAX_BUFFER_SIZE) with false
    by (symmetry; rewrite Z.gtb_ltb; apply Z.ltb_ge; lia).
  pose proof (mpi_node_ranges t W K) as R.
  destruct (Mpi.entries t) as [|node nodes] eqn:E.
  - reflexivity.
  - rewrite serialize_loop_ok.
    + cbn [app Z.add].
      assert (2 <= length (Mpi.record node))%nat as L.
      { apply record_length; apply (R node); now left. }
      cbn [List.map concat]. rewrite length_app.
      replace (Z.of_nat (length (Mpi.record node) + _) =? 0) with false;
        [reflexivity|].
      symmetry. apply Z.eqb_neq. lia.
    + intros n Hn. apply record_length; now apply (R n).
    + rewrite (mpi_wf_items _ W), E. cbn [length]. lia.
Qed.

Lemma fold_left_record_lines nodes : forall map,
  (forall n, In n nodes ->
             ~ In COLON (Mpi.word n) /\ 0 < Mpi.count n < 2 ^ 31) ->
  fold_left Mpi.deserialize_line (List.map record_line nodes) map
  = fold_left (fun d node =>
                 Mpi.insert_times d (Mpi.word node) (Mpi.count node))
              nodes map.
Proof.
  induction nodes as [|node nodes IH]; intros map H; [reflexivity|].
  cbn [List.map fold_left].
  destruct (H node (or_introl eq_refl)) as [Hw Hc].
  rewrite deserialize_record_line by assumption.
  apply IH. intros n Hn. apply H. now right.
Qed.

Lemma received_lines_records nodes :
  nodes <> [] ->
  (forall n, In n nodes ->
     word_ok (Mpi.word n) /\ 0 < Mpi.count n < 2 ^ 31 /\
     ~ In COLON (Mpi.word n) /\ ~ In LF (Mpi.word n)) ->
  received_lines
    (concat (List.map Mpi.record nodes))
    (Z.of_nat (length (concat (List.map Mpi.record nodes))))
  = List.map record_line nodes.
Proof.
  intros Hne R. unfold received_lines.
  assert (2 <= length (concat (List.map Mpi.record nodes)))%nat as L.
  { destruct nodes as [|node nodes]; [congruence|].
    cbn [List.map concat]. rewrite length_app.
    assert (2 <= length (Mpi.record node))%nat; [|lia].
    apply record_length; apply (R node); now left. }
  replace (Z.of_nat _ <=? 1) with false
    by (symmetry; apply Z.leb_gt; lia).
  cbn [andb]. unfold strndup. rewrite Nat2Z.id, firstn_all.
  rewrite cstr_id.
  - apply strtok_records. intros n Hn.
    destruct (R n Hn) as (_ & Hc & _ & Hl).
    apply record_line_bytes; auto. discriminate.
  - apply records_no_nul. intros n Hn.
    destruct (R n Hn) as ((_ & Hnul) & Hc & _). auto.
Qed.

(** Reconstruction from the bytes that [serialize_hashmap] sends for [t]
    is [merge_hashmaps] from [t]. *)
Lemma mpi_deserialize_serialized t buffer length dest :
  mpi_wf t -> mpi_wire_ok t ->
  Mpi.serialize_hashmap t = Some (buffer, length) ->
  Mpi.deserialize_hashmap dest buffer length = Mpi.merge_hashmaps dest t.
Proof.
  intros W K S.
  assert (Hb : Mpi.items t * 112 <= MAX_BUFFER_SIZE).
  { unfold Mpi.serialize_hashmap in S.
    change (Z.of_nat MAX_WORD_LEN + 12) with 112 in S.
    destruct (Mpi.items t * 112 >? MAX_BUFFER_SIZE) eqn:E;
      [discriminate|].
    rewrite Z.gtb_ltb in E. apply Z.ltb_ge in E. exact E. }
  rewrite (mpi_serialize_ok t W K Hb) in S.
  pose proof (mpi_node_ranges t W K) as R.
  unfold Mpi.merge_hashmaps.
  destruct (Mpi.entries t) as [|node nodes] eqn:E.
  - injection S as <- <-. reflexivity.
  - injection S as <- <-. rewrite deserialize_hashmap_lines by lia.
    change (Mpi.record node ++ concat (List.map Mpi.record nodes))
      with (concat (List.map Mpi.record (node :: nodes))).
    rewrite received_lines_records by (auto; discriminate).
    apply fold_left_record_lines. intros n Hn.
    destruct (R n Hn) as (_ & Hc & Hcol & _). auto.
Qed.

(** Inserting a word that the table does not have, [m + 1] times. *)
Lemma mpi_iter_insert_fresh m t w :
  mpi_wf t -> word_ok w ->
  (forall w0 c0, In (w0, c0) (mpi_listing t) ->
                 fold_case w0 <> fold_case w) ->
  Permutation
    (mpi_listing (Nat.iter (S m) (fun x => Mpi.insert_word x w) t))
    ((w, Z.of_nat (S m)) :: mpi_listing t).
Proof.
  intros W Hw Fresh. induction m as [|m IH].
  - change (Nat.iter 1 (fun x => Mpi.insert_word x w) t)
      with (Mpi.insert_word t w).
    destruct (mpi_insert_word_post t w W Hw) as [_ P2].
    destruct (P2 Fresh) as (_ & L1 & L2 & -> & ->).
    symmetry. apply Permutation_middle.
  - rewrite Nat.iter_succ.
    set (t' := Nat.iter (S m) (fun x => Mpi.insert_word x w) t) in *.
    assert (W' : mpi_wf t') by now apply mpi_iter_insert_word.
    destruct (mpi_insert_word_post t' w W' Hw) as [P1 _].
    destruct (P1 w (Z.of_nat (S m))) as (_ & L1 & L2 & E & ->).
    + apply (Permutation_in _ (Permutation_sym IH)). now left.
    + reflexivity.
    + rewrite E in IH.
      apply Permutation_sym, Permutation_cons_app_inv in IH.
      rewrite <- Permutation_middle.
      replace (Z.of_nat (S (S m))) with (Z.of_nat (S m) + 1) by lia.
      now constructor.
Qed.

Lemma mpi_insert_times_fresh t w c :
  mpi_wf t -> word_ok w -> 0 < c ->
  (forall w0 c0, In (w0, c0) (mpi_listing t) ->
                 fold_case w0 <> fold_case w) ->
  Permutation (mpi_listing (Mpi.insert_times t w c))
              ((w, c) :: mpi_listing t).
Proof.
  intros W Hw Hc Fresh. unfold Mpi.insert_times.
  destruct (Z.to_nat c) as [|m] eqn:E; [lia|].
  assert (Ec : c = Z.of_nat (S m)) by lia. rewrite Ec.
  now apply mpi_iter_insert_fresh.
Qed.

(** Merging nodes with pairwise different folded words, none of them in
    the destination, adds each of them as it is. *)
Lemma mpi_merge_nodes_fresh nodes : forall dest,
  mpi_wf dest ->
  NoDup (List.map (fun n => fold_case (Mpi.word n)) nodes) ->
  (forall n, In n nodes -> word_ok (Mpi.word n) /\ 0 < Mpi.count n) ->
  (forall n w0 c0, In n nodes -> In (w0, c0) (mpi_listing dest) ->
                   fold_case w0 <> fold_case (Mpi.word n)) ->
  Permutation
    (mpi_listing
       (fold_left (fun d node =>
                     Mpi.insert_times d (Mpi.word node) (Mpi.count node))
                  nodes dest))
    (mpi_listing dest
     ++ List.map (fun n => (Mpi.word n, Mpi.count n)) nodes).
Proof.
  induction nodes as [|node nodes IH]; intros dest W N H Fresh.
  - simpl. now rewrite app_nil_r.
  - cbn [fold_left List.map].
    destruct (H node (or_introl eq_refl)) as [Hw Hc].
    inversion N as [|? ? Hnin N']; subst.
    assert (P : Permutation
                  (mpi_listing (Mpi.insert_times dest (Mpi.word node)
                                                 (Mpi.count node)))
                  ((Mpi.word node, Mpi.count node) :: mpi_listing dest)).
    { apply mpi_insert_times_fresh; auto.
      intros w0 c0 Hin. apply (Fresh node w0 c0); auto. now left. }
    rewrite IH.
    + rewrite P. cbn [app]. apply Permutation_middle.
    + now apply mpi_insert_times_wf.
    + exact N'.
    + intros n Hn. apply H. now right.
    + intros n w0 c0 Hn Hin.
      apply (Permutation_in _ P) in Hin. destruct Hin as [Hin|Hin].
      * injection Hin as <- <-. intros F. apply Hnin. rewrite F.
        now apply (in_map (fun n => fold_case (Mpi.word n))).
      * apply (Fresh n w0 c0); auto. now right.
Qed.

Lemma mpi_merge_into_new t size :
  0 < size -> mpi_wf t ->
  Permutation
    (mpi_listing (Mpi.merge_hashmaps (Mpi.create_hashmap size) t))
    (mpi_listing t).
Proof.
  intros Hs W. unfold Mpi.merge_hashmaps.
  rewrite mpi_merge_nodes_fresh.
  - rewrite mpi_listing_create. reflexivity.
  - now apply mpi_create_wf.
  - apply (mpi_wf_nodup _ W).
  - intros n Hn. split; [now apply (mpi_wf_words _ W)
                        |now apply (mpi_wf_counts _ W)].
  - intros n w0 c0 _ Hin. rewrite mpi_listing_create in Hin.
    destruct Hin.
Qed.

Lemma record_of_record_line node :
  ~ In COLON (Mpi.word node) -> 0 < Mpi.count node < 2 ^ 31 ->
  record_of (record_line node) = Some (Mpi.word node, Mpi.count node).
Proof.
  intros Hw Hc. unfold record_of.
  replace (strchr (record_line node) COLON)
    with (Some (length (Mpi.word node)))
    by (symmetry; now apply strchr_app).
  replace (skipn (S (length (Mpi.word node))) (record_line node))
    with (print_int (Mpi.count node))
    by (symmetry; apply skipn_app_exact).
  rewrite atoi_print_int by exact Hc.
  replace (Mpi.count node >? 0) with true
    by (symmetry; apply Z.gtb_lt; lia).
  unfold record_line. now rewrite firstn_app_exact.
Qed.

Lemma well_formed_record_lines nodes :
  (forall n, In n nodes ->
             ~ In COLON (Mpi.word n) /\ 0 < Mpi.count n < 2 ^ 31) ->
  well_formed_records (List.map record_line nodes)
  = List.map (fun n => (Mpi.word n, Mpi.count n)) nodes.
Proof.
  induction nodes as [|node nodes IH]; intros H; [reflexivity|].
  cbn [List.map well_formed_records flat_map].
  destruct (H node (or_introl eq_refl)) as [Hw Hc].
  rewrite record_of_record_line by assumption. cbn [app]. f_equal.
  apply IH. intros n Hn. apply H. now right.
Qed.

Lemma deserialize_sentinel dest :
  Mpi.deserialize_hashmap dest [NUL] 1 = dest.
Proof. reflexivity. Qed.

(** C3 (round trip), amended.  For every table of the distributed
    program that satisfies the invariant, whose words hold neither [':']
    nor a newline, whose counts fit an [int] and which passes the size check
    of [serialize_hashmap] ([items * 112 <= MAX_BUFFER_SIZE]):
    serialization succeeds; each line of the sent bytes is a well-formed
    record and the records are the entries of the table, in order;
    reconstruction into a new table yields a table with the same
    (spelling, count) pairs; and for the table without entries the bytes
    are the single NUL byte, reconstructed as a table without entries. *)
Theorem serialization_roundtrip :
  forall t : Mpi.HashMap,
    mpi_wf t -> mpi_wire_ok t ->
    Mpi.items t * 112 <= MAX_BUFFER_SIZE ->
    exists buffer length,
      Mpi.serialize_hashmap t = Some (buffer, length) /\
      well_formed_records (received_lines buffer length) = mpi_listing t /\
      (forall line, In line (received_lines buffer length) ->
                    record_of line <> None) /\
      mpi_wf (Mpi.deserialize_hashmap
                (Mpi.create_hashmap HASH_TABLE_SIZE) buffer length) /\
      Permutation
        (mpi_listing (Mpi.deserialize_hashmap
                        (Mpi.create_hashmap HASH_TABLE_SIZE)
                        buffer length))
        (mpi_listing t) /\
      (Mpi.entries t = [] ->
       buffer = [NUL] /\ length = 1 /\
       Mpi.entries (Mpi.deserialize_hashmap
                      (Mpi.create_hashmap HASH_TABLE_SIZE) buffer length)
       = []).
Proof.
  intros t W K Hb.
  pose proof (mpi_serialize_ok t W K Hb) as S.
  pose proof (mpi_node_ranges t W K) as R.
  assert (W0 : mpi_wf (Mpi.create_hashmap HASH_TABLE_SIZE))
    by (apply mpi_create_wf; reflexivity).
  destruct (Mpi.entries t) as [|node nodes] eqn:E.
  - exists [NUL], 1. split; [exact S|].
    rewrite deserialize_sentinel.
    unfold mpi_listing. rewrite E, mpi_create_entries.
    split; [reflexivity|]. split; [intros line []|].
    split; [exact W0|]. split; [constructor|].
    intros _. split; [reflexivity|]. split; reflexivity.
  - eexists _, _. split; [exact S|].
    rewrite (mpi_deserialize_serialized t _ _ _ W K S).
    rewrite <- E in *.
    assert (L : received_lines
                  (concat (List.map Mpi.record (Mpi.entries t)))
                  (Z.of_nat (length (concat (List.map Mpi.record
                                                      (Mpi.entries t)))))
                = List.map record_line (Mpi.entries t)).
    { apply received_lines_records; [rewrite E; discriminate|exact R]. }
    rewrite L. split; [|split; [|split; [|split]]].
    + apply well_formed_record_lines. intros n Hn.
      destruct (R n Hn) as (_ & Hc & Hcol & _). auto.
    + intros line Hl. apply in_map_iff in Hl.
      destruct Hl as (n & <- & Hn).
      destruct (R n Hn) as (_ & Hc & Hcol & _).
      rewrite record_of_record_line by assumption. discriminate.
    + now apply mpi_merge_wf.
    + apply mpi_merge_into_new; [reflexivity|exact W].
    + rewrite E. discriminate.
Qed.

Ltac not_in_tac :=
  let H := fresh in
  intros H; vm_compute in H;
  repeat destruct H as [H|H]; try discriminate H; try contradiction.

Lemma serialization_roundtrip_witness :
  let t := Mpi.insert_times
             (Mpi.insert_word (Mpi.create_hashmap HASH_TABLE_SIZE)
                              (str "zebra"))
             (str "apple") 5 in
  exists buffer length,
    Mpi.serialize_hashmap t = Some (buffer, length) /\
    Permutation
      (mpi_listing (Mpi.deserialize_hashmap
                      (Mpi.create_hashmap HASH_TABLE_SIZE) buffer length))
      (mpi_listing t).
Proof.
  intros t.
  destruct (serialization_roundtrip t) as (b & l & S & _ & _ & _ & P & _).
  - apply mpi_insert_times_wf; [|word_ok_tac].
    apply mpi_insert_word_wf; [|word_ok_tac].
    apply mpi_create_wf. reflexivity.
  - intros node Hn. vm_compute in Hn.
    repeat destruct Hn as [Hn|Hn]; try contradiction; subst node;
      (split; [not_in_tac|split; [not_in_tac|reflexivity]]).
  - vm_compute. discriminate.
  - exists b, l. split; assumption.
Defined.

(** C3 as stated fails for a table with a word that holds [':']: the
    table built from the file ["a:b"] with the delimiter set [" "] is sent
    as ["a:b:1\n"], whose only line is read as the word ["a"] with the count
    text ["b:1"] and discarded. *)
Lemma serialization_colon_counterexample :
  let t := Mpi.insert_word (Mpi.create_hashmap HASH_TABLE_SIZE)
                           (str "a:b") in
  Mpi.process_file (Readable (str "a:b") false) (str " ") = Some t /\
  mpi_wf t /\
  mpi_listing t = [(str "a:b", 1)] /\
  Mpi.serialize_hashmap t = Some (str "a:b:1" ++ [LF], 6) /\
  mpi_listing (Mpi.deserialize_hashmap
                 (Mpi.create_hashmap HASH_TABLE_SIZE)
                 (str "a:b:1" ++ [LF]) 6)
  = [].
Proof.
  intros t. split; [|split; [|split; [|split]]].
  - vm_compute. reflexivity.
  - apply mpi_insert_word_wf; [|word_ok_tac].
    apply mpi_create_wf. reflexivity.
  - vm_compute. reflexivity.
  - vm_compute. reflexivity.
  - vm_compute. reflexivity.
Qed.

(** ** Merging *)

Lemma mpi_insert_all ws : forall t,
  mpi_wf t -> (forall w, In w ws -> word_ok w) ->
  mpi_wf (fold_left Mpi.insert_word ws t) /\
  forall k,
    total (mpi_contents (fold_left Mpi.insert_word ws t)) k
    = total (mpi_contents t) k + total (word_units ws) k.
Proof.
  induction ws as [|w ws IH]; intros t W H.
  - split; [exact W|]. intros k. simpl. lia.
  - cbn [fold_left].
    assert (Hw : word_ok w) by (apply H; now left).
    destruct (IH (Mpi.insert_word t w)) as [W' T].
    + now apply mpi_insert_word_wf.
    + intros w' Hw'. apply H. now right.
    + split; [exact W'|]. intros k.
      rewrite T, mpi_insert_word_total by assumption.
      unfold word_units. cbn [List.map total].
      destruct (cstring_eqb (fold_case w) k); lia.
Qed.

Lemma mpi_contents_create size k :
  total (mpi_contents (Mpi.create_hashmap size)) k = 0.
Proof.
  unfold mpi_contents. now rewrite mpi_listing_create.
Qed.


Lemma mpi_contents_nonzero t k c :
  mpi_wf t -> In (k, c) (mpi_contents t) -> c <> 0.
Proof.
  intros W H. rewrite mpi_contents_eq in H. apply in_map_iff in H.
  destruct H as (n & E & Hn). injection E as _ <-.
  pose proof (mpi_wf_counts _ W n Hn). lia.
Qed.

(** Two tables that give every case-folded word the same count have the
    same contents. *)
Lemma mpi_contents_perm t1 t2 :
  mpi_wf t1 -> mpi_wf t2 ->
  (forall k, total (mpi_contents t1) k = total (mpi_contents t2) k) ->
  Permutation (mpi_contents t1) (mpi_contents t2).
Proof.
  intros W1 W2 T. apply total_ext_perm; auto.
  - rewrite mpi_contents_keys. apply (mpi_wf_nodup _ W1).
  - rewrite mpi_contents_keys. apply (mpi_wf_nodup _ W2).
  - intros k c. now apply mpi_contents_nonzero.
  - intros k c. now apply mpi_contents_nonzero.
Qed.


(** C1 (merge is associative and commutative), the shared-memory
    program at the words ["Apple"] and ["apple"] in two groups:
    [merge_hashmaps] compares spellings with [strcmp] and keeps two entries
    of count 1 for one case-folded word, where inserting both words into
    one table gives one entry of count 2. *)
Theorem omp_merge_splits_counts :
  omp_contents (omp_run_plan (Merge (Group [str "Apple"])
                                    (Group [str "apple"])))
  = [(str "apple", 1); (str "apple", 1)]
  /\
  omp_contents (omp_run_plan (Group [str "Apple"; str "apple"]))
  = [(str "apple", 2)]
  /\
  mpi_contents (mpi_run_plan (Merge (Group [str "Apple"])
                                    (Group [str "apple"])))
  = [(str "apple", 2)].
Proof. repeat split; vm_compute; reflexivity. Qed.

(** C4 (invariant preservation), the shared-memory program at the
    tables [{Apple: 1}] and [{apple: 1}]: both satisfy the invariant, and
    [merge_hashmaps] returns a table with two entries for one case-folded
    word ([items] still counts the entries).  The same tables arise from the
    files ["Apple"] and ["apple"] in [process_files_sync]. *)
Theorem omp_merge_breaks_invariant :
  let dest := Omp.insert_word (Omp.create_hashmap HASH_TABLE_SIZE)
                              (str "Apple") in
  let src := Omp.insert_word (Omp.create_hashmap HASH_TABLE_SIZE)
                             (str "apple") in
  omp_inv dest /\ omp_inv src /\
  omp_listing (Omp.merge_hashmaps dest src)
  = [(str "apple", 1); (str "Apple", 1)] /\
  ~ NoDup (List.map (fun p => fold_case (fst p))
                    (omp_listing (Omp.merge_hashmaps dest src))) /\
  Omp.items (Omp.merge_hashmaps dest src) = 2 /\
  omp_listing (Omp.process_files_sync
                 [Readable (str "Apple") false;
                  Readable (str "apple") false] (str " "))
  = [(str "apple", 1); (str "Apple", 1)].
Proof.
  intros dest src.
  assert (W0 : omp_inv (Omp.create_hashmap HASH_TABLE_SIZE))
    by (apply omp_create_inv; reflexivity).
  split; [apply omp_insert_word_inv; [exact W0|word_ok_tac]|].
  split; [apply omp_insert_word_inv; [exact W0|word_ok_tac]|].
  split; [vm_compute; reflexivity|].
  split; [|split; vm_compute; reflexivity].
  intros N. vm_compute in N. inversion N as [|x l Hin _]. apply Hin.
  now left.
Qed.

(** C8 (file errors), the shared-memory program at a file whose reads
    fail after the bytes ["cat do"]: [process_file_sync] returns the table
    built so far and the caller merges it, where [process_file] of the
    distributed program returns no table. *)
Theorem omp_read_error_keeps_partial_table :
  let f := Readable (str "cat do") true in
  let g := Readable (str "emu") false in
  option_map omp_listing (Omp.process_file_sync f (str " "))
  = Some [(str "do", 1); (str "cat", 1)]
  /\ Mpi.process_file f (str " ") = None
  /\ omp_listing (Omp.process_files_sync [f; g] (str " "))
     = [(str "do", 1); (str "cat", 1); (str "emu", 1)]
  /\ omp_listing (Omp.process_files_sync [g] (str " "))
     = [(str "emu", 1)].
Proof. repeat split; vm_compute; reflexivity. Qed.

(** ** Sorting *)

Section QsortFacts.
Context {A : Type} (compar : A -> A -> Z) (P : A -> Prop).

Hypothesis compar_total :
  forall a b, P a -> P b -> compar a b <= 0 \/ compar b a <= 0.
Hypothesis compar_trans :
  forall a b c, P a -> P b -> P c ->
                compar a b <= 0 -> compar b c <= 0 -> compar a c <= 0.

Lemma qsort_insert_perm x l : Permutation (qsort_insert compar x l) (x :: l).
Proof.
  induction l as [|y l IH]; simpl; [reflexivity|].
  destruct (compar x y <=? 0); [reflexivity|].
  rewrite IH. apply perm_swap.
Qed.

Lemma qsort_perm l : Permutation (qsort compar l) l.
Proof.
  induction l as [|x l IH]; simpl; [reflexivity|].
  rewrite qsort_insert_perm. now constructor.
Qed.

Lemma qsort_insert_sorted x l :
  P x -> Forall P l -> StronglySorted (compar_le compar) l ->
  StronglySorted (compar_le compar) (qsort_insert compar x l).
Proof.
  intros Px Pl S. induction S as [|y l S IH Hy]; simpl.
  - repeat constructor.
  - inversion Pl as [|? ? Py Pl']; subst.
    destruct (compar x y <=? 0) eqn:E.
    + apply Z.leb_le in E. constructor; [now constructor|].
      constructor; [exact E|].
      rewrite Forall_forall in *. intros z Hz.
      apply (compar_trans x y z); auto. now apply Hy.
    + apply Z.leb_gt in E. constructor; [now apply IH|].
      apply (Permutation_Forall (Permutation_sym (qsort_insert_perm x l))).
      constructor; [|exact Hy].
      destruct (compar_total x y Px Py); [lia|assumption].
Qed.

Lemma qsort_sorted l :
  Forall P l -> StronglySorted (compar_le compar) (qsort compar l).
Proof.
  induction l as [|x l IH]; intros H; simpl; [constructor|].
  inversion H; subst. apply qsort_insert_sorted; auto.
  now apply (Permutation_Forall (Permutation_sym (qsort_perm l))).
Qed.

Hypothesis compar_antisym :
  forall a b, P a -> P b -> compar a b <= 0 -> compar b a <= 0 -> a = b.

Lemma sorted_unique l1 : forall l2,
  Forall P l1 ->
  StronglySorted (compar_le compar) l1 -> StronglySorted (compar_le compar) l2 ->
  Permutation l1 l2 -> l1 = l2.
Proof.
  induction l1 as [|a l1 IH]; intros l2 HP S1 S2 Perm.
  - now apply Permutation_nil in Perm.
  - destruct l2 as [|b l2];
      [apply Permutation_sym, Permutation_nil in Perm; discriminate|].
    inversion S1 as [|? ? S1' H1]; inversion S2 as [|? ? S2' H2]; subst.
    inversion HP as [|? ? Pa HP']; subst.
    assert (HP2 : Forall P (b :: l2))
      by now apply (Permutation_Forall Perm).
    inversion HP2 as [|? ? Pb _]; subst.
    assert (a = b) as <-.
    { assert (In a (b :: l2)) as Ha
        by (apply (Permutation_in _ Perm); now left).
      assert (In b (a :: l1)) as Hb
        by (apply (Permutation_in _ (Permutation_sym Perm)); now left).
      destruct Ha as [Ha|Ha]; [now symmetry|].
      destruct Hb as [Hb|Hb]; [assumption|].
      rewrite Forall_forall in H1, H2.
      apply compar_antisym; auto; [now apply H1|now apply H2]. }
    f_equal. apply IH; auto. now apply Permutation_cons_inv in Perm.
Qed.

Lemma qsort_perm_eq l1 l2 :
  Forall P l1 -> Permutation l1 l2 -> qsort compar l1 = qsort compar l2.
Proof.
  intros HP Perm.
  assert (HP2 : Forall P l2) by now apply (Permutation_Forall Perm).
  apply sorted_unique.
  - now apply (Permutation_Forall (Permutation_sym (qsort_perm l1))).
  - now apply qsort_sorted.
  - now apply qsort_sorted.
  - rewrite !qsort_perm. exact Perm.
Qed.

End QsortFacts.

(** ** The orders of [strcmp] and [strncasecmp] *)

Lemma code_pos c : c <> NUL -> 0 < code c.
Proof.
  intros H. pose proof (code_range c).
  assert (code c <> 0) by (intros E; now apply code_nul in E). lia.
Qed.

Lemma strcmp_antisym a : forall b, strcmp a b = - strcmp b a.
Proof.
  induction a as [|x a IH]; intros [|y b]; simpl; try lia.
  rewrite (Z.eqb_sym (code y)). destruct (code x =? code y); [apply IH|lia].
Qed.

Lemma strcmp_lex a : forall b,
  ~ In NUL a -> (strcmp a b <= 0 <-> lex_le a b).
Proof.
  induction a as [|x a IH]; intros [|y b] Ha; simpl.
  - split; [constructor|lia].
  - pose proof (code_range y). split; [constructor|lia].
  - assert (0 < code x) by (apply code_pos; intros ->; apply Ha; now left).
    split; [lia|]. intros H'. inversion H'.
  - assert (Ha' : ~ In NUL a) by (intros Hin; apply Ha; now right).
    destruct (code x =? code y) eqn:E.
    + apply Z.eqb_eq, code_inj in E. subst y. rewrite (IH b Ha').
      split; intros H'; [now constructor|].
      inversion H'; subst; [lia|assumption].
    + apply Z.eqb_neq in E. split; intros H'.
      * apply lex_le_lt. lia.
      * inversion H'; subst; [lia|congruence].
Qed.

Lemma lex_le_total a : forall b, lex_le a b \/ lex_le b a.
Proof.
  induction a as [|x a IH]; intros [|y b];
    try (left; apply lex_le_nil); try (right; apply lex_le_nil).
  destruct (Z.lt_trichotomy (code x) (code y)) as [H|[H|H]].
  - left. now constructor.
  - apply code_inj in H. subst y.
    destruct (IH b); [left|right]; now constructor.
  - right. now constructor.
Qed.

Lemma lex_le_trans a b c : lex_le a b -> lex_le b c -> lex_le a c.
Proof.
  intros H. revert c. induction H as [b|x a y b Hxy|x a b H IH];
    intros c Hbc.
  - constructor.
  - inversion Hbc; subst; constructor; lia.
  - inversion Hbc; subst; [now constructor|].
    apply lex_le_eq. now apply IH.
Qed.

Lemma lex_le_antisym a b : lex_le a b -> lex_le b a -> a = b.
Proof.
  induction 1 as [b|x a y b Hxy|x a b H IH]; intros H'.
  - now inversion H'.
  - inversion H'; subst; lia.
  - inversion H'; subst; [lia|]. f_equal. now apply IH.
Qed.

Lemma strncasecmp_antisym a : forall b n,
  strncasecmp a b n = - strncasecmp b a n.
Proof.
  induction a as [|x a IH]; intros [|y b] [|n]; simpl; try lia.
  rewrite (Z.eqb_sym (code (tolower y))).
  destruct (code (tolower x) =? code (tolower y)); [apply IH|lia].
Qed.

Lemma strncasecmp_lex a : forall b n,
  (length a < n)%nat -> ~ In NUL a ->
  (strncasecmp a b n <= 0 <-> lex_le (fold_case a) (fold_case b)).
Proof.
  induction a as [|x a IH]; intros [|y b] [|n] Hn Ha; simpl in *;
    try lia.
  - split; [constructor|lia].
  - pose proof (code_range (tolower y)). split; [constructor|lia].
  - assert (0 < code (tolower x)).
    { apply code_pos. intros E. apply tolower_nul in E. subst x.
      apply Ha. now left. }
    split; [lia|]. intros H'. inversion H'.
  - assert (Ha' : ~ In NUL a) by (intros Hin; apply Ha; now right).
    destruct (code (tolower x) =? code (tolower y)) eqn:E.
    + apply Z.eqb_eq, code_inj in E. rewrite E.
      rewrite (IH b n) by (auto; lia).
      split; intros H'; [now constructor|].
      inversion H'; subst; [lia|assumption].
    + apply Z.eqb_neq in E. split; intros H'.
      * apply lex_le_lt. lia.
      * inversion H'; subst; [lia|congruence].
Qed.

(** ** Ranking *)

Lemma StronglySorted_map {A B} (R : A -> A -> Prop) (R' : B -> B -> Prop)
  (f : A -> B) (Q : A -> Prop) l :
  (forall a b, Q a -> Q b -> R a b -> R' (f a) (f b)) ->
  Forall Q l -> StronglySorted R l -> StronglySorted R' (List.map f l).
Proof.
  intros H HQ S. induction S as [|a l S IH Ha]; simpl; [constructor|].
  inversion HQ as [|? ? Qa HQ']; subst.
  constructor; [now apply IH|].
  rewrite Forall_forall in *. intros b Hb. apply in_map_iff in Hb.
  destruct Hb as (x & <- & Hx). apply H; auto.
Qed.

Lemma mpi_compare_rank a b :
  word_ok (Mpi.word a) ->
  (Mpi.compare_words a b <= 0 <-> rank_le (mpi_pair a) (mpi_pair b)).
Proof.
  intros [Hl Hn]. unfold Mpi.compare_words, rank_le, mpi_pair.
  cbn [fst snd].
  destruct (Mpi.count b =? Mpi.count a) eqn:E; cbn [negb].
  - apply Z.eqb_eq in E. rewrite (strncasecmp_lex _ _ _ Hl Hn).
    split; [intros H; right; split; [lia|exact H]|].
    intros [H|[_ H]]; [lia|exact H].
  - apply Z.eqb_neq in E. split; [intros H; left; lia|].
    intros [H|[H _]]; lia.
Qed.

Lemma rank_le_total p q : rank_le p q \/ rank_le q p.
Proof.
  unfold rank_le.
  destruct (Z.lt_trichotomy (snd p) (snd q)) as [H|[H|H]]; auto.
  destruct (lex_le_total (fold_case (fst p)) (fold_case (fst q))); auto.
Qed.

Lemma rank_le_trans p q r : rank_le p q -> rank_le q r -> rank_le p r.
Proof.
  unfold rank_le. intros [H1|[H1 L1]] [H2|[H2 L2]]; try (left; lia).
  right. split; [lia|]. now apply (lex_le_trans _ (fold_case (fst q))).
Qed.

Lemma rank_le_antisym p q :
  rank_le p q -> rank_le q p -> fold_key p = fold_key q.
Proof.
  unfold rank_le, fold_key. intros [H1|[H1 L1]] [H2|[H2 L2]]; try lia.
  f_equal; [|exact H1]. now apply lex_le_antisym.
Qed.

Lemma mpi_compare_total a b :
  word_ok (Mpi.word a) -> word_ok (Mpi.word b) ->
  Mpi.compare_words a b <= 0 \/ Mpi.compare_words b a <= 0.
Proof.
  intros Ha Hb. rewrite !mpi_compare_rank by assumption.
  apply rank_le_total.
Qed.

Lemma mpi_compare_trans a b c :
  word_ok (Mpi.word a) -> word_ok (Mpi.word b) -> word_ok (Mpi.word c) ->
  Mpi.compare_words a b <= 0 -> Mpi.compare_words b c <= 0 ->
  Mpi.compare_words a c <= 0.
Proof.
  intros Ha Hb Hc. rewrite !mpi_compare_rank by assumption.
  apply rank_le_trans.
Qed.

(** The array [words] of [print_results] holds the entries of the table. *)
Lemma mpi_print_results_words t :
  mpi_wf t ->
  List.map (fun n => Mpi.mkNode (firstn (MAX_WORD_LEN - 1) (Mpi.word n))
                                (Mpi.count n))
           (firstn (Z.to_nat (Mpi.items t)) (Mpi.entries t))
  = Mpi.entries t.
Proof.
  intros W. rewrite (mpi_wf_items _ W), Nat2Z.id, firstn_all.
  pose proof (mpi_wf_words _ W) as H. revert H.
  generalize (Mpi.entries t). intros l H.
  induction l as [|n l IH]; cbn [List.map]; [reflexivity|].
  rewrite IH by (intros x Hx; apply H; now right).
  rewrite word_ok_firstn by (apply H; now left). now destruct n.
Qed.

(** The ranker of the distributed program: the printed lines are the
    first [top_n] of a rearrangement of the table's entries that is sorted
    by count descending, ties broken by the ascending lexicographic order
    of the case-folded word. *)
Lemma mpi_print_results_ranked t top_n :
  mpi_wf t ->
  exists ranked,
    Permutation ranked (mpi_listing t) /\
    StronglySorted rank_le ranked /\
    Mpi.print_results t top_n = firstn (Z.to_nat top_n) ranked /\
    (length (Mpi.print_results t top_n) <= Z.to_nat top_n)%nat /\
    (top_n <= 0 -> Mpi.print_results t top_n = []).
Proof.
  intros W. unfold Mpi.print_results.
  rewrite (mpi_print_results_words t W).
  pose proof (mpi_wf_words _ W) as Hw.
  assert (HP : Forall (fun n => word_ok (Mpi.word n)) (Mpi.entries t))
    by now apply Forall_forall.
  exists (List.map mpi_pair (qsort Mpi.compare_words (Mpi.entries t))).
  split; [|split; [|split; [|split]]].
  - unfold mpi_listing. apply Permutation_map, qsort_perm.
  - apply (StronglySorted_map
             (compar_le Mpi.compare_words) rank_le mpi_pair
             (fun n => word_ok (Mpi.word n))).
    + intros a b Ha Hb H. now apply mpi_compare_rank.
    + now apply (Permutation_Forall
                   (Permutation_sym (qsort_perm Mpi.compare_words _))).
    + apply (qsort_sorted Mpi.compare_words
                          (fun n => word_ok (Mpi.word n))); auto.
      * apply mpi_compare_total.
      * apply mpi_compare_trans.
  - now rewrite firstn_map.
  - rewrite length_map. apply firstn_le_length.
  - intros Hn. replace (Z.to_nat top_n) with 0%nat by lia. reflexivity.
Qed.

Lemma omp_compare_rank a b :
  ~ In NUL (Omp.freq_word a) ->
  (Omp.compare_words a b <= 0
   <-> rank_le_verbatim (omp_freq_pair a) (omp_freq_pair b)).
Proof.
  intros Hn. unfold Omp.compare_words, rank_le_verbatim, omp_freq_pair.
  cbn [fst snd].
  destruct (Omp.freq_count b =? Omp.freq_count a) eqn:E; cbn [negb].
  - apply Z.eqb_eq in E. rewrite (strcmp_lex _ _ Hn).
    split; [intros H; right; split; [lia|exact H]|].
    intros [H|[_ H]]; [lia|exact H].
  - apply Z.eqb_neq in E. split; [intros H; left; lia|].
    intros [H|[H _]]; lia.
Qed.

Lemma omp_compare_total a b :
  ~ In NUL (Omp.freq_word a) -> ~ In NUL (Omp.freq_word b) ->
  Omp.compare_words a b <= 0 \/ Omp.compare_words b a <= 0.
Proof.
  intros Ha Hb. rewrite !omp_compare_rank by assumption.
  unfold rank_le_verbatim.
  destruct (Z.lt_trichotomy (snd (omp_freq_pair a))
                            (snd (omp_freq_pair b))) as [H|[H|H]]; auto.
  destruct (lex_le_total (fst (omp_freq_pair a)) (fst (omp_freq_pair b)));
    auto.
Qed.

Lemma omp_compare_trans a b c :
  ~ In NUL (Omp.freq_word a) -> ~ In NUL (Omp.freq_word b) ->
  ~ In NUL (Omp.freq_word c) ->
  Omp.compare_words a b <= 0 -> Omp.compare_words b c <= 0 ->
  Omp.compare_words a c <= 0.
Proof.
  intros Ha Hb Hc. rewrite !omp_compare_rank by assumption.
  unfold rank_le_verbatim.
  intros [H1|[H1 L1]] [H2|[H2 L2]]; try (left; lia).
  right. split; [lia|]. now apply (lex_le_trans _ (fst (omp_freq_pair b))).
Qed.

Lemma omp_compare_antisym a b :
  ~ In NUL (Omp.freq_word a) -> ~ In NUL (Omp.freq_word b) ->
  Omp.compare_words a b <= 0 -> Omp.compare_words b a <= 0 -> a = b.
Proof.
  intros Ha Hb. rewrite !omp_compare_rank by assumption.
  unfold rank_le_verbatim, omp_freq_pair. cbn [fst snd].
  destruct a as [wa ca], b as [wb cb]. cbn [Omp.freq_word Omp.freq_count].
  intros [H1|[H1 L1]] [H2|[H2 L2]]; try lia.
  f_equal; [now apply lex_le_antisym|exact H1].
Qed.

(** C7 (ranker), the shared-memory program at the table of the file
    ["apple Zebra"]: its [compare_words] breaks the tie of the two counts
    with [strcmp] on the spellings as stored, and ["Zebra"] is printed
    before ["apple"], against the order of the case-folded words, which
    the distributed program follows on the same file. *)
Theorem omp_rank_ties_by_verbatim_spelling :
  let f := Readable (str "apple Zebra") false in
  Omp.print_results (Omp.process_files_sync [f] (str " ")) 10
  = [(str "Zebra", 1); (str "apple", 1)]
  /\ ~ rank_le (str "Zebra", 1) (str "apple", 1)
  /\ Mpi.print_results (Mpi.local_map 0 1 [f]) 10
     = [(str "apple", 1); (str "Zebra", 1)].
Proof.
  intros f. split; [vm_compute; reflexivity|].
  split; [|vm_compute; reflexivity].
  unfold rank_le. cbn [fst snd]. intros [H|[_ H]]; [lia|].
  vm_compute in H. inversion H; subst.
  match goal with H' : code _ < code _ |- _ => vm_compute in H' end.
  discriminate.
Qed.

(** ** Merging in the shared-memory program *)

Lemma omp_inv_wfx t : omp_inv t -> omp_wfx t.
Proof.
  intros W. constructor.
  - apply (inv_size _ _ _ W).
  - apply (inv_length _ _ _ W).
  - apply (inv_items _ _ _ W).
  - apply (inv_place _ _ _ W).
  - intros node H. now apply (inv_words _ _ _ W).
  - apply (inv_counts _ _ _ W).
  - pose proof (inv_nodup _ _ _ W) as N.
    rewrite <- (map_map (fun n => Mpi.word n) fold_case) in N.
    now apply NoDup_map_inv in N.
Qed.

Lemma omp_chain_add_some chain : forall c chain',
  Omp.chain_add chain c = Some chain' ->
  exists l1 e l2,
    chain = l1 ++ e :: l2 /\
    chain' = l1 ++ Omp.mkNode (Omp.word e) (Omp.count e + Omp.count c)
                              (Omp.hash e) :: l2 /\
    strcmp (Omp.word e) (Omp.word c) = 0.
Proof.
  induction chain as [|node rest IH]; intros c chain' H; simpl in H;
    [discriminate|].
  destruct (strcmp (Omp.word node) (Omp.word c) =? 0) eqn:E.
  - injection H as <-. apply Z.eqb_eq in E.
    exists [], node, rest. auto.
  - destruct (Omp.chain_add rest c) as [rest'|] eqn:R; [|discriminate].
    injection H as <-.
    destruct (IH _ _ R) as (l1 & e & l2 & -> & -> & Z0).
    exists (node :: l1), e, l2. auto.
Qed.

Lemma omp_chain_add_none chain : forall c,
  Omp.chain_add chain c = None ->
  forall x, In x chain -> strcmp (Omp.word x) (Omp.word c) <> 0.
Proof.
  induction chain as [|node rest IH]; intros c H x Hx; simpl in *;
    [tauto|].
  destruct (strcmp (Omp.word node) (Omp.word c) =? 0) eqn:E;
    [discriminate|].
  destruct (Omp.chain_add rest c) eqn:R; [discriminate|].
  apply Z.eqb_neq in E. destruct Hx as [<-|Hx]; eauto.
Qed.

Lemma omp_view_entries t :
  Mpi.entries (omp_view t) = List.map omp_node_view (Omp.entries t).
Proof.
  unfold Mpi.entries, Omp.entries, omp_view. cbn [Mpi.buckets].
  now rewrite concat_map.
Qed.

Lemma omp_merge_node_cases d c :
  omp_wfx d -> nul_free (Omp.word c) ->
  exists pre chain post,
    Mpi.buckets (omp_view d) = pre ++ chain :: post /\
    length pre = Z.to_nat (hash (Omp.word c) (Omp.size d)) /\
    ((exists l1 e l2,
        chain = l1 ++ e :: l2 /\
        Mpi.word e = Omp.word c /\
        omp_view (Omp.merge_node d c) =
          Mpi.mkMap
            (pre ++ (l1 ++ Mpi.mkNode (Mpi.word e)
                                      (Mpi.count e + Omp.count c) :: l2)
                 :: post)
            (Omp.size d) (Omp.items d))
     \/
     ((forall n, In n (Mpi.entries (omp_view d)) ->
                 Mpi.word n <> Omp.word c) /\
      omp_view (Omp.merge_node d c) =
        Mpi.mkMap (pre ++ (Mpi.mkNode (Omp.word c) (Omp.count c) :: chain)
                       :: post)
                  (Omp.size d) (Omp.items d + 1))).
Proof.
  intros W Hc.
  pose proof (hash_range (Omp.word c) _ (inv_size _ _ _ W)) as Hr.
  cbn [omp_view Mpi.size] in Hr.
  set (h := Z.to_nat (hash (Omp.word c) (Omp.size d))).
  assert (Hh : (h < length (Omp.buckets d))%nat).
  { pose proof (inv_length _ _ _ W) as L.
    cbn [omp_view Mpi.buckets Mpi.size] in L. rewrite length_map in L.
    rewrite L. unfold h. lia. }
  destruct (store_split [] _ _ Hh) as (pre & post & E & L & S).
  exists (List.map (List.map omp_node_view) pre),
         (List.map omp_node_view (nth h (Omp.buckets d) [])),
         (List.map (List.map omp_node_view) post).
  split; [cbn [omp_view Mpi.buckets]; rewrite E at 1;
          now rewrite map_app|].
  split; [now rewrite length_map|].
  unfold Omp.merge_node. fold h.
  destruct (Omp.chain_add (nth h (Omp.buckets d) []) c) as [chain'|] eqn:C.
  - left. apply omp_chain_add_some in C.
    destruct C as (l1 & e & l2 & Ec & -> & Z0).
    exists (List.map omp_node_view l1), (omp_node_view e),
           (List.map omp_node_view l2).
    split; [rewrite Ec; now rewrite map_app|].
    assert (He : In (omp_node_view e) (Mpi.entries (omp_view d))).
    { rewrite omp_view_entries. apply in_map.
      apply (in_nth_concat _ _ h). rewrite Ec. apply in_elt. }
    split.
    + apply strcmp_zero; auto. apply (inv_words _ _ _ W _ He).
    + unfold omp_view. cbn [Omp.buckets Omp.size Omp.items].
      rewrite S, !map_app. cbn [List.map]. rewrite !map_app.
      reflexivity.
  - right. split.
    + intros n Hn Hw. rewrite omp_view_entries in Hn.
      apply in_map_iff in Hn. destruct Hn as (x & <- & Hx).
      cbn [omp_node_view Mpi.word] in Hw.
      destruct (in_concat_nth _ _ Hx) as (i & Hi).
      assert (In (omp_node_view x) (nth i (Mpi.buckets (omp_view d)) []))
        as Hi'.
      { cbn [omp_view Mpi.buckets].
        change (@nil Mpi.WordNode) with (List.map omp_node_view []).
        rewrite map_nth. now apply in_map. }
      pose proof (inv_place _ _ _ W _ _ Hi') as P.
      cbn [omp_node_view Mpi.word omp_view Mpi.size] in P.
      rewrite Hw in P. fold h in P. subst i.
      apply (omp_chain_add_none _ _ C x Hi). rewrite Hw.
      apply strcmp_refl.
    + unfold omp_view. cbn [Omp.buckets Omp.size Omp.items].
      rewrite S, !map_app. reflexivity.
Qed.

Lemma omp_merge_node_wfx d c :
  omp_wfx d -> nul_free (Omp.word c) -> 0 < Omp.count c ->
  omp_wfx (Omp.merge_node d c).
Proof.
  intros W Hw Hc. unfold omp_wfx.
  destruct (omp_merge_node_cases d c W Hw)
    as (pre & chain & post & B & L &
        [(l1 & e & l2 & -> & F & ->) | (Fresh & ->)]);
    unfold omp_wfx in W; rewrite (table_same _ _ B) in W.
  - apply table_inv_bump; [exact W|].
    assert (0 < Mpi.count e); [|lia].
    apply (inv_counts _ _ _ W). unfold Mpi.entries. cbn [Mpi.buckets].
    rewrite concat_mid. apply in_elt.
  - apply table_inv_push; auto.
    intros n Hn. apply Fresh. unfold Mpi.entries. now rewrite B.
Qed.

Lemma omp_merge_node_total d c k :
  omp_wfx d -> nul_free (Omp.word c) ->
  total (omp_listing (Omp.merge_node d c)) k
  = total (omp_listing d) k
    + (if cstring_eqb (Omp.word c) k then Omp.count c else 0).
Proof.
  intros W Hw. rewrite !omp_listing_view. unfold mpi_listing, Mpi.entries.
  destruct (omp_merge_node_cases d c W Hw)
    as (pre & chain & post & B & L &
        [(l1 & e & l2 & -> & F & ->) | (Fresh & ->)]);
    rewrite B; cbn [Mpi.buckets];
    rewrite ?concat_mid, ?concat_head, ?concat_bucket, !map_app;
    cbn [List.map]; rewrite !total_app; cbn [total Mpi.word Mpi.count];
    rewrite ?map_app, ?total_app, ?F;
    destruct (cstring_eqb (Omp.word c) k); lia.
Qed.

Lemma omp_merge_nodes nodes : forall dest,
  omp_wfx dest ->
  (forall n, In n nodes -> nul_free (Omp.word n) /\ 0 < Omp.count n) ->
  omp_wfx (fold_left Omp.merge_node nodes dest) /\
  forall k,
    total (omp_listing (fold_left Omp.merge_node nodes dest)) k
    = total (omp_listing dest) k
      + total (List.map (fun n => (Omp.word n, Omp.count n)) nodes) k.
Proof.
  induction nodes as [|node nodes IH]; intros dest W H.
  - split; [exact W|]. intros k. simpl. lia.
  - cbn [fold_left]. destruct (H node (or_introl eq_refl)) as [Hw Hc].
    destruct (IH (Omp.merge_node dest node)) as [W' T].
    + now apply omp_merge_node_wfx.
    + intros n Hn. apply H. now right.
    + split; [exact W'|]. intros k.
      rewrite T, omp_merge_node_total by assumption.
      cbn [List.map total].
      destruct (cstring_eqb (Omp.word node) k); lia.
Qed.

Lemma omp_wfx_nodes t :
  omp_wfx t ->
  forall n, In n (Omp.entries t) -> nul_free (Omp.word n) /\ 0 < Omp.count n.
Proof.
  intros W n Hn.
  assert (In (omp_node_view n) (Mpi.entries (omp_view t))) as H
    by (rewrite omp_view_entries; now apply in_map).
  split; [apply (inv_words _ _ _ W _ H)|apply (inv_counts _ _ _ W _ H)].
Qed.

Lemma omp_merge_wfx dest src :
  omp_wfx dest -> omp_wfx src -> omp_wfx (Omp.merge_hashmaps dest src).
Proof.
  intros Wd Ws. apply omp_merge_nodes; [exact Wd|].
  now apply omp_wfx_nodes.
Qed.

Lemma omp_merge_total dest src k :
  omp_wfx dest -> omp_wfx src ->
  total (omp_listing (Omp.merge_hashmaps dest src)) k
  = total (omp_listing dest) k + total (omp_listing src) k.
Proof.
  intros Wd Ws. apply omp_merge_nodes; [exact Wd|].
  now apply omp_wfx_nodes.
Qed.

(** ** Tokens are admissible words *)

Lemma cstr_length buf : (length (cstr buf) <= length buf)%nat.
Proof.
  induction buf as [|c buf IH]; simpl; [lia|].
  destruct (Ascii.eqb c NUL); simpl; lia.
Qed.

Lemma cstr_bytes buf x : In x (cstr buf) -> In x buf.
Proof.
  induction buf as [|c buf IH]; simpl; [tauto|].
  destruct (Ascii.eqb c NUL); simpl; [tauto|]. intros [H|H]; auto.
Qed.

Lemma token_ok_cstr delims w :
  (forall x, In x w -> is_separator delims x = false) ->
  (length w <= max_word_length)%nat ->
  token_ok delims (cstr w).
Proof.
  intros Hs Hl. split; [split|].
  - pose proof (cstr_length w). unfold max_word_length in Hl.
    unfold MAX_WORD_LEN in *. lia.
  - apply cstr_no_nul.
  - intros x Hx. apply Hs. now apply cstr_bytes.
Qed.

Lemma scan_bytes_ok delims stream : forall st,
  scan_ok delims st -> scan_ok delims (scan_bytes snoc delims st stream).
Proof.
  induction stream as [|c stream IH]; intros [acc w] H; [exact H|].
  unfold scan_bytes in *. cbn [fold_left]. apply IH.
  destruct H as (Ha & Hs & Hl). cbn [fst snd] in *.
  rewrite scan_byte_cases.
  destruct (is_separator delims c) eqn:E.
  - destruct w as [|x w]; unfold scan_ok; cbn [fst snd].
    + split; [exact Ha|]. split; [intros ? []|simpl; lia].
    + split; [|split; [intros ? []|simpl; lia]].
      intros tok Hin. unfold snoc in Hin. apply in_app_or in Hin.
      destruct Hin as [Hin|[<-|[]]]; [now apply Ha|].
      now apply token_ok_cstr.
  - destruct (length w <? max_word_length)%nat eqn:L;
      unfold scan_ok; cbn [fst snd].
    + apply Nat.ltb_lt in L. split; [exact Ha|]. split.
      * intros x Hx. apply in_app_or in Hx.
        destruct Hx as [Hx|[<-|[]]]; auto.
      * rewrite length_app. simpl. lia.
    + split; [exact Ha|]. split; [exact Hs|exact Hl].
Qed.

Lemma emitted_tokens_ok delims stream tok :
  In tok (emitted_tokens delims stream) -> token_ok delims tok.
Proof.
  unfold emitted_tokens. fold snoc.
  pose proof (scan_bytes_ok delims stream ([], [])) as H.
  destruct H as (Ha & Hs & Hl).
  { unfold scan_ok. cbn [fst snd].
    split; [intros ? []|]. split; [intros ? []|simpl; lia]. }
  destruct (scan_bytes snoc delims ([], []) stream) as [acc w].
  cbn [fst snd] in *. unfold scan_end. cbn [fst snd].
  destruct w as [|x w]; [apply Ha|].
  intros Hin. unfold snoc in Hin. apply in_app_or in Hin.
  destruct Hin as [Hin|[<-|[]]]; [now apply Ha|].
  now apply token_ok_cstr.
Qed.

(** ** Aggregation in the shared-memory program *)

Lemma omp_insert_all_inv ws : forall t,
  omp_inv t -> (forall w, In w ws -> word_ok w) ->
  omp_inv (fold_left Omp.insert_word ws t).
Proof.
  induction ws as [|w ws IH]; intros t W H; [exact W|].
  cbn [fold_left]. apply IH.
  - apply omp_insert_word_inv; [exact W|]. apply H. now left.
  - intros w' Hw'. apply H. now right.
Qed.

Lemma omp_process_file_sync_inv f delims t :
  Omp.process_file_sync f delims = Some t -> omp_inv t.
Proof.
  destruct f as [|content e]; [discriminate|].
  rewrite omp_process_file_sync_tokens. intros H. injection H as <-.
  apply omp_insert_all_inv; [apply omp_create_inv; reflexivity|].
  intros w Hw. now apply (emitted_tokens_ok delims content).
Qed.

Lemma omp_add_files delims fs : forall acc,
  omp_wfx acc ->
  omp_wfx (fold_left (omp_add_file delims) fs acc) /\
  forall k,
    total (omp_listing (fold_left (omp_add_file delims) fs acc)) k
    = total (omp_listing acc) k
      + total (flat_map (omp_file_listing delims) fs) k.
Proof.
  induction fs as [|f fs IH]; intros acc W.
  - split; [exact W|]. intros k. simpl. lia.
  - cbn [fold_left flat_map]. unfold omp_add_file at 2 4.
    unfold omp_file_listing at 1.
    destruct (Omp.process_file_sync f delims) as [t|] eqn:E.
    + apply omp_process_file_sync_inv, omp_inv_wfx in E.
      destruct (IH (Omp.merge_hashmaps acc t)) as [W' T];
        [now apply omp_merge_wfx|].
      split; [exact W'|]. intros k.
      rewrite T, omp_merge_total, total_app by assumption. lia.
    + destruct (IH acc W) as [W' T]. split; [exact W'|].
      intros k. rewrite T. reflexivity.
Qed.

Lemma omp_create_wfx size : 0 < size -> omp_wfx (Omp.create_hashmap size).
Proof. intros H. now apply omp_inv_wfx, omp_create_inv. Qed.

Lemma omp_listing_create size :
  omp_listing (Omp.create_hashmap size) = [].
Proof.
  rewrite omp_listing_view, omp_create_view. apply mpi_listing_create.
Qed.

Lemma omp_process_files_sync_total files delims :
  omp_wfx (Omp.process_files_sync files delims) /\
  forall k,
    total (omp_listing (Omp.process_files_sync files delims)) k
    = total (flat_map (omp_file_listing delims) files) k.
Proof.
  destruct (omp_add_files delims files (Omp.create_hashmap HASH_TABLE_SIZE))
    as [W T]; [apply omp_create_wfx; reflexivity|].
  split; [exact W|]. intros k.
  unfold Omp.process_files_sync. fold (omp_add_file delims).
  rewrite T, omp_listing_create. reflexivity.
Qed.

Lemma fold_left_map {A B C} (f : A -> B -> A) (g : C -> B) l : forall a,
  fold_left f (List.map g l) a = fold_left (fun x c => f x (g c)) l a.
Proof. induction l as [|c l IH]; intros a; simpl; auto. Qed.

Lemma omp_thread_local_map_total files delims iterations :
  omp_wfx (Omp.thread_local_map files delims iterations) /\
  forall k,
    total (omp_listing (Omp.thread_local_map files delims iterations)) k
    = total (flat_map (omp_file_listing delims)
               (List.map (fun i => nth i files Unreadable) iterations)) k.
Proof.
  destruct (omp_add_files delims
              (List.map (fun i => nth i files Unreadable) iterations)
              (Omp.create_hashmap HASH_TABLE_SIZE))
    as [W T]; [apply omp_create_wfx; reflexivity|].
  rewrite fold_left_map in W, T.
  split; [exact W|]. intros k.
  unfold Omp.thread_local_map. rewrite T, omp_listing_create. reflexivity.
Qed.

Lemma omp_process_files_parallel_total files delims schedule :
  omp_wfx (Omp.process_files_parallel files delims schedule) /\
  forall k,
    total (omp_listing (Omp.process_files_parallel files delims schedule)) k
    = total (flat_map (omp_file_listing delims)
               (List.map (fun i => nth i files Unreadable)
                         (concat schedule))) k.
Proof.
  unfold Omp.process_files_parallel.
  assert (G : forall acc,
            omp_wfx acc ->
            let r := fold_left
                       (fun global_map iterations =>
                          Omp.merge_hashmaps global_map
                            (Omp.thread_local_map files delims iterations))
                       schedule acc in
            omp_wfx r /\
            forall k,
              total (omp_listing r) k
              = total (omp_listing acc) k
                + total (flat_map (omp_file_listing delims)
                           (List.map (fun i => nth i files Unreadable)
                                     (concat schedule))) k).
  { induction schedule as [|its schedule IH]; intros acc W.
    - split; [exact W|]. intros k. simpl. lia.
    - cbn [fold_left concat].
      destruct (omp_thread_local_map_total files delims its) as [Wl Tl].
      destruct (IH (Omp.merge_hashmaps acc
                      (Omp.thread_local_map files delims its)))
        as [W' T]; [now apply omp_merge_wfx|].
      split; [exact W'|]. intros k.
      rewrite T, omp_merge_total, Tl by assumption.
      rewrite map_app, flat_map_app, total_app. lia. }
  destruct (G (Omp.create_hashmap HASH_TABLE_SIZE)) as [W T];
    [apply omp_create_wfx; reflexivity|].
  split; [exact W|]. intros k. rewrite T, omp_listing_create. reflexivity.
Qed.

Lemma map_nth_seq {A} (d : A) l :
  List.map (fun i => nth i l d) (seq 0 (length l)) = l.
Proof.
  induction l as [|x l IH]; [reflexivity|].
  cbn [length seq List.map nth]. f_equal.
  rewrite <- seq_shift, map_map. exact IH.
Qed.

Lemma omp_listing_perm t1 t2 :
  omp_wfx t1 -> omp_wfx t2 ->
  (forall k, total (omp_listing t1) k = total (omp_listing t2) k) ->
  Permutation (omp_listing t1) (omp_listing t2).
Proof.
  intros W1 W2 T.
  assert (K : forall t, omp_wfx t ->
                NoDup (List.map fst (omp_listing t)) /\
                forall k c, In (k, c) (omp_listing t) -> c <> 0).
  { intros t W. rewrite omp_listing_view. unfold mpi_listing. split.
    - rewrite map_map. apply (inv_nodup _ _ _ W).
    - intros k c H. apply in_map_iff in H. destruct H as (n & E & Hn).
      injection E as _ <-. pose proof (inv_counts _ _ _ W n Hn). lia. }
  destruct (K t1 W1), (K t2 W2). now apply total_ext_perm.
Qed.

Lemma omp_print_results_perm t1 t2 top_n :
  omp_wfx t1 -> omp_wfx t2 ->
  Permutation (omp_listing t1) (omp_listing t2) ->
  Omp.print_results t1 top_n = Omp.print_results t2 top_n.
Proof.
  intros W1 W2 P. unfold Omp.print_results.
  assert (I : forall t, omp_wfx t ->
                firstn (Z.to_nat (Omp.items t)) (Omp.entries t)
                = Omp.entries t).
  { intros t W. pose proof (inv_items _ _ _ W) as It.
    rewrite omp_view_entries, length_map in It.
    cbn [omp_view Mpi.items] in It.
    now rewrite It, Nat2Z.id, firstn_all. }
  rewrite (I t1 W1), (I t2 W2). do 2 f_equal.
  apply (qsort_perm_eq Omp.compare_words
                       (fun w => nul_free (Omp.freq_word w))).
  - apply omp_compare_total.
  - apply omp_compare_trans.
  - apply omp_compare_antisym.
  - apply Forall_forall. intros w Hw. apply in_map_iff in Hw.
    destruct Hw as (n & <- & Hn). now apply (omp_wfx_nodes t1 W1).
  - apply (Permutation_map (fun p => Omp.mkFreq (fst p) (snd p))) in P.
    unfold omp_listing in P. rewrite !map_map in P. exact P.
Qed.

(** In the shared-memory program the printed ranking does not depend on
    the number of threads, nor on how the files were scheduled. *)
Lemma omp_partition_invariance files delims schedule num_threads top_n :
  Omp.schedule_of (length files) num_threads schedule ->
  Omp.print_results (Omp.process_files_parallel files delims schedule) top_n
  = Omp.print_results (Omp.process_files_sync files delims) top_n.
Proof.
  intros [_ P].
  destruct (omp_process_files_parallel_total files delims schedule)
    as [Wp Tp].
  destruct (omp_process_files_sync_total files delims) as [Ws Ts].
  apply omp_print_results_perm; auto.
  apply omp_listing_perm; auto. intros k. rewrite Tp, Ts.
  apply total_perm, Permutation_flat_map.
  apply Permutation_trans
    with (List.map (fun i => nth i files Unreadable)
                   (seq 0 (length files))).
  - now apply Permutation_map.
  - now rewrite map_nth_seq.
Qed.

(** ** Aggregation in the distributed program *)

Lemma mass_app l1 l2 : mass (l1 ++ l2) = mass l1 + mass l2.
Proof. induction l1 as [|p l1 IH]; simpl; lia. Qed.

Lemma mpi_listing_in t w c :
  In (w, c) (mpi_listing t) ->
  exists n, In n (Mpi.entries t) /\ Mpi.word n = w /\ Mpi.count n = c.
Proof.
  unfold mpi_listing. intros H. apply in_map_iff in H.
  destruct H as (n & E & Hn). injection E as <- <-. eauto.
Qed.

Lemma mpi_in_listing t n :
  In n (Mpi.entries t) -> In (Mpi.word n, Mpi.count n) (mpi_listing t).
Proof.
  intros H. unfold mpi_listing.
  now apply (in_map (fun n => (Mpi.word n, Mpi.count n))).
Qed.

Lemma mpi_ext_insert Q m t w :
  mpi_ext Q m t -> word_ok w -> Q w ->
  mpi_ext Q (m + 1) (Mpi.insert_word t w).
Proof.
  intros (W & HQ & M) Hw Qw.
  split; [now apply mpi_insert_word_wf|].
  destruct (mpi_insert_word_listing t w W Hw)
    as [(L1 & w0 & c0 & L2 & E & F & E' & _)
       |(_ & L1 & L2 & E & E' & _)].
  - split.
    + intros n Hn. apply mpi_in_listing in Hn. rewrite E' in Hn.
      assert (In (Mpi.word n) (List.map fst (mpi_listing t))) as H.
      { rewrite E. apply (in_map fst) in Hn.
        rewrite map_app in *. exact Hn. }
      apply in_map_iff in H. destruct H as ([w1 c1] & <- & H1).
      apply mpi_listing_in in H1. destruct H1 as (n1 & H1 & <- & _).
      now apply HQ.
    + rewrite E', <- M, E, !mass_app. unfold mass.
      cbn [fold_right snd]. lia.
  - split.
    + intros n Hn. apply mpi_in_listing in Hn. rewrite E' in Hn.
      apply in_app_or in Hn. destruct Hn as [Hn|[Hn|Hn]].
      * assert (In (Mpi.word n, Mpi.count n) (mpi_listing t)) as H1
          by (rewrite E; apply in_or_app; auto).
        apply mpi_listing_in in H1. destruct H1 as (n1 & H1 & <- & _).
        now apply HQ.
      * injection Hn as <- _. exact Qw.
      * assert (In (Mpi.word n, Mpi.count n) (mpi_listing t)) as H1
          by (rewrite E; apply in_or_app; auto).
        apply mpi_listing_in in H1. destruct H1 as (n1 & H1 & <- & _).
        now apply HQ.
    + rewrite E', <- M, E, !mass_app. unfold mass.
      cbn [fold_right snd]. lia.
Qed.

Lemma mpi_ext_insert_times Q m t w c :
  mpi_ext Q m t -> word_ok w -> Q w -> 0 <= c ->
  mpi_ext Q (m + c) (Mpi.insert_times t w c).
Proof.
  intros H Hw Qw Hc. unfold Mpi.insert_times.
  rewrite <- (Z2Nat.id c Hc) at 1.
  induction (Z.to_nat c) as [|k IH].
  - simpl. now rewrite Z.add_0_r.
  - rewrite Nat.iter_succ.
    replace (m + Z.of_nat (S k)) with (m + Z.of_nat k + 1) by lia.
    now apply mpi_ext_insert.
Qed.

Lemma mpi_ext_merge_nodes Q nodes : forall m dest,
  mpi_ext Q m dest ->
  (forall n, In n nodes ->
             word_ok (Mpi.word n) /\ Q (Mpi.word n) /\ 0 < Mpi.count n) ->
  mpi_ext Q (m + mass (List.map (fun n => (Mpi.word n, Mpi.count n)) nodes))
    (fold_left (fun d node =>
                  Mpi.insert_times d (Mpi.word node) (Mpi.count node))
               nodes dest).
Proof.
  induction nodes as [|node nodes IH]; intros m dest H Hn.
  - simpl. now rewrite Z.add_0_r.
  - cbn [fold_left List.map mass fold_right snd].
    destruct (Hn node (or_introl eq_refl)) as (Hw & Qw & Hc).
    replace (m + (Mpi.count node + _))
      with (m + Mpi.count node
            + mass (List.map (fun n => (Mpi.word n, Mpi.count n)) nodes))
      by (unfold mass; lia).
    apply IH.
    + apply mpi_ext_insert_times; auto. lia.
    + intros n Hin. apply Hn. now right.
Qed.

Lemma mpi_ext_merge Q m1 m2 dest src :
  mpi_ext Q m1 dest -> mpi_ext Q m2 src ->
  mpi_ext Q (m1 + m2) (Mpi.merge_hashmaps dest src).
Proof.
  intros Hd (Ws & Qs & Ms). rewrite <- Ms.
  apply mpi_ext_merge_nodes; [exact Hd|].
  intros n Hn. split; [now apply (mpi_wf_words _ Ws)|].
  split; [now apply Qs|now apply (mpi_wf_counts _ Ws)].
Qed.

Lemma mpi_ext_insert_all Q ws : forall m t,
  mpi_ext Q m t -> (forall w, In w ws -> word_ok w /\ Q w) ->
  mpi_ext Q (m + Z.of_nat (length ws)) (fold_left Mpi.insert_word ws t).
Proof.
  induction ws as [|w ws IH]; intros m t H Hw.
  - simpl. now rewrite Z.add_0_r.
  - cbn [fold_left length].
    replace (m + Z.of_nat (S (length ws)))
      with (m + 1 + Z.of_nat (length ws)) by lia.
    apply IH.
    + destruct (Hw w (or_introl eq_refl)). now apply mpi_ext_insert.
    + intros w' Hw'. apply Hw. now right.
Qed.

Lemma mpi_ext_create Q size :
  0 < size -> mpi_ext Q 0 (Mpi.create_hashmap size).
Proof.
  intros H. split; [now apply mpi_create_wf|]. split.
  - rewrite mpi_create_entries. intros n [].
  - now rewrite mpi_listing_create.
Qed.

(** A table holds no more entries than the sum of its counts, and no
    count above that sum. *)
Lemma mpi_mass_bounds t :
  mpi_wf t ->
  Z.of_nat (length (Mpi.entries t)) <= mass (mpi_listing t) /\
  forall n, In n (Mpi.entries t) -> Mpi.count n <= mass (mpi_listing t).
Proof.
  intros W. pose proof (mpi_wf_counts _ W) as C. unfold mpi_listing.
  revert C. generalize (Mpi.entries t). intros l C.
  induction l as [|x l IH]; [split; [simpl; lia|intros n []]|].
  destruct IH as [IH1 IH2]; [intros n Hn; apply C; now right|].
  pose proof (C x (or_introl eq_refl)).
  cbn [List.map mass fold_right snd length]. fold (mass (List.map
    (fun n => (Mpi.word n, Mpi.count n)) l)).
  split; [lia|]. intros n [<-|Hn]; [lia|].
  pose proof (IH2 n Hn). lia.
Qed.

Lemma mpi_process_file_cases f delims :
  Mpi.process_file f delims
  = match f with
    | Readable content false =>
        Some (fold_left Mpi.insert_word (mpi_file_tokens delims f)
                        (Mpi.create_hashmap HASH_TABLE_SIZE))
    | _ => None
    end.
Proof.
  destruct f as [|content [|]]; [reflexivity| |];
    now rewrite mpi_process_file_tokens.
Qed.

Lemma mpi_file_tokens_ok delims f w :
  In w (mpi_file_tokens delims f) -> word_ok w /\ no_separator delims w.
Proof.
  destruct f as [|content [|]]; try (intros []).
  apply emitted_tokens_ok.
Qed.

Lemma mpi_add_file_cases delims local f :
  (mpi_file_tokens delims f = [] /\ mpi_add_file delims local f = local)
  \/
  mpi_add_file delims local f
  = Mpi.merge_hashmaps local
      (fold_left Mpi.insert_word (mpi_file_tokens delims f)
                 (Mpi.create_hashmap HASH_TABLE_SIZE)).
Proof.
  unfold mpi_add_file. rewrite mpi_process_file_cases.
  destruct f as [|content [|]]; [left|left|right]; try split; reflexivity.
Qed.

Lemma mpi_file_table delims f :
  let t := fold_left Mpi.insert_word (mpi_file_tokens delims f)
                     (Mpi.create_hashmap HASH_TABLE_SIZE) in
  mpi_ext (no_separator delims)
          (Z.of_nat (length (mpi_file_tokens delims f))) t /\
  forall k,
    total (mpi_contents t) k
    = total (word_units (mpi_file_tokens delims f)) k.
Proof.
  intros t. split.
  - change (Z.of_nat (length (mpi_file_tokens delims f)))
      with (0 + Z.of_nat (length (mpi_file_tokens delims f))).
    apply mpi_ext_insert_all; [apply mpi_ext_create; reflexivity|].
    apply mpi_file_tokens_ok.
  - intros k.
    destruct (mpi_insert_all (mpi_file_tokens delims f)
                (Mpi.create_hashmap HASH_TABLE_SIZE)) as [_ T].
    + apply mpi_create_wf. reflexivity.
    + intros w Hw. now apply (mpi_file_tokens_ok delims f).
    + unfold t. now rewrite T, mpi_contents_create.
Qed.

Lemma word_units_app a b : word_units (a ++ b) = word_units a ++ word_units b.
Proof. apply map_app. Qed.

Lemma mpi_add_files delims fs : forall m local,
  mpi_ext (no_separator delims) m local ->
  mpi_ext (no_separator delims)
          (m + Z.of_nat (length (flat_map (mpi_file_tokens delims) fs)))
          (fold_left (mpi_add_file delims) fs local) /\
  forall k,
    total (mpi_contents (fold_left (mpi_add_file delims) fs local)) k
    = total (mpi_contents local) k
      + total (word_units (flat_map (mpi_file_tokens delims) fs)) k.
Proof.
  induction fs as [|f fs IH]; intros m local H.
  - cbn [fold_left flat_map length word_units List.map total].
    rewrite Z.add_0_r. split; [exact H|]. intros k.
    now rewrite Z.add_0_r.
  - cbn [fold_left flat_map].
    rewrite length_app, Nat2Z.inj_add, Z.add_assoc, word_units_app.
    destruct (mpi_add_file_cases delims local f) as [[E1 E2]|E].
    + rewrite E2, E1. cbn [length app word_units List.map].
      rewrite Z.add_0_r. now apply IH.
    + rewrite E. destruct (mpi_file_table delims f) as [Ht Tt].
      destruct (IH _ _ (mpi_ext_merge _ _ _ _ _ H Ht)) as [E' T].
      split; [exact E'|]. intros k.
      rewrite T, mpi_merge_total, Tt, total_app; [lia|apply H|apply Ht].
Qed.

(** ** The round-robin assignment is a partition *)

Lemma filter_none {A} (q : A -> bool) l :
  (forall x, In x l -> q x = false) -> filter q l = [].
Proof.
  induction l as [|x l IH]; intros H; simpl; [reflexivity|].
  rewrite (H x) by now left. apply IH. intros y Hy. apply H. now right.
Qed.

Lemma filter_seq_singleton (q : nat -> bool) n a :
  (a < n)%nat -> q a = true ->
  (forall r, (r < n)%nat -> r <> a -> q r = false) ->
  filter q (seq 0 n) = [a].
Proof.
  intros Ha Hq Hn.
  replace n with (a + S (n - S a))%nat by lia.
  rewrite seq_app. cbn [seq Nat.add]. rewrite filter_app.
  cbn [filter]. rewrite Hq.
  rewrite !filter_none; [reflexivity| |].
  - intros x Hx. apply in_seq in Hx. apply Hn; lia.
  - intros x Hx. apply in_seq in Hx. apply Hn; lia.
Qed.

Lemma concat_filter_cons {A R} (p : R -> A -> bool) x l rs :
  Permutation
    (concat (List.map (fun r => filter (p r) (x :: l)) rs))
    (List.map (fun _ => x) (filter (fun r => p r x) rs)
     ++ concat (List.map (fun r => filter (p r) l) rs)).
Proof.
  induction rs as [|r rs IH]; [reflexivity|].
  cbn [List.map concat filter]. destruct (p r x).
  - cbn [List.map app]. constructor. rewrite IH.
    rewrite !app_assoc. apply Permutation_app_tail.
    apply Permutation_app_comm.
  - rewrite IH. rewrite !app_assoc. apply Permutation_app_tail.
    apply Permutation_app_comm.
Qed.

Lemma concat_filter_classes {A} (cls : A -> nat) size l :
  (forall x, In x l -> (cls x < size)%nat) ->
  Permutation
    (concat (List.map (fun r => filter (fun x => (cls x =? r)%nat) l)
                      (seq 0 size)))
    l.
Proof.
  induction l as [|x l IH]; intros H.
  - induction (seq 0 size); simpl; auto.
  - rewrite (concat_filter_cons (fun r x => (cls x =? r)%nat)).
    rewrite (filter_seq_singleton _ size (cls x)).
    + cbn [List.map app]. constructor. apply IH.
      intros y Hy. apply H. now right.
    + apply H. now left.
    + apply Nat.eqb_refl.
    + intros r _ Hr. apply Nat.eqb_neq. congruence.
Qed.

Lemma round_robin_class size rank i :
  (rank < size)%nat ->
  ((rank <=? i)%nat && ((i - rank) mod size =? 0)%nat)
  = (i mod size =? rank)%nat.
Proof.
  intros Hr. destruct (rank <=? i)%nat eqn:E; cbn [andb].
  - apply Nat.leb_le in E.
    destruct ((i - rank) mod size =? 0)%nat eqn:M; symmetry.
    + apply Nat.eqb_eq in M. apply Nat.eqb_eq.
      apply Nat.Div0.div_exact in M.
      replace i with (rank + (i - rank) / size * size)%nat at 1 by lia.
      rewrite Nat.Div0.mod_add. now apply Nat.mod_small.
    + apply Nat.eqb_neq in M. apply Nat.eqb_neq. intros Hm. apply M.
      pose proof (Nat.div_mod_eq i size) as D. rewrite Hm in D.
      replace (i - rank)%nat with (i / size * size)%nat by lia.
      apply Nat.Div0.mod_mul.
  - apply Nat.leb_gt in E. symmetry. apply Nat.eqb_neq.
    rewrite Nat.mod_small by lia. lia.
Qed.

Lemma map_snd_combine_seq {A} (l : list A) :
  List.map snd (combine (seq 0 (length l)) l) = l.
Proof.
  generalize 0%nat. induction l as [|x l IH]; intros s; [reflexivity|].
  cbn [length seq combine List.map snd]. now rewrite IH.
Qed.

Lemma assigned_partition size files :
  Permutation
    (concat (List.map (fun rank => Mpi.assigned rank size files)
                      (seq 0 size)))
    (match size with O => [] | _ => files end).
Proof.
  destruct size as [|k]; [reflexivity|]. set (size := S k).
  unfold Mpi.assigned.
  rewrite <- (map_map
                (fun rank =>
                   filter (fun p => (rank <=? fst p)%nat
                                    && ((fst p - rank) mod size =? 0)%nat)
                          (combine (seq 0 (length files)) files))
                (List.map snd)).
  rewrite <- concat_map.
  apply Permutation_trans
    with (List.map snd (combine (seq 0 (length files)) files));
    [|now rewrite map_snd_combine_seq].
  apply Permutation_map.
  rewrite (map_ext_in _
             (fun rank =>
                filter (fun p => (fst p mod size =? rank)%nat)
                       (combine (seq 0 (length files)) files))).
  - apply (concat_filter_classes (fun p => (fst p mod size)%nat)).
    intros x _. apply Nat.mod_upper_bound. discriminate.
  - intros rank Hr. apply in_seq in Hr. apply filter_ext.
    intros p. apply round_robin_class. lia.
Qed.

(** ** A run of the distributed program *)

Lemma mpi_local_map_ext rank size files :
  mpi_ext (no_separator Mpi.delims)
          (Z.of_nat (length (mpi_tokens (Mpi.assigned rank size files))))
          (Mpi.local_map rank size files) /\
  forall k,
    total (mpi_contents (Mpi.local_map rank size files)) k
    = total (word_units (mpi_tokens (Mpi.assigned rank size files))) k.
Proof.
  destruct (mpi_add_files Mpi.delims (Mpi.assigned rank size files) 0
              (Mpi.create_hashmap HASH_TABLE_SIZE)) as [E T];
    [apply mpi_ext_create; reflexivity|].
  split; [exact E|]. intros k.
  unfold Mpi.local_map. fold (mpi_add_file Mpi.delims).
  rewrite T, mpi_contents_create. reflexivity.
Qed.

Lemma mpi_ext_wire m t :
  mpi_ext (no_separator Mpi.delims) m t -> m < 2 ^ 31 -> mpi_wire_ok t.
Proof.
  intros (W & Q & M) Hm n Hn.
  destruct (mpi_mass_bounds t W) as [_ B].
  pose proof (B n Hn). pose proof (Q n Hn) as Qn.
  split; [|split; [|lia]]; intros Hin; apply Qn in Hin; discriminate Hin.
Qed.

Lemma records_length nodes :
  (forall n, In n nodes -> (length (Mpi.record n) <= 111)%nat) ->
  (length (concat (List.map Mpi.record nodes)) <= 111 * length nodes)%nat.
Proof.
  induction nodes as [|n nodes IH]; intros H; [simpl; lia|].
  cbn [List.map concat length]. rewrite length_app.
  pose proof (H n (or_introl eq_refl)).
  assert (length (concat (List.map Mpi.record nodes))
          <= 111 * length nodes)%nat
    by (apply IH; intros x Hx; apply H; now right).
  lia.
Qed.

(** Serialization of a table whose counts sum to [m], with
    [112 * m <= MAX_BUFFER_SIZE]: it does not abort, and sends between 1
    and [111 * m + 1] bytes. *)
Lemma mpi_serialize_bounds m t :
  mpi_ext (no_separator Mpi.delims) m t ->
  112 * m <= MAX_BUFFER_SIZE ->
  mpi_wire_ok t /\
  exists buffer length,
    Mpi.serialize_hashmap t = Some (buffer, length) /\
    0 < length <= 111 * m + 1.
Proof.
  intros E Hm. pose proof E as (W & Q & M).
  destruct (mpi_mass_bounds t W) as [B1 B2].
  assert (Hlt : m < 2 ^ 31).
  { unfold MAX_BUFFER_SIZE in Hm. change (2 ^ 26) with 67108864 in Hm.
    change (2 ^ 31) with 2147483648. lia. }
  pose proof (mpi_ext_wire m t E Hlt) as K.
  split; [exact K|].
  assert (Hi : Mpi.items t * 112 <= MAX_BUFFER_SIZE)
    by (rewrite (mpi_wf_items _ W); lia).
  rewrite (mpi_serialize_ok t W K Hi).
  pose proof (mpi_node_ranges t W K) as R.
  destruct (Mpi.entries t) as [|node nodes] eqn:En.
  - eexists _, _. split; [reflexivity|]. simpl in B1. lia.
  - eexists _, _. split; [reflexivity|].
    assert (L1 : (2 <= length (Mpi.record node))%nat)
      by (apply record_length; apply (R node); now left).
    assert (L2 : (length (concat (List.map Mpi.record (node :: nodes)))
                  <= 111 * length (node :: nodes))%nat).
    { apply records_length. intros n Hn. apply record_length;
        now apply (R n). }
    cbn [List.map concat] in *. rewrite length_app in *. lia.
Qed.

Lemma fold_left_add l : forall a,
  fold_left Z.add l a = a + fold_right Z.add 0 l.
Proof.
  induction l as [|x l IH]; intros a; simpl; [lia|]. rewrite IH. lia.
Qed.

(** What reaches rank 0 from a list of ranks whose tables are small
    enough. *)
Lemma mpi_gather_ranks size files ranks :
  (forall r, In r ranks ->
             112 * rank_tokens size files r <= MAX_BUFFER_SIZE) ->
  exists sends,
    Mpi.gather (List.map (fun rank => Mpi.serialize_hashmap
                                        (Mpi.local_map rank size files))
                         ranks) = Some sends /\
    Forall2 (fun r s =>
               Mpi.serialize_hashmap (Mpi.local_map r size files) = Some s
               /\ 0 < snd s)
            ranks sends /\
    fold_right Z.add 0 (List.map snd sends)
    <= fold_right Z.add 0
         (List.map (fun r => 111 * rank_tokens size files r + 1) ranks).
Proof.
  induction ranks as [|r ranks IH]; intros H.
  - exists []. repeat split; [constructor|simpl; lia].
  - destruct IH as (sends & G & F & S);
      [intros x Hx; apply H; now right|].
    destruct (mpi_local_map_ext r size files) as [E _].
    destruct (mpi_serialize_bounds _ _ E (H r (or_introl eq_refl)))
      as (_ & buf & len & Ser & Hl).
    exists ((buf, len) :: sends). cbn [List.map Mpi.gather].
    rewrite Ser, G. split; [reflexivity|]. split.
    + constructor; [|exact F]. split; [exact Ser|]. cbn [snd]. lia.
    + cbn [List.map fold_right snd]. unfold rank_tokens in *. lia.
Qed.

(** Reconstruction from what a rank sent is the merge of its table. *)
Lemma mpi_reconstruct_ranks size files ranks sends :
  (forall r, In r ranks ->
             112 * rank_tokens size files r <= MAX_BUFFER_SIZE) ->
  Forall2 (fun r s =>
             Mpi.serialize_hashmap (Mpi.local_map r size files) = Some s
             /\ 0 < snd s)
          ranks sends ->
  forall g,
    fold_left (fun g s =>
                 if snd s >? 0
                 then Mpi.deserialize_hashmap g (fst s) (snd s)
                 else g)
              sends g
    = fold_left (mpi_merge_rank size files) ranks g.
Proof.
  intros H F. induction F as [|r s ranks sends [Ser Hs] F IH]; intros g;
    [reflexivity|].
  cbn [fold_left].
  replace (snd s >? 0) with true by (symmetry; apply Z.gtb_lt; exact Hs).
  destruct (mpi_local_map_ext r size files) as [E _].
  destruct (mpi_serialize_bounds _ _ E (H r (or_introl eq_refl)))
    as (K & _).
  destruct s as [buf len]. cbn [fst snd].
  rewrite (mpi_deserialize_serialized _ _ _ g (proj1 E) K Ser).
  apply IH. intros x Hx. apply H. now right.
Qed.

Lemma mpi_merge_ranks size files ranks : forall g,
  mpi_wf g ->
  mpi_wf (fold_left (mpi_merge_rank size files) ranks g) /\
  forall k,
    total (mpi_contents (fold_left (mpi_merge_rank size files) ranks g)) k
    = total (mpi_contents g) k
      + total (word_units
                 (mpi_tokens
                    (concat (List.map (fun r => Mpi.assigned r size files)
                                      ranks)))) k.
Proof.
  induction ranks as [|r ranks IH]; intros g W.
  - split; [exact W|]. intros k. cbn. now rewrite Z.add_0_r.
  - cbn [fold_left List.map concat]. unfold mpi_merge_rank at 2 4.
    destruct (mpi_local_map_ext r size files) as [(Wl & _) Tl].
    destruct (IH (Mpi.merge_hashmaps g (Mpi.local_map r size files)))
      as [W' T]; [now apply mpi_merge_wf|].
    split; [exact W'|]. intros k.
    rewrite T, mpi_merge_total, Tl by assumption.
    unfold mpi_tokens. rewrite flat_map_app, word_units_app, total_app.
    lia.
Qed.

Lemma mpi_tokens_concat_length ls :
  Z.of_nat (length (mpi_tokens (concat ls)))
  = fold_right Z.add 0
      (List.map (fun l => Z.of_nat (length (mpi_tokens l))) ls).
Proof.
  induction ls as [|l ls IH]; [reflexivity|].
  cbn [concat List.map fold_right]. unfold mpi_tokens in *.
  rewrite flat_map_app, length_app, Nat2Z.inj_add, IH. reflexivity.
Qed.

Lemma rank_tokens_sum size files :
  (0 < size)%nat ->
  fold_right Z.add 0 (List.map (rank_tokens size files) (seq 0 size))
  = Z.of_nat (length (mpi_tokens files)).
Proof.
  intros Hs. pose proof (assigned_partition size files) as P.
  destruct size as [|k]; [lia|].
  apply (Permutation_flat_map (mpi_file_tokens Mpi.delims)) in P.
  apply Permutation_length in P. fold (mpi_tokens files) in P.
  rewrite <- P.
  change (flat_map (mpi_file_tokens Mpi.delims)) with mpi_tokens.
  rewrite mpi_tokens_concat_length, map_map. reflexivity.
Qed.

Lemma sum_nonneg {A} (f : A -> Z) l :
  (forall y, 0 <= f y) -> 0 <= fold_right Z.add 0 (List.map f l).
Proof.
  intros Hf. induction l as [|z l IH]; cbn [List.map fold_right]; [lia|].
  pose proof (Hf z). lia.
Qed.

Lemma sum_member_le {A} (f : A -> Z) l x :
  (forall y, 0 <= f y) -> In x l ->
  f x <= fold_right Z.add 0 (List.map f l).
Proof.
  intros Hf. induction l as [|y l IH]; intros H; [destruct H|].
  cbn [List.map fold_right].
  pose proof (sum_nonneg f l Hf).
  destruct H as [->|H]; [lia|]. pose proof (Hf y). apply IH in H. lia.
Qed.

Lemma sum_affine {A} (f : A -> Z) l :
  fold_right Z.add 0 (List.map (fun x => 111 * f x + 1) l)
  = 111 * fold_right Z.add 0 (List.map f l) + Z.of_nat (length l).
Proof.
  induction l as [|x l IH]; [reflexivity|].
  cbn [List.map fold_right length]. rewrite IH. lia.
Qed.

(** A run of [size] processes whose token count passes the buffer
    bounds prints the ranking of a table that satisfies the invariant and
    counts every case-folded word as often as it occurs in the files. *)
Lemma mpi_main_result files size :
  files <> [] -> (0 < size)%nat ->
  112 * Z.of_nat (length (mpi_tokens files)) + Z.of_nat size
  <= MAX_BUFFER_SIZE ->
  exists global_map,
    Mpi.main files size = Some (Mpi.print_results global_map 10) /\
    mpi_wf global_map /\
    forall k,
      total (mpi_contents global_map) k
      = total (word_units (mpi_tokens files)) k.
Proof.
  intros Hf Hs Hb.
  pose proof (rank_tokens_sum size files Hs) as Sum.
  assert (Hr : forall r, In r (seq 0 size) ->
                 112 * rank_tokens size files r <= MAX_BUFFER_SIZE).
  { intros r Hin.
    pose proof (sum_member_le (rank_tokens size files) (seq 0 size) r
                  ltac:(intros; unfold rank_tokens; lia) Hin).
    lia. }
  destruct (mpi_gather_ranks size files (seq 0 size) Hr)
    as (sends & G & F & Sb).
  rewrite sum_affine, Sum, length_seq in Sb.
  destruct files as [|f fs]; [congruence|]. unfold Mpi.main.
  rewrite G, fold_left_add.
  replace (0 + fold_right Z.add 0 (List.map snd sends) >? MAX_BUFFER_SIZE)
    with false by (symmetry; rewrite Z.gtb_ltb; apply Z.ltb_ge; lia).
  destruct size as [|k]; [lia|]. cbn [seq] in F, Hr.
  inversion F as [|r0 s0 ranks sends' [Ser0 _] F' E1 E2]; subst.
  cbn [tl].
  rewrite (mpi_reconstruct_ranks (S k) (f :: fs) (seq 1 k) sends');
    [|intros r Hin; apply Hr; now right|exact F'].
  change (fold_left (mpi_merge_rank (S k) (f :: fs)) (seq 1 k)
            (Mpi.merge_hashmaps (Mpi.create_hashmap HASH_TABLE_SIZE)
               (Mpi.local_map 0 (S k) (f :: fs))))
    with (fold_left (mpi_merge_rank (S k) (f :: fs)) (seq 0 (S k))
            (Mpi.create_hashmap HASH_TABLE_SIZE)).
  destruct (mpi_merge_ranks (S k) (f :: fs) (seq 0 (S k))
              (Mpi.create_hashmap HASH_TABLE_SIZE)) as [W T];
    [apply mpi_create_wf; reflexivity|].
  eexists. split; [reflexivity|]. split; [exact W|]. intros key.
  rewrite T, mpi_contents_create. cbn [Z.add].
  apply total_perm. unfold word_units, mpi_tokens.
  apply Permutation_map, Permutation_flat_map.
  apply (assigned_partition (S k) (f :: fs)).
Qed.

Lemma word_ok_fold w : word_ok w -> word_ok (fold_case w).
Proof.
  intros [Hl Hn]. split; [now rewrite fold_case_length|].
  intros Hin. apply in_map_iff in Hin. destruct Hin as (x & Hx & Hin).
  apply tolower_nul in Hx. now subst x.
Qed.

Lemma rank_le_fold p q : rank_le p q <-> rank_le (fold_key p) (fold_key q).
Proof.
  unfold rank_le, fold_key. cbn [fst snd]. now rewrite !fold_case_idem.
Qed.

Lemma pair_compare_rank p q :
  word_ok (fst p) -> (pair_compare p q <= 0 <-> rank_le p q).
Proof.
  intros H. unfold pair_compare.
  rewrite (mpi_compare_rank (Mpi.mkNode (fst p) (snd p))) by exact H.
  unfold mpi_pair. cbn [Mpi.word Mpi.count].
  now destruct p, q.
Qed.

Lemma pair_compare_antisym p q :
  folded_pair p -> folded_pair q ->
  pair_compare p q <= 0 -> pair_compare q p <= 0 -> p = q.
Proof.
  intros [Hp Fp] [Hq Fq]. rewrite !pair_compare_rank by assumption.
  intros H1 H2. pose proof (rank_le_antisym p q H1 H2) as E.
  unfold fold_key in E. rewrite Fp, Fq in E.
  destruct p, q. exact E.
Qed.

(** Tables with the same case-folded contents print the same ranking,
    up to the letter case of the words. *)
Lemma mpi_print_results_fold t1 t2 top_n :
  mpi_wf t1 -> mpi_wf t2 ->
  Permutation (mpi_contents t1) (mpi_contents t2) ->
  List.map fold_key (Mpi.print_results t1 top_n)
  = List.map fold_key (Mpi.print_results t2 top_n).
Proof.
  intros W1 W2 P. unfold Mpi.print_results.
  rewrite !mpi_print_results_words by assumption.
  rewrite !map_map, <- !firstn_map. f_equal.
  assert (K : forall t, mpi_wf t ->
            let l := List.map (fun x => fold_key (Mpi.word x, Mpi.count x))
                              (qsort Mpi.compare_words (Mpi.entries t)) in
            Forall folded_pair l /\
            StronglySorted (compar_le pair_compare) l /\
            Permutation l (mpi_contents t)).
  { intros t W l.
    assert (HP : Forall (fun n => word_ok (Mpi.word n))
                        (qsort Mpi.compare_words (Mpi.entries t))).
    { apply (Permutation_Forall
               (Permutation_sym (qsort_perm Mpi.compare_words _))).
      apply Forall_forall. apply (mpi_wf_words _ W). }
    split; [|split].
    - unfold l. apply Forall_forall. intros p Hp.
      apply in_map_iff in Hp. destruct Hp as (n & <- & Hn).
      rewrite Forall_forall in HP. split; cbn [fold_key fst snd].
      + now apply word_ok_fold, HP.
      + apply fold_case_idem.
    - unfold l.
      apply (StronglySorted_map (compar_le Mpi.compare_words) _ _
                                (fun n => word_ok (Mpi.word n)));
        [|exact HP|].
      + intros a b Ha Hb H. unfold compar_le in *.
        apply pair_compare_rank.
        * cbn [fold_key fst]. now apply word_ok_fold.
        * apply (rank_le_fold (mpi_pair a) (mpi_pair b)).
          now apply mpi_compare_rank.
      + apply (qsort_sorted Mpi.compare_words
                            (fun n => word_ok (Mpi.word n))).
        * apply mpi_compare_total.
        * apply mpi_compare_trans.
        * apply Forall_forall. apply (mpi_wf_words _ W).
    - unfold l. rewrite mpi_contents_eq.
      apply (Permutation_map
               (fun x => fold_key (Mpi.word x, Mpi.count x))).
      apply qsort_perm. }
  destruct (K t1 W1) as (F1 & S1 & P1), (K t2 W2) as (F2 & S2 & P2).
  apply (sorted_unique pair_compare folded_pair pair_compare_antisym);
    auto.
  rewrite P1, P2. exact P.
Qed.

(** ** Runs of the distributed program that print *)

Lemma gather_sends {A} (ranks : list A)
  (send : A -> option (list ascii * Z)) : forall sends,
  Mpi.gather (List.map send ranks) = Some sends ->
  Forall2 (fun r s => send r = Some s) ranks sends.
Proof.
  induction ranks as [|r ranks IH]; intros sends G; cbn in G.
  - injection G as <-. constructor.
  - destruct (send r) as [s|] eqn:S; [|discriminate G].
    destruct (Mpi.gather (List.map send ranks)) as [l|];
      [|discriminate G].
    injection G as <-. constructor; [exact S|]. now apply IH.
Qed.

(** What [serialize_hashmap] sends has a positive length. *)
Lemma mpi_serialize_length t buffer length :
  mpi_wf t -> mpi_wire_ok t ->
  Mpi.serialize_hashmap t = Some (buffer, length) -> 0 < length.
Proof.
  intros W K S.
  assert (Hb : Mpi.items t * 112 <= MAX_BUFFER_SIZE).
  { unfold Mpi.serialize_hashmap in S.
    change (Z.of_nat MAX_WORD_LEN + 12) with 112 in S.
    destruct (Mpi.items t * 112 >? MAX_BUFFER_SIZE) eqn:E;
      [discriminate|].
    rewrite Z.gtb_ltb in E. apply Z.ltb_ge in E. exact E. }
  rewrite (mpi_serialize_ok t W K Hb) in S.
  pose proof (mpi_node_ranges t W K) as R.
  destruct (Mpi.entries t) as [|node nodes]; injection S as <- <-; [lia|].
  assert (2 <= List.length (Mpi.record node))%nat
    by (apply record_length; apply (R node); now left).
  cbn [List.map concat]. rewrite length_app. lia.
Qed.

(** Reconstruction from what the ranks sent is the merge of their
    tables, whenever the counts fit an [int]. *)
Lemma mpi_reconstruct_sent size files ranks sends :
  (forall r, In r ranks -> rank_tokens size files r < 2 ^ 31) ->
  Forall2 (fun r s =>
             Mpi.serialize_hashmap (Mpi.local_map r size files) = Some s)
          ranks sends ->
  forall g,
    fold_left (fun g s =>
                 if snd s >? 0
                 then Mpi.deserialize_hashmap g (fst s) (snd s)
                 else g)
              sends g
    = fold_left (mpi_merge_rank size files) ranks g.
Proof.
  intros H F. induction F as [|r s ranks sends Ser F IH]; intros g;
    [reflexivity|].
  cbn [fold_left].
  destruct (mpi_local_map_ext r size files) as [E _].
  pose proof (mpi_ext_wire _ _ E (H r (or_introl eq_refl))) as K.
  destruct s as [buf len]. cbn [fst snd].
  pose proof (mpi_serialize_length _ _ _ (proj1 E) K Ser) as Hl.
  replace (len >? 0) with true by (symmetry; now apply Z.gtb_lt).
  rewrite (mpi_deserialize_serialized _ _ _ g (proj1 E) K Ser).
  apply IH. intros x Hx. apply H. now right.
Qed.

(** A run that prints, prints the ranking of a table that counts every
    word of the files read. *)
Lemma mpi_main_printed files size ranked :
  (0 < size)%nat ->
  Z.of_nat (length (mpi_tokens files)) < 2 ^ 31 ->
  Mpi.main files size = Some ranked ->
  exists global_map,
    ranked = Mpi.print_results global_map 10 /\
    mpi_wf global_map /\
    forall k,
      total (mpi_contents global_map) k
      = total (word_units (mpi_tokens files)) k.
Proof.
  intros Hs Hb M.
  pose proof (rank_tokens_sum size files Hs) as Sum.
  assert (Hr : forall r, In r (seq 0 size) ->
                 rank_tokens size files r < 2 ^ 31).
  { intros r Hin.
    pose proof (sum_member_le (rank_tokens size files) (seq 0 size) r
                  ltac:(intros; unfold rank_tokens; lia) Hin).
    lia. }
  destruct files as [|f fs]; [discriminate M|]. unfold Mpi.main in M.
  destruct (Mpi.gather _) as [sends|] eqn:G; [|discriminate M].
  apply gather_sends in G.
  destruct (fold_left Z.add (List.map snd sends) 0 >? MAX_BUFFER_SIZE);
    [discriminate M|].
  injection M as <-.
  destruct size as [|k]; [lia|]. cbn [seq] in G, Hr.
  inversion G as [|r0 s0 ranks sends' Ser0 F' E1 E2]; subst.
  cbn [tl].
  rewrite (mpi_reconstruct_sent (S k) (f :: fs) (seq 1 k) sends');
    [|intros r Hin; apply Hr; now right|exact F'].
  change (fold_left (mpi_merge_rank (S k) (f :: fs)) (seq 1 k)
            (Mpi.merge_hashmaps (Mpi.create_hashmap HASH_TABLE_SIZE)
               (Mpi.local_map 0 (S k) (f :: fs))))
    with (fold_left (mpi_merge_rank (S k) (f :: fs)) (seq 0 (S k))
            (Mpi.create_hashmap HASH_TABLE_SIZE)).
  destruct (mpi_merge_ranks (S k) (f :: fs) (seq 0 (S k))
              (Mpi.create_hashmap HASH_TABLE_SIZE)) as [W T];
    [apply mpi_create_wf; reflexivity|].
  eexists. split; [reflexivity|]. split; [exact W|]. intros key.
  rewrite T, mpi_contents_create. cbn [Z.add].
  apply total_perm. unfold word_units, mpi_tokens.
  apply Permutation_map, Permutation_flat_map.
  apply (assigned_partition (S k) (f :: fs)).
Qed.

(** Two runs that print, print the same ranking up to the case of the
    letters, whenever they read the same words. *)
Lemma mpi_main_same_words files1 size1 ranked1 files2 size2 ranked2 :
  (0 < size1)%nat -> (0 < size2)%nat ->
  Z.of_nat (length (mpi_tokens files1)) < 2 ^ 31 ->
  mpi_tokens files2 = mpi_tokens files1 ->
  Mpi.main files1 size1 = Some ranked1 ->
  Mpi.main files2 size2 = Some ranked2 ->
  List.map fold_key ranked1 = List.map fold_key ranked2.
Proof.
  intros H1 H2 Hb E M1 M2.
  destruct (mpi_main_printed _ _ _ H1 Hb M1) as (g1 & -> & W1 & T1).
  destruct (mpi_main_printed _ _ _ H2 ltac:(now rewrite E) M2)
    as (g2 & -> & W2 & T2).
  apply mpi_print_results_fold; auto.
  apply mpi_contents_perm; auto. intros k. now rewrite T1, T2, E.
Qed.

(** C2 (partition invariance), amended.  For a fixed list of input
    files: in the shared-memory program, for every delimiter set, every
    number of threads and every way the files are scheduled on them, the
    lines printed for the table of [process_files_parallel] are those
    printed for the table of [process_files_sync]; in the distributed
    program, whenever a run of [size] processes and the run of one process
    both print a ranking (neither aborts) and the files hold fewer than
    [2 ^ 31] words, the two rankings are equal after case folding of the
    words: same length, same counts, same order, the words equal up to the
    case of their letters. *)
Theorem partition_invariance :
  forall (files : list file) (delims : cstring)
         (schedule : list (list nat)) (num_threads : nat) (top_n : Z)
         (size : nat),
    (Omp.schedule_of (length files) num_threads schedule ->
     Omp.print_results
       (Omp.process_files_parallel files delims schedule) top_n
     = Omp.print_results (Omp.process_files_sync files delims) top_n)
    /\
    (forall ranked sequential,
        (0 < size)%nat ->
        Z.of_nat (length (mpi_tokens files)) < 2 ^ 31 ->
        Mpi.main files size = Some ranked ->
        Mpi.main files 1 = Some sequential ->
        List.map fold_key ranked = List.map fold_key sequential).
Proof.
  intros files delims schedule num_threads top_n size. split.
  - apply omp_partition_invariance.
  - intros ranked sequential Hs Hb M M1.
    apply (mpi_main_same_words files size ranked files 1 sequential);
      auto.
Qed.

Lemma partition_invariance_witness :
  let files := [Readable (str "x") false; Readable (str "Apple") false;
                Readable (str "apple") false] in
  Omp.print_results
    (Omp.process_files_parallel files (str " ")
                                [[0%nat; 2%nat]; [1%nat]]) 10
  = Omp.print_results (Omp.process_files_sync files (str " ")) 10
  /\
  List.map fold_key [(str "apple", 2); (str "x", 1)]
  = List.map fold_key [(str "Apple", 2); (str "x", 1)].
Proof.
  intros files.
  destruct (partition_invariance files (str " ")
              [[0%nat; 2%nat]; [1%nat]] 2 10 2) as [Ho Hm].
  split.
  - apply Ho. split; [reflexivity|]. simpl.
    apply perm_skip. apply perm_swap.
  - apply Hm.
    + lia.
    + vm_compute. reflexivity.
    + vm_compute. reflexivity.
    + vm_compute. reflexivity.
Defined.

(** C2 as stated fails in the distributed program: on the files ["x"],
    ["Apple"], ["apple"] one process prints [Apple 2] and two processes
    print [apple 2], because rank 0 then reads the third file before the
    table of rank 1 is merged. *)
Lemma partition_spelling_counterexample :
  let files := [Readable (str "x") false; Readable (str "Apple") false;
                Readable (str "apple") false] in
  Mpi.main files 1 = Some [(str "Apple", 2); (str "x", 1)] /\
  Mpi.main files 2 = Some [(str "apple", 2); (str "x", 1)] /\
  Mpi.main files 1 <> Mpi.main files 2.
Proof.
  intros files.
  assert (E1 : Mpi.main files 1 = Some [(str "Apple", 2); (str "x", 1)])
    by (vm_compute; reflexivity).
  assert (E2 : Mpi.main files 2 = Some [(str "apple", 2); (str "x", 1)])
    by (vm_compute; reflexivity).
  split; [exact E1|]. split; [exact E2|].
  rewrite E1, E2. discriminate.
Qed.

(** * Further properties of the code *)

(** ** Hashing and insertion *)

(** X1.  The bucket index that [hash] computes lies in [[0, size)] for
    every positive table size, and two words that differ only in the case
    of their letters get the same index. *)
Theorem hash_bucket_case_insensitive :
  forall (w1 w2 : cstring) (size : Z),
    0 < size ->
    0 <= hash w1 size < size /\
    (fold_case w1 = fold_case w2 -> hash w1 size = hash w2 size).
Proof.
  intros w1 w2 size Hs. split.
  - now apply hash_range.
  - apply hash_fold.
Qed.

Lemma hash_bucket_case_insensitive_witness :
  0 <= hash (str "Apple") HASH_TABLE_SIZE < HASH_TABLE_SIZE /\
  (fold_case (str "Apple") = fold_case (str "aPPLE") ->
   hash (str "Apple") HASH_TABLE_SIZE = hash (str "aPPLE") HASH_TABLE_SIZE).
Proof.
  apply (hash_bucket_case_insensitive (str "Apple") (str "aPPLE")
           HASH_TABLE_SIZE).
  reflexivity.
Defined.

(** X2.  [insert_word] keeps the invariant of the tables in both
    programs: after the insertion of a C string shorter than
    [MAX_WORD_LEN] no two entries have the same case-folded word, [items]
    is the number of entries, every node lies in the bucket of its hash
    and every count is positive. *)
Theorem insert_word_keeps_invariant :
  forall (tm : Mpi.HashMap) (to : Omp.HashMap) (w : cstring),
    word_ok w ->
    (mpi_wf tm -> mpi_wf (Mpi.insert_word tm w)) /\
    (omp_inv to -> omp_inv (Omp.insert_word to w)).
Proof.
  intros tm to w Hw. split; intros W.
  - now apply mpi_insert_word_wf.
  - now apply omp_insert_word_inv.
Qed.

Lemma insert_word_keeps_invariant_witness :
  mpi_wf (Mpi.insert_word (Mpi.create_hashmap HASH_TABLE_SIZE) (str "Apple"))
  /\
  omp_inv (Omp.insert_word (Omp.create_hashmap HASH_TABLE_SIZE)
                           (str "Apple")).
Proof.
  assert (HA : word_ok (str "Apple")) by word_ok_tac.
  destruct (insert_word_keeps_invariant
              (Mpi.create_hashmap HASH_TABLE_SIZE)
              (Omp.create_hashmap HASH_TABLE_SIZE) (str "Apple") HA)
    as [Pm Po].
  split.
  - apply Pm. apply mpi_create_wf. reflexivity.
  - apply Po. apply omp_create_inv. reflexivity.
Defined.

Lemma total_word_units ws k : total (word_units ws) k = occurrences k ws.
Proof.
  unfold occurrences.
  induction ws as [|w ws IH]; [reflexivity|].
  cbn [word_units List.map total filter]. fold (word_units ws).
  destruct (cstring_eqb (fold_case w) k).
  - cbn [length]. rewrite IH. lia.
  - exact IH.
Qed.

Lemma omp_insert_all_view ws : forall t,
  (forall w, In w ws -> word_ok w) ->
  omp_view (fold_left Omp.insert_word ws t)
  = fold_left Mpi.insert_word ws (omp_view t).
Proof.
  induction ws as [|w ws IH]; intros t H; [reflexivity|].
  cbn [fold_left]. rewrite IH by (intros; apply H; now right).
  rewrite omp_insert_word_view by (apply H; now left). reflexivity.
Qed.

Lemma omp_contents_view t : omp_contents t = mpi_contents (omp_view t).
Proof. unfold omp_contents, mpi_contents. now rewrite omp_listing_view. Qed.

Lemma mpi_contents_lookup t k c :
  mpi_wf t ->
  (In (k, c) (mpi_contents t) <-> 0 < c /\ c = total (mpi_contents t) k).
Proof.
  intros W.
  assert (ND : NoDup (List.map fst (mpi_contents t)))
    by (rewrite mpi_contents_keys; apply (inv_nodup _ _ _ W)).
  assert (Pos : forall k' c', In (k', c') (mpi_contents t) -> 0 < c').
  { intros k' c' H. rewrite mpi_contents_eq in H.
    apply in_map_iff in H. destruct H as (n & E & Hn).
    injection E as _ <-. now apply (inv_counts _ _ _ W). }
  split.
  - intros H. split; [now apply (Pos k)|].
    symmetry. now apply total_unique.
  - intros [Hc E]. destruct (total_present (mpi_contents t) k) as [c' Hc'].
    + lia.
    + rewrite (total_unique _ _ _ ND Hc') in E. now subst.
Qed.



Lemma strncasecmp_longer a : forall b n,
  (length a < n)%nat -> (length a < length b)%nat -> ~ In NUL b ->
  strncasecmp a b n <> 0.
Proof.
  induction a as [|x a IH]; intros [|y b] [|n] Hn Hl Hb; simpl in *;
    try lia.
  - intros E. apply Hb. left. apply tolower_nul, code_nul. lia.
  - destruct (code (tolower x) =? code (tolower y)) eqn:E.
    + apply IH; [lia|lia|tauto].
    + apply Z.eqb_neq in E. lia.
Qed.

Lemma mpi_chain_increment_miss chain : forall w,
  (forall x, In x chain -> strncasecmp (Mpi.word x) w MAX_WORD_LEN <> 0) ->
  Mpi.chain_increment chain w = None.
Proof.
  induction chain as [|node rest IH]; intros w H; [reflexivity|].
  cbn [Mpi.chain_increment].
  destruct (strncasecmp (Mpi.word node) w MAX_WORD_LEN =? 0) eqn:E.
  - apply Z.eqb_eq in E. exfalso. apply (H node); [now left|exact E].
  - rewrite IH; [reflexivity|]. intros x Hx. apply H. now right.
Qed.

Lemma mpi_create_short size : 0 < size -> mpi_short (Mpi.create_hashmap size).
Proof.
  intros H. split; [exact H|]. split.
  - apply repeat_length.
  - intros n Hn. rewrite mpi_create_entries in Hn. destruct Hn.
Qed.

(** X4.  [insert_word] of the distributed program never finds a word of
    [MAX_WORD_LEN] bytes or more: the comparison of the stored words, all
    shorter than [MAX_WORD_LEN], with such a word is never 0, so every
    insertion of it adds a new entry of count 1 that holds its first
    [MAX_WORD_LEN - 1] bytes, and [items] grows by one each time. *)
Theorem mpi_insert_word_long_word :
  forall (t : Mpi.HashMap) (w : cstring),
    mpi_short t -> ~ In NUL w -> (MAX_WORD_LEN <= length w)%nat ->
    mpi_short (Mpi.insert_word t w) /\
    Mpi.items (Mpi.insert_word t w) = Mpi.items t + 1 /\
    Permutation (mpi_listing (Mpi.insert_word t w))
                ((firstn (MAX_WORD_LEN - 1) w, 1) :: mpi_listing t).
Proof.
  intros t w (Hs & Hl & Hw) Hn Hlen.
  pose proof (hash_range w _ Hs) as Hr.
  set (h := Z.to_nat (hash w (Mpi.size t))).
  assert (Hh : (h < length (Mpi.buckets t))%nat)
    by (rewrite Hl; unfold h; lia).
  destruct (store_split [] _ _ Hh) as (pre & post & E & L & St).
  assert (C : Mpi.chain_increment (nth h (Mpi.buckets t) []) w = None).
  { apply mpi_chain_increment_miss. intros x Hx.
    assert (length (Mpi.word x) < MAX_WORD_LEN)%nat
      by (apply Hw; now apply (in_nth_concat _ _ h)).
    apply strncasecmp_longer; [assumption|lia|exact Hn]. }
  assert (I : Mpi.insert_word t w
              = Mpi.mkMap
                  (pre ++ (Mpi.mkNode (firstn (MAX_WORD_LEN - 1) w) 1
                             :: nth h (Mpi.buckets t) []) :: post)
                  (Mpi.size t) (Mpi.items t + 1)).
  { unfold Mpi.insert_word. fold h. rewrite C, St. reflexivity. }
  assert (P : Permutation
                (Mpi.entries (Mpi.insert_word t w))
                (Mpi.mkNode (firstn (MAX_WORD_LEN - 1) w) 1
                   :: Mpi.entries t)).
  { rewrite I. unfold Mpi.entries. cbn [Mpi.buckets].
    rewrite E at 2. rewrite concat_head, concat_bucket.
    symmetry. apply Permutation_middle. }
  split; [|split].
  - split; [rewrite I; exact Hs|]. split.
    + rewrite I. cbn [Mpi.buckets Mpi.size]. rewrite <- Hl.
      pose proof (f_equal (@length _) E) as E'.
      rewrite length_app in E' |- *. cbn [length] in E' |- *. lia.
    + intros n Hin. apply (Permutation_in _ P) in Hin.
      destruct Hin as [<-|Hin]; [|now apply Hw].
      cbn [Mpi.word]. rewrite length_firstn. unfold MAX_WORD_LEN. lia.
  - rewrite I. reflexivity.
  - unfold mpi_listing.
    apply (Permutation_map (fun n => (Mpi.word n, Mpi.count n))) in P.
    exact P.
Qed.

Lemma mpi_insert_word_long_word_witness :
  let t := Mpi.create_hashmap HASH_TABLE_SIZE in
  let w := repeat "a"%char 120 in
  mpi_short (Mpi.insert_word t w) /\
  Mpi.items (Mpi.insert_word t w) = Mpi.items t + 1 /\
  Permutation (mpi_listing (Mpi.insert_word t w))
              ((firstn (MAX_WORD_LEN - 1) w, 1) :: mpi_listing t).
Proof.
  intros t w. apply (mpi_insert_word_long_word t w).
  - apply mpi_create_short. reflexivity.
  - intros H. apply repeat_spec in H. discriminate H.
  - unfold w. rewrite repeat_length. unfold MAX_WORD_LEN. lia.
Defined.

(** ** Merging in the distributed program *)

(** X5.  [merge_hashmaps] of the distributed program keeps the invariant
    of the tables and adds the counts word by word, without regard to
    case: the count of every case-folded key in the merged table is the
    sum of its counts in the two tables. *)
Theorem mpi_merge_adds_counts :
  forall (dest src : Mpi.HashMap) (k : cstring),
    mpi_wf dest -> mpi_wf src ->
    mpi_wf (Mpi.merge_hashmaps dest src) /\
    total (mpi_contents (Mpi.merge_hashmaps dest src)) k
    = total (mpi_contents dest) k + total (mpi_contents src) k.
Proof.
  intros dest src k Wd Ws. split.
  - now apply mpi_merge_wf.
  - now apply mpi_merge_total.
Qed.

Lemma mpi_merge_adds_counts_witness :
  let dest := fold_left Mpi.insert_word [str "Apple"; str "pear"]
                        (Mpi.create_hashmap HASH_TABLE_SIZE) in
  let src := fold_left Mpi.insert_word [str "apple"; str "APPLE"]
                       (Mpi.create_hashmap HASH_TABLE_SIZE) in
  mpi_wf (Mpi.merge_hashmaps dest src) /\
  total (mpi_contents (Mpi.merge_hashmaps dest src)) (str "apple")
  = total (mpi_contents dest) (str "apple")
    + total (mpi_contents src) (str "apple").
Proof.
  intros dest src.
  apply (mpi_merge_adds_counts dest src (str "apple"));
    (apply mpi_insert_all; [apply mpi_create_wf; reflexivity|]);
    intros w Hw; simpl in Hw; destruct Hw as [<-|[<-|[]]]; word_ok_tac.
Defined.



(** X7.  Merging a table of the distributed program into an empty table
    reproduces it: the merged table holds the same (spelling, count)
    pairs, with the spellings as they were stored. *)
Theorem mpi_merge_into_empty :
  forall (t : Mpi.HashMap) (size : Z),
    0 < size -> mpi_wf t ->
    Permutation
      (mpi_listing (Mpi.merge_hashmaps (Mpi.create_hashmap size) t))
      (mpi_listing t).
Proof.
  intros t size Hs W. now apply mpi_merge_into_new.
Qed.

Lemma mpi_merge_into_empty_witness :
  let t := fold_left Mpi.insert_word [str "Apple"; str "pear"; str "apple"]
                     (Mpi.create_hashmap HASH_TABLE_SIZE) in
  Permutation
    (mpi_listing (Mpi.merge_hashmaps (Mpi.create_hashmap 64) t))
    (mpi_listing t).
Proof.
  intros t. apply (mpi_merge_into_empty t 64); [reflexivity|].
  apply mpi_insert_all; [apply mpi_create_wf; reflexivity|].
  intros w Hw; simpl in Hw; destruct Hw as [<-|[<-|[<-|[]]]]; word_ok_tac.
Defined.

(** ** Merging in the shared-memory program *)

(** X8.  [merge_hashmaps] of the shared-memory program identifies words
    by their spelling as it is: on tables without two entries of the same
    spelling it keeps that property, the count of every spelling in the
    merged table is the sum of its counts in the two tables, and the
    (spelling, count) pairs of the result depend neither on the order nor
    on the grouping of the merges. *)
Theorem omp_merge_adds_counts_by_spelling :
  forall (a b c : Omp.HashMap),
    omp_wfx a -> omp_wfx b -> omp_wfx c ->
    omp_wfx (Omp.merge_hashmaps a b) /\
    (forall k,
        total (omp_listing (Omp.merge_hashmaps a b)) k
        = total (omp_listing a) k + total (omp_listing b) k) /\
    Permutation (omp_listing (Omp.merge_hashmaps a b))
                (omp_listing (Omp.merge_hashmaps b a)) /\
    Permutation
      (omp_listing (Omp.merge_hashmaps (Omp.merge_hashmaps a b) c))
      (omp_listing (Omp.merge_hashmaps a (Omp.merge_hashmaps b c))).
Proof.
  intros a b c Wa Wb Wc.
  pose proof (omp_merge_wfx a b Wa Wb) as Wab.
  pose proof (omp_merge_wfx b a Wb Wa) as Wba.
  pose proof (omp_merge_wfx b c Wb Wc) as Wbc.
  split; [exact Wab|]. split; [|split].
  - intros k. now apply omp_merge_total.
  - apply omp_listing_perm; auto. intros k.
    rewrite !omp_merge_total by assumption. lia.
  - apply omp_listing_perm; try now apply omp_merge_wfx.
    intros k. rewrite !omp_merge_total by assumption. lia.
Qed.

Lemma omp_merge_adds_counts_by_spelling_witness :
  let a := Omp.insert_word (Omp.create_hashmap HASH_TABLE_SIZE)
                           (str "Apple") in
  let b := Omp.insert_word (Omp.create_hashmap HASH_TABLE_SIZE)
                           (str "apple") in
  let c := Omp.insert_word (Omp.create_hashmap HASH_TABLE_SIZE)
                           (str "Apple") in
  omp_wfx (Omp.merge_hashmaps a b) /\
  (forall k,
      total (omp_listing (Omp.merge_hashmaps a b)) k
      = total (omp_listing a) k + total (omp_listing b) k) /\
  Permutation (omp_listing (Omp.merge_hashmaps a b))
              (omp_listing (Omp.merge_hashmaps b a)) /\
  Permutation
    (omp_listing (Omp.merge_hashmaps (Omp.merge_hashmaps a b) c))
    (omp_listing (Omp.merge_hashmaps a (Omp.merge_hashmaps b c))).
Proof.
  intros a b c.
  apply (omp_merge_adds_counts_by_spelling a b c);
    apply omp_inv_wfx, omp_insert_word_inv;
    try (apply omp_create_inv; reflexivity); word_ok_tac.
Defined.

Lemma omp_listing_nodup t :
  omp_wfx t -> NoDup (List.map fst (omp_listing t)).
Proof.
  intros W. rewrite omp_listing_view. unfold mpi_listing.
  rewrite map_map. apply (inv_nodup _ _ _ W).
Qed.

Lemma omp_in_listing t n :
  In n (Omp.entries t) -> In (Omp.word n, Omp.count n) (omp_listing t).
Proof.
  intros H. unfold omp_listing.
  now apply (in_map (fun n => (Omp.word n, Omp.count n))).
Qed.

Lemma omp_listing_in t w c :
  In (w, c) (omp_listing t) ->
  exists n, In n (Omp.entries t) /\ Omp.word n = w /\ Omp.count n = c.
Proof.
  unfold omp_listing. intros H. apply in_map_iff in H.
  destruct H as (n & E & Hn). injection E as <- <-. eauto.
Qed.

(** A spelling with a count in a table has an entry there. *)
Lemma omp_total_entry t k :
  total (omp_listing t) k <> 0 ->
  exists n, In n (Omp.entries t) /\ Omp.word n = k.
Proof.
  intros H. destruct (total_present _ _ H) as [c Hc].
  destruct (omp_listing_in _ _ _ Hc) as (n & Hn & E & _). eauto.
Qed.

Lemma omp_entry_total t n :
  omp_wfx t -> In n (Omp.entries t) ->
  total (omp_listing t) (Omp.word n) = Omp.count n /\ 0 < Omp.count n.
Proof.
  intros W Hn. split.
  - apply total_unique; [now apply omp_listing_nodup|].
    now apply omp_in_listing.
  - now apply (omp_wfx_nodes t W).
Qed.

(** A table whose words are distinct as they are spelled, admissible and
    case-folded satisfies the invariant of the data model. *)
Lemma omp_folded_inv t :
  omp_wfx t ->
  (forall n, In n (Omp.entries t) -> word_ok (Omp.word n)) ->
  omp_folded t -> omp_inv t.
Proof.
  intros W Hw Hf.
  assert (V : forall node, In node (Mpi.entries (omp_view t)) ->
                exists n, In n (Omp.entries t) /\ node = omp_node_view n).
  { intros node H. rewrite omp_view_entries in H.
    apply in_map_iff in H. destruct H as (n & <- & Hn). eauto. }
  constructor.
  - apply (inv_size _ _ _ W).
  - apply (inv_length _ _ _ W).
  - apply (inv_items _ _ _ W).
  - apply (inv_place _ _ _ W).
  - intros node H. destruct (V node H) as (n & Hn & ->). now apply Hw.
  - apply (inv_counts _ _ _ W).
  - rewrite (map_ext_in _ (fun n => (fun w : cstring => w) (Mpi.word n))).
    + apply (inv_nodup _ _ _ W).
    + intros node H. destruct (V node H) as (n & Hn & ->). now apply Hf.
Qed.

Lemma omp_inv_words t n :
  omp_inv t -> In n (Omp.entries t) -> word_ok (Omp.word n).
Proof.
  intros W Hn.
  apply (inv_words _ _ _ W (omp_node_view n)).
  rewrite omp_view_entries. now apply in_map.
Qed.

Lemma omp_folded_contents t :
  omp_folded t -> omp_contents t = omp_listing t.
Proof.
  intros Hf. unfold omp_contents, omp_listing. rewrite map_map.
  apply map_ext_in. intros n Hn. unfold fold_key. cbn [fst snd].
  now rewrite Hf.
Qed.

(** X9.  On tables whose words are all stored in lower case (in their
    case-folded form) [merge_hashmaps] of the shared-memory program is
    right: the merged table satisfies the invariant of the data model, its
    words are in lower case again, and the count of every key is the sum
    of its counts in the two tables. *)
Theorem omp_merge_lower_case_tables :
  forall (dest src : Omp.HashMap),
    omp_inv dest -> omp_inv src -> omp_folded dest -> omp_folded src ->
    omp_inv (Omp.merge_hashmaps dest src) /\
    omp_folded (Omp.merge_hashmaps dest src) /\
    forall k,
      total (omp_contents (Omp.merge_hashmaps dest src)) k
      = total (omp_contents dest) k + total (omp_contents src) k.
Proof.
  intros dest src Id Is Fd Fs.
  pose proof (omp_inv_wfx _ Id) as Wd.
  pose proof (omp_inv_wfx _ Is) as Ws.
  pose proof (omp_merge_wfx _ _ Wd Ws) as W.
  assert (From : forall n, In n (Omp.entries (Omp.merge_hashmaps dest src)) ->
                   exists n', (In n' (Omp.entries dest)
                               \/ In n' (Omp.entries src))
                              /\ Omp.word n' = Omp.word n).
  { intros n Hn. destruct (omp_entry_total _ _ W Hn) as [T Hc].
    rewrite omp_merge_total in T by assumption.
    destruct (Z.eq_dec (total (omp_listing dest) (Omp.word n)) 0) as [Z0|NZ].
    - destruct (omp_total_entry src (Omp.word n)) as (n' & Hn' & E);
        [lia|eauto].
    - destruct (omp_total_entry dest (Omp.word n) NZ) as (n' & Hn' & E).
      eauto. }
  assert (F : omp_folded (Omp.merge_hashmaps dest src)).
  { intros n Hn. destruct (From n Hn) as (n' & [H|H] & <-); auto. }
  split; [|split; [exact F|]].
  - apply omp_folded_inv; [exact W| |exact F].
    intros n Hn. destruct (From n Hn) as (n' & [H|H] & <-);
      eauto using omp_inv_words.
  - intros k. rewrite !omp_folded_contents by assumption.
    now apply omp_merge_total.
Qed.

Lemma omp_merge_lower_case_tables_witness :
  let dest := fold_left Omp.insert_word [str "apple"; str "pear"]
                        (Omp.create_hashmap HASH_TABLE_SIZE) in
  let src := fold_left Omp.insert_word [str "apple"; str "fig"]
                       (Omp.create_hashmap HASH_TABLE_SIZE) in
  omp_inv (Omp.merge_hashmaps dest src) /\
  omp_folded (Omp.merge_hashmaps dest src) /\
  forall k,
    total (omp_contents (Omp.merge_hashmaps dest src)) k
    = total (omp_contents dest) k + total (omp_contents src) k.
Proof.
  intros dest src.
  apply (omp_merge_lower_case_tables dest src).
  - apply omp_insert_all_inv; [apply omp_create_inv; reflexivity|].
    intros w Hw; simpl in Hw; destruct Hw as [<-|[<-|[]]]; word_ok_tac.
  - apply omp_insert_all_inv; [apply omp_create_inv; reflexivity|].
    intros w Hw; simpl in Hw; destruct Hw as [<-|[<-|[]]]; word_ok_tac.
  - intros n Hn. vm_compute in Hn.
    repeat (destruct Hn as [<-|Hn]; [reflexivity|]). destruct Hn.
  - intros n Hn. vm_compute in Hn.
    repeat (destruct Hn as [<-|Hn]; [reflexivity|]). destruct Hn.
Defined.

(** ** The tokenizer and the table of one file *)

(** X10.  Whatever bytes a file holds, every word that the tokenizing
    loop hands to [insert_word] is a C string shorter than [MAX_WORD_LEN]
    with no delimiter, newline or carriage return in it. *)
Theorem tokens_are_admissible_words :
  forall (delims : cstring) (stream : list ascii) (tok : cstring),
    In tok (emitted_tokens delims stream) ->
    (length tok < MAX_WORD_LEN)%nat /\ ~ In NUL tok /\
    forall x, In x tok ->
              is_delimiter x delims = false /\ x <> LF /\ x <> CR.
Proof.
  intros delims stream tok H.
  destruct (emitted_tokens_ok _ _ _ H) as [[Hl Hn] Hs].
  split; [exact Hl|]. split; [exact Hn|].
  intros x Hx. specialize (Hs x Hx). unfold is_separator in Hs.
  rewrite <- is_delimiter_existsb in Hs.
  apply orb_false_iff in Hs. destruct Hs as [Hs Hcr].
  apply orb_false_iff in Hs. destruct Hs as [Hd Hlf].
  split; [exact Hd|].
  split; intros ->; [rewrite Ascii.eqb_refl in Hlf
                    |rewrite Ascii.eqb_refl in Hcr]; discriminate.
Qed.

Lemma tokens_are_admissible_words_witness :
  let tok := str "world" in
  (length tok < MAX_WORD_LEN)%nat /\ ~ In NUL tok /\
  forall x, In x tok ->
            is_delimiter x (str " ,") = false /\ x <> LF /\ x <> CR.
Proof.
  intros tok.
  apply (tokens_are_admissible_words (str " ,")
           (str "Hello, world") tok).
  vm_compute. right. left. reflexivity.
Defined.

Lemma emitted_tokens_app delims s1 c s2 :
  is_separator delims c = true ->
  emitted_tokens delims (s1 ++ c :: s2)
  = emitted_tokens delims s1 ++ emitted_tokens delims s2.
Proof.
  intros Hc. unfold emitted_tokens. fold snoc. unfold scan_bytes.
  rewrite fold_left_app. cbn [fold_left].
  destruct (fold_left (scan_byte snoc delims) s1 ([], [])) as [acc1 w1].
  rewrite scan_byte_cases, Hc.
  assert (E : (match w1 with
               | [] => (acc1, [])
               | _ => (snoc acc1 (cstr w1), [])
               end : list cstring * list ascii)
              = (scan_end snoc (acc1, w1), [])).
  { unfold scan_end. cbn [fst snd]. now destruct w1. }
  rewrite E.
  pose proof (scan_bytes_acc delims s2 (scan_end snoc (acc1, w1)) []) as A.
  unfold scan_bytes in A. rewrite A.
  destruct (fold_left (scan_byte snoc delims) s2 ([], [])) as [acc2 w2].
  unfold scan_end at 1 3. cbn [fst snd].
  destruct w2; [reflexivity|]. unfold snoc. now rewrite <- app_assoc.
Qed.

Lemma separator_byte delims c :
  is_delimiter c delims = true \/ c = LF \/ c = CR ->
  is_separator delims c = true.
Proof.
  intros H. unfold is_separator. rewrite <- is_delimiter_existsb.
  destruct H as [-> | [-> | ->]]; [reflexivity| |].
  - rewrite Ascii.eqb_refl. now rewrite orb_true_r.
  - rewrite Ascii.eqb_refl. now rewrite !orb_true_r.
Qed.

Lemma emitted_tokens_separators delims stream :
  (forall x, In x stream -> is_separator delims x = true) ->
  emitted_tokens delims stream = [].
Proof.
  induction stream as [|c stream IH]; intros H; [reflexivity|].
  change (c :: stream) with ([] ++ c :: stream).
  rewrite emitted_tokens_app by (apply H; now left).
  rewrite IH by (intros x Hx; apply H; now right). reflexivity.
Qed.

(** X11.  A file that holds no byte, or only delimiters, newlines and
    carriage returns, gives no word: both programs return for it a table
    without entries. *)
Theorem separators_only_give_empty_table :
  forall (delims : cstring) (content : list ascii) (read_error : bool),
    (forall x, In x content ->
               is_delimiter x delims = true \/ x = LF \/ x = CR) ->
    emitted_tokens delims content = [] /\
    Omp.process_file_sync (Readable content read_error) delims
    = Some (Omp.create_hashmap HASH_TABLE_SIZE) /\
    Mpi.process_file (Readable content false) delims
    = Some (Mpi.create_hashmap HASH_TABLE_SIZE).
Proof.
  intros delims content read_error H.
  assert (E : emitted_tokens delims content = []).
  { apply emitted_tokens_separators. intros x Hx.
    now apply separator_byte, H. }
  split; [exact E|]. split.
  - now rewrite omp_process_file_sync_tokens, E.
  - now rewrite mpi_process_file_tokens, E.
Qed.

Lemma separators_only_give_empty_table_witness :
  let content := str " , " ++ [LF; CR] in
  emitted_tokens (str " ,") content = [] /\
  Omp.process_file_sync (Readable content false) (str " ,")
  = Some (Omp.create_hashmap HASH_TABLE_SIZE) /\
  Mpi.process_file (Readable content false) (str " ,")
  = Some (Mpi.create_hashmap HASH_TABLE_SIZE).
Proof.
  intros content.
  apply (separators_only_give_empty_table (str " ,") content false).
  intros x Hx. simpl in Hx.
  destruct Hx as [<-|[<-|[<-|[<-|[<-|[]]]]]]; auto.
Defined.

(** X12.  The tokenizer can be run piecewise: the words of a stream cut
    at a delimiter, newline or carriage return are the words of the part
    before the cut followed by the words of the part after it. *)
Theorem tokens_split_at_separator :
  forall (delims : cstring) (s1 s2 : list ascii) (c : ascii),
    is_delimiter c delims = true \/ c = LF \/ c = CR ->
    emitted_tokens delims (s1 ++ c :: s2)
    = emitted_tokens delims s1 ++ emitted_tokens delims s2.
Proof.
  intros delims s1 s2 c H. now apply emitted_tokens_app, separator_byte.
Qed.

Lemma tokens_split_at_separator_witness :
  emitted_tokens (str " ") (str "to be" ++ LF :: str "or not")
  = emitted_tokens (str " ") (str "to be")
    ++ emitted_tokens (str " ") (str "or not").
Proof.
  apply (tokens_split_at_separator (str " ") (str "to be") (str "or not")
           LF).
  right. left. reflexivity.
Defined.

Lemma mpi_tokens_table delims content :
  let t := fold_left Mpi.insert_word (emitted_tokens delims content)
                     (Mpi.create_hashmap HASH_TABLE_SIZE) in
  mpi_ext (no_separator delims)
          (Z.of_nat (length (emitted_tokens delims content))) t /\
  forall k,
    total (mpi_contents t) k
    = total (word_units (emitted_tokens delims content)) k.
Proof. exact (mpi_file_table delims (Readable content false)). Qed.

(** X13.  A file cut at a delimiter, newline or carriage return can be
    processed in two pieces: in the distributed program the table of the
    whole file holds the same (case-folded word, count) pairs as the merge
    of the tables of the two pieces. *)
Theorem mpi_process_file_piecewise :
  forall (delims : cstring) (s1 s2 : list ascii) (c : ascii),
    is_delimiter c delims = true \/ c = LF \/ c = CR ->
    exists t t1 t2,
      Mpi.process_file (Readable (s1 ++ c :: s2) false) delims = Some t /\
      Mpi.process_file (Readable s1 false) delims = Some t1 /\
      Mpi.process_file (Readable s2 false) delims = Some t2 /\
      Permutation (mpi_contents t)
                  (mpi_contents (Mpi.merge_hashmaps t1 t2)).
Proof.
  intros delims s1 s2 c H.
  rewrite !mpi_process_file_tokens. eexists _, _, _.
  split; [reflexivity|]. split; [reflexivity|]. split; [reflexivity|].
  destruct (mpi_tokens_table delims (s1 ++ c :: s2)) as [[W _] T].
  destruct (mpi_tokens_table delims s1) as [[W1 _] T1].
  destruct (mpi_tokens_table delims s2) as [[W2 _] T2].
  apply mpi_contents_perm; [exact W|now apply mpi_merge_wf|].
  intros k. rewrite mpi_merge_total, T, T1, T2 by assumption.
  rewrite (emitted_tokens_app delims s1 c s2 (separator_byte _ _ H)).
  now rewrite word_units_app, total_app.
Qed.

Lemma mpi_process_file_piecewise_witness :
  exists t t1 t2,
    Mpi.process_file (Readable (str "to be" ++ LF :: str "or not To be")
                               false) (str " ")
    = Some t /\
    Mpi.process_file (Readable (str "to be") false) (str " ") = Some t1 /\
    Mpi.process_file (Readable (str "or not To be") false) (str " ")
    = Some t2 /\
    Permutation (mpi_contents t)
                (mpi_contents (Mpi.merge_hashmaps t1 t2)).
Proof.
  apply (mpi_process_file_piecewise (str " ") (str "to be")
           (str "or not To be") LF).
  right. left. reflexivity.
Defined.

(** X14.  The table of one file: both programs build the same table from
    the bytes of a file (the shared-memory program also when the read
    fails); it satisfies the invariant of the data model, the count of
    every case-folded key is the number of the file's words with that key,
    the counts add up to the number of words, and [items] is at most that
    number. *)
Theorem file_table_counts_every_word :
  forall (content : list ascii) (read_error : bool) (delims : cstring),
    exists to tm,
      Omp.process_file_sync (Readable content read_error) delims = Some to /\
      Mpi.process_file (Readable content false) delims = Some tm /\
      omp_view to = tm /\
      mpi_wf tm /\
      (forall k,
          total (mpi_contents tm) k
          = occurrences k (emitted_tokens delims content)) /\
      mass (mpi_listing tm)
      = Z.of_nat (length (emitted_tokens delims content)) /\
      Mpi.items tm <= Z.of_nat (length (emitted_tokens delims content)).
Proof.
  intros content read_error delims.
  rewrite omp_process_file_sync_tokens, mpi_process_file_tokens.
  eexists _, _. split; [reflexivity|]. split; [reflexivity|].
  destruct (mpi_tokens_table delims content) as [(W & _ & M) T].
  split; [|split; [exact W|split; [|split; [exact M|]]]].
  - rewrite omp_insert_all_view, omp_create_view; [reflexivity|].
    intros w Hw. now apply (emitted_tokens_ok delims content).
  - intros k. now rewrite T, total_word_units.
  - rewrite (mpi_wf_items _ W), <- M. now apply mpi_mass_bounds.
Qed.

(** ** Serialization *)

(** X15.  On a table that satisfies the invariant and that the wire
    format can carry, [serialize_hashmap] aborts exactly when its size
    check fails ([items * 112 > MAX_BUFFER_SIZE]): the overflow check
    inside its loop never fires.  When it does not abort, the length that
    it reports is the number of bytes of the buffer, at least 1 and at most
    [111 * items + 1]. *)
Theorem mpi_serialize_aborts_on_size_only :
  forall t : Mpi.HashMap,
    mpi_wf t -> mpi_wire_ok t ->
    (Mpi.serialize_hashmap t = None
     <-> MAX_BUFFER_SIZE < Mpi.items t * 112) /\
    forall buffer length,
      Mpi.serialize_hashmap t = Some (buffer, length) ->
      length = Z.of_nat (List.length buffer) /\
      1 <= length <= 111 * Mpi.items t + 1.
Proof.
  intros t W K.
  destruct (Z_lt_le_dec MAX_BUFFER_SIZE (Mpi.items t * 112)) as [Hgt|Hle].
  - assert (N : Mpi.serialize_hashmap t = None).
    { unfold Mpi.serialize_hashmap.
      change (Z.of_nat MAX_WORD_LEN + 12) with 112.
      replace (Mpi.items t * 112 >? MAX_BUFFER_SIZE) with true;
        [reflexivity|].
      symmetry. rewrite Z.gtb_ltb. now apply Z.ltb_lt. }
    split; [tauto|]. intros buffer length S. rewrite N in S. discriminate.
  - pose proof (mpi_serialize_ok t W K Hle) as S.
    pose proof (mpi_node_ranges t W K) as R.
    split.
    + split; [rewrite S; discriminate|lia].
    + intros buffer length S'. rewrite S in S'.
      rewrite (mpi_wf_items _ W).
      destruct (Mpi.entries t) as [|node nodes] eqn:E.
      * injection S' as <- <-. cbn [List.length]. lia.
      * injection S' as <- <-. split; [reflexivity|].
        assert (L1 : (2 <= List.length (Mpi.record node))%nat)
          by (apply record_length; apply (R node); now left).
        assert (L2 : (List.length
                        (concat (List.map Mpi.record (node :: nodes)))
                      <= 111 * List.length (node :: nodes))%nat).
        { apply records_length. intros n Hn.
          apply record_length; now apply (R n). }
        cbn [List.map concat] in *. rewrite length_app in *. lia.
Qed.

Lemma mpi_serialize_aborts_on_size_only_witness :
  let t := Mpi.insert_times (Mpi.create_hashmap HASH_TABLE_SIZE)
                            (str "apple") 3 in
  (Mpi.serialize_hashmap t = None
   <-> MAX_BUFFER_SIZE < Mpi.items t * 112) /\
  forall buffer length,
    Mpi.serialize_hashmap t = Some (buffer, length) ->
    length = Z.of_nat (List.length buffer) /\
    1 <= length <= 111 * Mpi.items t + 1.
Proof.
  intros t. apply (mpi_serialize_aborts_on_size_only t).
  - apply mpi_insert_times_wf; [|word_ok_tac].
    apply mpi_create_wf. reflexivity.
  - intros node Hn. vm_compute in Hn.
    repeat destruct Hn as [Hn|Hn]; try contradiction; subst node;
      (split; [not_in_tac|split; [not_in_tac|reflexivity]]).
Defined.

(** X16.  Receiving a serialized table has exactly the effect of merging
    it: for a table that satisfies the invariant and that the wire format
    can carry, [deserialize_hashmap] applied to any destination table and
    the bytes that [serialize_hashmap] produced returns the table that
    [merge_hashmaps] returns for the destination and the table itself. *)
Theorem mpi_deserialize_is_merge :
  forall (t dest : Mpi.HashMap) (buffer : list ascii) (length : Z),
    mpi_wf t -> mpi_wire_ok t ->
    Mpi.serialize_hashmap t = Some (buffer, length) ->
    Mpi.deserialize_hashmap dest buffer length = Mpi.merge_hashmaps dest t.
Proof.
  intros t dest buffer length W K S.
  now apply mpi_deserialize_serialized.
Qed.

Lemma mpi_deserialize_is_merge_witness :
  let t := Mpi.insert_times (Mpi.create_hashmap HASH_TABLE_SIZE)
                            (str "apple") 3 in
  let dest := Mpi.insert_word (Mpi.create_hashmap HASH_TABLE_SIZE)
                              (str "Apple") in
  Mpi.deserialize_hashmap dest (str "apple:3" ++ [LF]) 8
  = Mpi.merge_hashmaps dest t.
Proof.
  intros t dest.
  apply (mpi_deserialize_is_merge t dest (str "apple:3" ++ [LF]) 8).
  - apply mpi_insert_times_wf; [|word_ok_tac].
    apply mpi_create_wf. reflexivity.
  - intros node Hn. vm_compute in Hn.
    repeat destruct Hn as [Hn|Hn]; try contradiction; subst node;
      (split; [not_in_tac|split; [not_in_tac|reflexivity]]).
  - vm_compute. reflexivity.
Defined.

(** ** Ranking *)

(** X17.  The ranker of the distributed program: the lines that
    [print_results] prints are the first [top_n] of a rearrangement of the
    table's entries sorted by count descending, ties broken by the
    ascending byte order of the case-folded words; it prints at most
    [top_n] lines, and none when [top_n] is zero or negative. *)
Theorem mpi_print_results_sorted :
  forall (t : Mpi.HashMap) (top_n : Z),
    mpi_wf t ->
    exists ranked,
      Permutation ranked (mpi_listing t) /\
      StronglySorted rank_le ranked /\
      Mpi.print_results t top_n = firstn (Z.to_nat top_n) ranked /\
      (length (Mpi.print_results t top_n) <= Z.to_nat top_n)%nat /\
      (top_n <= 0 -> Mpi.print_results t top_n = []).
Proof.
  intros t top_n W. now apply mpi_print_results_ranked.
Qed.

Lemma mpi_print_results_sorted_witness :
  let t := fold_left Mpi.insert_word
                     [str "pear"; str "Apple"; str "fig"; str "apple"]
                     (Mpi.create_hashmap HASH_TABLE_SIZE) in
  exists ranked,
    Permutation ranked (mpi_listing t) /\
    StronglySorted rank_le ranked /\
    Mpi.print_results t 2 = firstn (Z.to_nat 2) ranked /\
    (length (Mpi.print_results t 2) <= Z.to_nat 2)%nat /\
    (2 <= 0 -> Mpi.print_results t 2 = []).
Proof.
  intros t. apply (mpi_print_results_sorted t 2).
  apply mpi_insert_all; [apply mpi_create_wf; reflexivity|].
  intros w Hw; simpl in Hw.
  destruct Hw as [<-|[<-|[<-|[<-|[]]]]]; word_ok_tac.
Defined.

Lemma omp_items_entries t :
  omp_wfx t ->
  firstn (Z.to_nat (Omp.items t)) (Omp.entries t) = Omp.entries t.
Proof.
  intros W. pose proof (inv_items _ _ _ W) as It.
  rewrite omp_view_entries, length_map in It.
  cbn [omp_view Mpi.items] in It.
  now rewrite It, Nat2Z.id, firstn_all.
Qed.

Lemma rank_le_verbatim_folded p q :
  fold_case (fst p) = fst p -> fold_case (fst q) = fst q ->
  rank_le_verbatim p q -> rank_le p q.
Proof.
  unfold rank_le, rank_le_verbatim. intros -> ->. tauto.
Qed.

(** X18.  The ranker of the shared-memory program: the lines that
    [print_results] prints are the first [top_n] of a rearrangement of the
    table's entries sorted by count descending, ties broken by the
    ascending byte order of the words as they are spelled; it prints at
    most [top_n] lines, and none when [top_n] is zero or negative.  When
    all the words of the table are in lower case, this is the order of the
    case-folded words. *)
Theorem omp_print_results_sorted :
  forall (t : Omp.HashMap) (top_n : Z),
    omp_wfx t ->
    exists ranked,
      Permutation ranked (omp_listing t) /\
      StronglySorted rank_le_verbatim ranked /\
      Omp.print_results t top_n = firstn (Z.to_nat top_n) ranked /\
      (length (Omp.print_results t top_n) <= Z.to_nat top_n)%nat /\
      (top_n <= 0 -> Omp.print_results t top_n = []) /\
      (omp_folded t -> StronglySorted rank_le ranked).
Proof.
  intros t top_n W. unfold Omp.print_results.
  rewrite (omp_items_entries t W).
  set (words := List.map omp_freq (Omp.entries t)).
  assert (HP : Forall (fun w => nul_free (Omp.freq_word w)) words).
  { apply Forall_forall. intros w Hw. apply in_map_iff in Hw.
    destruct Hw as (n & <- & Hn). now apply (omp_wfx_nodes t W). }
  assert (HQ : Forall (fun w => nul_free (Omp.freq_word w))
                      (qsort Omp.compare_words words))
    by now apply (Permutation_Forall
                    (Permutation_sym (qsort_perm Omp.compare_words _))).
  assert (Sv : StronglySorted rank_le_verbatim
                 (List.map omp_freq_pair (qsort Omp.compare_words words))).
  { apply (StronglySorted_map
             (compar_le Omp.compare_words) rank_le_verbatim omp_freq_pair
             (fun w => nul_free (Omp.freq_word w))); [|exact HQ|].
    - intros a b Ha Hb H. now apply omp_compare_rank.
    - apply (qsort_sorted Omp.compare_words
                          (fun w => nul_free (Omp.freq_word w))); auto.
      + apply omp_compare_total.
      + apply omp_compare_trans. }
  assert (Pm : Permutation
                 (List.map omp_freq_pair (qsort Omp.compare_words words))
                 (omp_listing t)).
  { unfold omp_listing.
    replace (List.map (fun n => (Omp.word n, Omp.count n)) (Omp.entries t))
      with (List.map omp_freq_pair words)
      by (unfold words; now rewrite map_map).
    apply Permutation_map, qsort_perm. }
  exists (List.map omp_freq_pair (qsort Omp.compare_words words)).
  split; [exact Pm|]. split; [exact Sv|]. split; [|split; [|split]].
  - fold omp_freq. fold words. now rewrite firstn_map.
  - rewrite length_map. apply firstn_le_length.
  - intros Hn. replace (Z.to_nat top_n) with 0%nat by lia. reflexivity.
  - intros Hf.
    rewrite <- (map_id (List.map omp_freq_pair
                                 (qsort Omp.compare_words words))).
    apply (StronglySorted_map
             rank_le_verbatim rank_le (fun p => p)
             (fun p => fold_case (fst p) = fst p)); [| |exact Sv].
    + intros a b Ha Hb H. now apply rank_le_verbatim_folded.
    + apply (Permutation_Forall (Permutation_sym Pm)).
      apply Forall_forall. intros [w c] Hp.
      destruct (omp_listing_in _ _ _ Hp) as (n & Hn & <- & _).
      cbn [fst]. now apply Hf.
Qed.

Lemma omp_print_results_sorted_witness :
  let t := fold_left Omp.insert_word
                     [str "pear"; str "apple"; str "fig"; str "apple"]
                     (Omp.create_hashmap HASH_TABLE_SIZE) in
  exists ranked,
    Permutation ranked (omp_listing t) /\
    StronglySorted rank_le_verbatim ranked /\
    Omp.print_results t 2 = firstn (Z.to_nat 2) ranked /\
    (length (Omp.print_results t 2) <= Z.to_nat 2)%nat /\
    (2 <= 0 -> Omp.print_results t 2 = []) /\
    (omp_folded t -> StronglySorted rank_le ranked).
Proof.
  intros t. apply (omp_print_results_sorted t 2).
  apply omp_inv_wfx, omp_insert_all_inv;
    [apply omp_create_inv; reflexivity|].
  intros w Hw; simpl in Hw.
  destruct Hw as [<-|[<-|[<-|[<-|[]]]]]; word_ok_tac.
Defined.

Lemma nodup_map_inj {A B} (f : A -> B) l a b :
  NoDup (List.map f l) -> In a l -> In b l -> f a = f b -> a = b.
Proof.
  induction l as [|x l IH]; intros N Ha Hb E; [destruct Ha|].
  cbn [List.map] in N. inversion N as [|? ? Hnin N']; subst.
  destruct Ha as [->|Ha], Hb as [->|Hb]; auto.
  - exfalso. apply Hnin. rewrite E. now apply in_map.
  - exfalso. apply Hnin. rewrite <- E. now apply in_map.
Qed.

Lemma mpi_entries_of_listing t :
  List.map (fun p => Mpi.mkNode (fst p) (snd p)) (mpi_listing t)
  = Mpi.entries t.
Proof.
  unfold mpi_listing. rewrite map_map. cbn [fst snd].
  rewrite <- (map_id (Mpi.entries t)) at 2.
  apply map_ext. now intros [w c].
Qed.

Lemma mpi_print_results_perm t1 t2 top_n :
  mpi_wf t1 -> mpi_wf t2 ->
  Permutation (mpi_listing t1) (mpi_listing t2) ->
  Mpi.print_results t1 top_n = Mpi.print_results t2 top_n.
Proof.
  intros W1 W2 P. unfold Mpi.print_results.
  rewrite !mpi_print_results_words by assumption. do 2 f_equal.
  apply (qsort_perm_eq Mpi.compare_words
           (fun n => In n (Mpi.entries t1))).
  - intros a b Ha Hb.
    apply mpi_compare_total; now apply (mpi_wf_words _ W1).
  - intros a b c Ha Hb Hc.
    apply mpi_compare_trans; now apply (mpi_wf_words _ W1).
  - intros a b Ha Hb H1 H2.
    apply mpi_compare_rank in H1; [|now apply (mpi_wf_words _ W1)].
    apply mpi_compare_rank in H2; [|now apply (mpi_wf_words _ W1)].
    pose proof (rank_le_antisym _ _ H1 H2) as E.
    unfold fold_key, mpi_pair in E. cbn [fst snd] in E.
    injection E as Ew Ec.
    pose proof (nodup_map_inj _ _ a b (mpi_wf_nodup _ W1) Ha Hb Ew) as E.
    exact E.
  - now apply Forall_forall.
  - rewrite <- !mpi_entries_of_listing. now apply Permutation_map.
Qed.

(** X19.  What [print_results] prints depends only on the entries of the
    table, not on the size of its bucket array nor on the order of the
    nodes in the buckets: in both programs, two tables that satisfy the
    invariant and hold the same (spelling, count) pairs print the same
    lines. *)
Theorem print_results_ignores_layout :
  forall (tm1 tm2 : Mpi.HashMap) (to1 to2 : Omp.HashMap) (top_n : Z),
    (mpi_wf tm1 -> mpi_wf tm2 ->
     Permutation (mpi_listing tm1) (mpi_listing tm2) ->
     Mpi.print_results tm1 top_n = Mpi.print_results tm2 top_n) /\
    (omp_wfx to1 -> omp_wfx to2 ->
     Permutation (omp_listing to1) (omp_listing to2) ->
     Omp.print_results to1 top_n = Omp.print_results to2 top_n).
Proof.
  intros tm1 tm2 to1 to2 top_n. split.
  - apply mpi_print_results_perm.
  - apply omp_print_results_perm.
Qed.

Lemma print_results_ignores_layout_witness :
  let ws := [str "pear"; str "Apple"; str "fig"; str "apple"] in
  let tm1 := fold_left Mpi.insert_word ws
                       (Mpi.create_hashmap HASH_TABLE_SIZE) in
  let tm2 := fold_left Mpi.insert_word ws (Mpi.create_hashmap 1) in
  let to1 := fold_left Omp.insert_word ws
                       (Omp.create_hashmap HASH_TABLE_SIZE) in
  let to2 := fold_left Omp.insert_word ws (Omp.create_hashmap 1) in
  Mpi.print_results tm1 3 = Mpi.print_results tm2 3 /\
  Omp.print_results to1 3 = Omp.print_results to2 3.
Proof.
  intros ws tm1 tm2 to1 to2.
  assert (Hws : forall w, In w ws -> word_ok w).
  { intros w Hw; simpl in Hw.
    destruct Hw as [<-|[<-|[<-|[<-|[]]]]]; word_ok_tac. }
  destruct (print_results_ignores_layout tm1 tm2 to1 to2 3) as [Pm Po].
  split.
  - apply Pm.
    + apply mpi_insert_all; [apply mpi_create_wf; reflexivity|exact Hws].
    + apply mpi_insert_all; [apply mpi_create_wf; reflexivity|exact Hws].
    + assert (E1 : mpi_listing tm1
                   = [(str "pear", 1); (str "fig", 1); (str "Apple", 2)])
        by (vm_compute; reflexivity).
      assert (E2 : mpi_listing tm2
                   = [(str "fig", 1); (str "Apple", 2); (str "pear", 1)])
        by (vm_compute; reflexivity).
      rewrite E1, E2.
      apply (Permutation_cons_append
               [(str "fig", 1); (str "Apple", 2)] (str "pear", 1)).
  - apply Po.
    + apply omp_inv_wfx, omp_insert_all_inv;
        [apply omp_create_inv; reflexivity|exact Hws].
    + apply omp_inv_wfx, omp_insert_all_inv;
        [apply omp_create_inv; reflexivity|exact Hws].
    + assert (E1 : omp_listing to1
                   = [(str "pear", 1); (str "fig", 1); (str "Apple", 2)])
        by (vm_compute; reflexivity).
      assert (E2 : omp_listing to2
                   = [(str "fig", 1); (str "Apple", 2); (str "pear", 1)])
        by (vm_compute; reflexivity).
      rewrite E1, E2.
      apply (Permutation_cons_append
               [(str "fig", 1); (str "Apple", 2)] (str "pear", 1)).
Defined.

(** ** A run of the distributed program *)

Lemma StronglySorted_firstn {A} (R : A -> A -> Prop) l : forall n,
  StronglySorted R l -> StronglySorted R (firstn n l).
Proof.
  induction l as [|x l IH]; intros [|n] S; cbn [firstn];
    try constructor.
  - apply IH. now inversion S.
  - inversion S as [|? ? _ F]; subst. rewrite Forall_forall in *.
    intros y Hy. apply F. now apply (in_firstn y n).
Qed.

Lemma NoDup_firstn {A} (l : list A) n : NoDup l -> NoDup (firstn n l).
Proof.
  intros N. rewrite <- (firstn_skipn n l) in N.
  now apply NoDup_app_remove_r in N.
Qed.

Lemma occurrences_pos tok ws :
  In tok ws -> 0 < occurrences (fold_case tok) ws.
Proof.
  intros H. unfold occurrences.
  assert (In tok (filter (fun w => cstring_eqb (fold_case w)
                                               (fold_case tok)) ws))
    as Hin by (apply filter_In; split; [exact H|apply cstring_eqb_refl]).
  destruct (filter _ ws); [destruct Hin|]. cbn [length]. lia.
Qed.

(** X20.  A run of the distributed program that stays within its buffer
    bounds counts every word of every file once, whatever the number of
    processes: it prints at most 10 lines, sorted by count descending and
    then by case-folded word, no two for the same case-folded word; the
    count printed for a word is the number of words with the same
    case-folded form in all the files that were read; and when fewer than
    10 lines are printed, every word of the files has its line. *)
Theorem mpi_main_counts_every_word :
  forall (files : list file) (size : nat),
    files <> [] -> (0 < size)%nat ->
    112 * Z.of_nat (length (mpi_tokens files)) + Z.of_nat size
    <= MAX_BUFFER_SIZE ->
    exists ranked,
      Mpi.main files size = Some ranked /\
      (length ranked <= 10)%nat /\
      StronglySorted rank_le ranked /\
      NoDup (List.map (fun p => fold_case (fst p)) ranked) /\
      (forall w c, In (w, c) ranked ->
                   0 < c /\ c = occurrences (fold_case w) (mpi_tokens files))
      /\
      ((length ranked < 10)%nat ->
       forall tok, In tok (mpi_tokens files) ->
                   exists w c, In (w, c) ranked /\
                               fold_case w = fold_case tok).
Proof.
  intros files size Hf Hs Hb.
  destruct (mpi_main_result files size Hf Hs Hb) as (g & Mg & W & T).
  destruct (mpi_print_results_ranked g 10 W)
    as (ranked & P & Srt & E & L & _).
  assert (Cnt : forall w c, In (w, c) ranked ->
                  0 < c /\ c = occurrences (fold_case w) (mpi_tokens files)).
  { intros w c H. apply (Permutation_in _ P) in H.
    assert (In (fold_case w, c) (mpi_contents g)) as Hc
      by (unfold mpi_contents;
          apply (in_map fold_key (mpi_listing g) (w, c)); exact H).
    apply (mpi_contents_lookup g _ _ W) in Hc.
    now rewrite T, total_word_units in Hc. }
  exists (Mpi.print_results g 10). split; [exact Mg|].
  split; [exact L|]. rewrite E. split; [|split; [|split]].
  - now apply StronglySorted_firstn.
  - rewrite <- firstn_map. apply NoDup_firstn.
    apply (Permutation_NoDup
             (Permutation_sym
                (Permutation_map (fun p => fold_case (fst p)) P))).
    unfold mpi_listing. rewrite map_map. cbn [fst].
    apply (mpi_wf_nodup _ W).
  - intros w c H. apply Cnt. now apply (in_firstn _ (Z.to_nat 10)).
  - intros Hlt tok Htok. rewrite length_firstn in Hlt.
    rewrite firstn_all2 by lia.
    pose proof (occurrences_pos tok _ Htok) as Pos.
    rewrite <- total_word_units, <- T in Pos.
    destruct (total_present (mpi_contents g) (fold_case tok)) as [c Hc];
      [lia|].
    unfold mpi_contents in Hc. apply in_map_iff in Hc.
    destruct Hc as ([w c'] & Ek & Hin). unfold fold_key in Ek.
    cbn [fst snd] in Ek. injection Ek as Ew ->.
    exists w, c. split; [|exact Ew].
    now apply (Permutation_in _ (Permutation_sym P)).
Qed.

Lemma mpi_main_counts_every_word_witness :
  let files := [Readable (str "to be or") false; Unreadable;
                Readable (str "not To BE") false] in
  exists ranked,
    Mpi.main files 2 = Some ranked /\
    (length ranked <= 10)%nat /\
    StronglySorted rank_le ranked /\
    NoDup (List.map (fun p => fold_case (fst p)) ranked) /\
    (forall w c, In (w, c) ranked ->
                 0 < c /\ c = occurrences (fold_case w) (mpi_tokens files))
    /\
    ((length ranked < 10)%nat ->
     forall tok, In tok (mpi_tokens files) ->
                 exists w c, In (w, c) ranked /\
                             fold_case w = fold_case tok).
Proof.
  intros files. apply (mpi_main_counts_every_word files 2).
  - discriminate.
  - lia.
  - vm_compute. discriminate.
Defined.

Lemma mpi_tokens_read_ok files :
  mpi_tokens (filter read_ok files) = mpi_tokens files.
Proof.
  unfold mpi_tokens.
  induction files as [|f files IH]; [reflexivity|].
  cbn [filter flat_map].
  destruct f as [|content [|]]; cbn [read_ok flat_map mpi_file_tokens];
    rewrite IH; reflexivity.
Qed.

(** X21.  Files that cannot be opened or read do not change what a run
    of the distributed program counts: whenever a run on the whole command
    line and a run on the readable files alone both print a ranking, and
    the files hold fewer than [2 ^ 31] words, the two rankings are equal
    up to the case of the letters of the words, whatever the numbers of
    processes of the two runs. *)
Theorem mpi_main_skips_unreadable_files :
  forall (files : list file) (size size' : nat)
         (ranked readable : list (cstring * Z)),
    (0 < size)%nat -> (0 < size')%nat ->
    Z.of_nat (length (mpi_tokens files)) < 2 ^ 31 ->
    Mpi.main files size = Some ranked ->
    Mpi.main (filter read_ok files) size' = Some readable ->
    List.map fold_key ranked = List.map fold_key readable.
Proof.
  intros files size size' ranked readable Hs Hs' Hb M M'.
  apply (mpi_main_same_words files size ranked
           (filter read_ok files) size' readable); auto.
  apply mpi_tokens_read_ok.
Qed.

Lemma mpi_main_skips_unreadable_files_witness :
  let files := [Unreadable; Readable (str "Apple") false;
                Readable (str "apple") false;
                Readable (str "lost") true] in
  List.map fold_key [(str "apple", 2)]
  = List.map fold_key [(str "Apple", 2)].
Proof.
  intros files.
  apply (mpi_main_skips_unreadable_files files 2 1).
  - lia.
  - lia.
  - vm_compute. reflexivity.
  - vm_compute. reflexivity.
  - vm_compute. reflexivity.
Defined.

(** ** Aggregation in the shared-memory program *)

Lemma omp_add_files_opens delims files : forall acc,
  fold_left (omp_add_file delims) files acc
  = fold_left (omp_add_file delims) (filter opens files) acc.
Proof.
  induction files as [|f files IH]; intros acc; [reflexivity|].
  cbn [filter fold_left]. destruct f as [|content e]; cbn [opens].
  - unfold omp_add_file at 2. cbn [Omp.process_file_sync]. apply IH.
  - cbn [fold_left]. apply IH.
Qed.

(** X22.  A file that cannot be opened is skipped by the shared-memory
    program: [process_files_sync] returns the very table that it returns
    for the files that open, and for every legal schedule of the parallel
    region the ranking printed for [process_files_parallel] is the ranking
    of that table. *)
Theorem omp_skips_files_that_do_not_open :
  forall (files : list file) (delims : cstring)
         (schedule : list (list nat)) (num_threads : nat) (top_n : Z),
    Omp.process_files_sync files delims
    = Omp.process_files_sync (filter opens files) delims /\
    (Omp.schedule_of (length files) num_threads schedule ->
     Omp.print_results
       (Omp.process_files_parallel files delims schedule) top_n
     = Omp.print_results
         (Omp.process_files_sync (filter opens files) delims) top_n).
Proof.
  intros files delims schedule num_threads top_n.
  assert (E : Omp.process_files_sync files delims
              = Omp.process_files_sync (filter opens files) delims)
    by apply (omp_add_files_opens delims files).
  split; [exact E|]. intros Hs. rewrite <- E.
  now apply (omp_partition_invariance files delims schedule num_threads).
Qed.

Lemma omp_skips_files_that_do_not_open_witness :
  let files := [Readable (str "to be") false; Unreadable;
                Readable (str "or not") false] in
  Omp.process_files_sync files (str " ")
  = Omp.process_files_sync (filter opens files) (str " ") /\
  Omp.print_results
    (Omp.process_files_parallel files (str " ")
                                [[2%nat]; [1%nat; 0%nat]]) 10
  = Omp.print_results
      (Omp.process_files_sync (filter opens files) (str " ")) 10.
Proof.
  intros files.
  destruct (omp_skips_files_that_do_not_open files (str " ")
              [[2%nat]; [1%nat; 0%nat]] 2 10) as [E P].
  split; [exact E|]. apply P. split; [reflexivity|]. simpl.
  apply Permutation_sym, (Permutation_rev [0%nat; 1%nat; 2%nat]).
Defined.

(** The table of a list of lower-case words. *)
Lemma omp_insert_all_folded ws :
  (forall w, In w ws -> word_ok w /\ fold_case w = w) ->
  let t := fold_left Omp.insert_word ws
                     (Omp.create_hashmap HASH_TABLE_SIZE) in
  omp_inv t /\ omp_folded t /\
  forall k, total (omp_listing t) k = total (word_units ws) k.
Proof.
  intros H t.
  assert (Hw : forall w, In w ws -> word_ok w) by (intros w Hw; now apply H).
  assert (V : omp_view t
              = fold_left Mpi.insert_word ws
                          (Mpi.create_hashmap HASH_TABLE_SIZE))
    by (unfold t; now rewrite omp_insert_all_view, omp_create_view).
  destruct (mpi_ext_insert_all (fun w => fold_case w = w) ws 0
              (Mpi.create_hashmap HASH_TABLE_SIZE)) as (W & Q & _);
    [apply mpi_ext_create; reflexivity|exact H|].
  rewrite <- V in W, Q.
  assert (F : omp_folded t).
  { intros n Hn. apply (Q (omp_node_view n)).
    rewrite omp_view_entries. now apply in_map. }
  split; [exact W|]. split; [exact F|]. intros k.
  rewrite <- (omp_folded_contents t F), omp_contents_view, V.
  destruct (mpi_insert_all ws (Mpi.create_hashmap HASH_TABLE_SIZE))
    as [_ T]; [apply mpi_create_wf; reflexivity|exact Hw|].
  now rewrite T, mpi_contents_create.
Qed.

Lemma omp_file_listing_tokens delims f k :
  (forall tok, In tok (omp_file_tokens delims f) -> fold_case tok = tok) ->
  total (omp_file_listing delims f) k
  = total (word_units (omp_file_tokens delims f)) k.
Proof.
  intros H. unfold omp_file_listing.
  destruct f as [|content e]; [reflexivity|].
  rewrite omp_process_file_sync_tokens. cbn [omp_file_tokens] in *.
  apply omp_insert_all_folded. intros w Hw. split; [|now apply H].
  now apply (emitted_tokens_ok delims content).
Qed.

Lemma omp_files_listing_tokens delims files k :
  (forall f tok, In f files -> In tok (omp_file_tokens delims f) ->
                 fold_case tok = tok) ->
  total (flat_map (omp_file_listing delims) files) k
  = total (word_units (flat_map (omp_file_tokens delims) files)) k.
Proof.
  induction files as [|f files IH]; intros H; [reflexivity|].
  cbn [flat_map]. rewrite word_units_app, !total_app.
  rewrite omp_file_listing_tokens by (intros tok; apply H; now left).
  rewrite IH by (intros f' tok Hf; apply H; now right). reflexivity.
Qed.

Lemma omp_file_tokens_ok delims f tok :
  In tok (omp_file_tokens delims f) -> word_ok tok.
Proof.
  destruct f as [|content e]; cbn [omp_file_tokens]; [intros []|].
  intros H. now apply (emitted_tokens_ok delims content).
Qed.

(** X23.  On files whose words are all in lower case the shared-memory
    program aggregates as one table would: the table of
    [process_files_sync], and the table of [process_files_parallel] for
    every legal schedule, hold the same (word, count) pairs as the single
    table into which all the words of the files are inserted, and satisfy
    the invariant of the data model. *)
Theorem omp_lower_case_files_aggregate :
  forall (files : list file) (delims : cstring)
         (schedule : list (list nat)) (num_threads : nat),
    (forall f tok, In f files -> In tok (omp_file_tokens delims f) ->
                   fold_case tok = tok) ->
    Omp.schedule_of (length files) num_threads schedule ->
    let all := fold_left Omp.insert_word
                         (flat_map (omp_file_tokens delims) files)
                         (Omp.create_hashmap HASH_TABLE_SIZE) in
    Permutation (omp_listing (Omp.process_files_sync files delims))
                (omp_listing all) /\
    Permutation
      (omp_listing (Omp.process_files_parallel files delims schedule))
      (omp_listing all) /\
    omp_inv (Omp.process_files_sync files delims) /\
    omp_inv (Omp.process_files_parallel files delims schedule).
Proof.
  intros files delims schedule num_threads H [_ Sch] all.
  destruct (omp_insert_all_folded (flat_map (omp_file_tokens delims) files))
    as (Ia & Fa & Ta).
  { intros w Hw. apply in_flat_map in Hw. destruct Hw as (f & Hf & Hw).
    split; [now apply (omp_file_tokens_ok delims f)|now apply (H f)]. }
  fold all in Ia, Fa, Ta.
  destruct (omp_process_files_sync_total files delims) as [Ws Ts].
  destruct (omp_process_files_parallel_total files delims schedule)
    as [Wp Tp].
  assert (Ps : Permutation (omp_listing (Omp.process_files_sync files delims))
                           (omp_listing all)).
  { apply omp_listing_perm; [exact Ws|now apply omp_inv_wfx|].
    intros k. now rewrite Ts, Ta, omp_files_listing_tokens. }
  assert (Pp : Permutation
                 (omp_listing
                    (Omp.process_files_parallel files delims schedule))
                 (omp_listing all)).
  { apply omp_listing_perm; [exact Wp|now apply omp_inv_wfx|].
    intros k. rewrite Tp, Ta, <- omp_files_listing_tokens by exact H.
    apply total_perm, Permutation_flat_map.
    apply Permutation_trans
      with (List.map (fun i => nth i files Unreadable)
                     (seq 0 (length files))).
    - now apply Permutation_map.
    - now rewrite map_nth_seq. }
  assert (K : forall t, omp_wfx t ->
                Permutation (omp_listing t) (omp_listing all) ->
                omp_inv t).
  { intros t W P.
    assert (From : forall n, In n (Omp.entries t) ->
                     exists n', In n' (Omp.entries all)
                                /\ Omp.word n' = Omp.word n).
    { intros n Hn. apply omp_in_listing in Hn.
      apply (Permutation_in _ P) in Hn.
      destruct (omp_listing_in _ _ _ Hn) as (n' & Hn' & E & _). eauto. }
    apply omp_folded_inv; [exact W| |].
    - intros n Hn. destruct (From n Hn) as (n' & Hn' & <-).
      now apply (omp_inv_words all).
    - intros n Hn. destruct (From n Hn) as (n' & Hn' & <-).
      now apply Fa. }
  split; [exact Ps|]. split; [exact Pp|]. split; now apply K.
Qed.

Lemma omp_lower_case_files_aggregate_witness :
  let files := [Readable (str "to be or") false; Unreadable;
                Readable (str "not to be") false] in
  let schedule := [[2%nat]; [1%nat; 0%nat]] in
  let all := fold_left Omp.insert_word
                       (flat_map (omp_file_tokens (str " ")) files)
                       (Omp.create_hashmap HASH_TABLE_SIZE) in
  Permutation (omp_listing (Omp.process_files_sync files (str " ")))
              (omp_listing all) /\
  Permutation
    (omp_listing (Omp.process_files_parallel files (str " ") schedule))
    (omp_listing all) /\
  omp_inv (Omp.process_files_sync files (str " ")) /\
  omp_inv (Omp.process_files_parallel files (str " ") schedule).
Proof.
  intros files schedule.
  apply (omp_lower_case_files_aggregate files (str " ") schedule 2).
  - intros f tok Hf Htok. simpl in Hf.
    destruct Hf as [<-|[<-|[<-|[]]]]; vm_compute in Htok;
      repeat (destruct Htok as [<-|Htok]; [reflexivity|]);
      destruct Htok.
  - split; [reflexivity|]. simpl.
    apply Permutation_sym, (Permutation_rev [0%nat; 1%nat; 2%nat]).
Defined.

(** ** The command line of the shared-memory program *)

Lemma parse_post_prefix p args o o' r :
  (forall opts, option_prefix opts -> option_prefix (p ++ opts)) ->
  (0 < OmpMain.num_threads o -> 0 < OmpMain.num_threads o') ->
  (OmpMain.print_list o' = true ->
   OmpMain.print_list o = true \/
   exists a, In a p /\ option_letter a = Some "r"%char) ->
  (OmpMain.run_bench o' = true ->
   OmpMain.run_bench o = true \/
   exists a, In a p /\ option_letter a = Some "b"%char) ->
  parse_post args o' r -> parse_post (p ++ args) o r.
Proof.
  intros Ho Hn Hp Hb. destruct r as [code| |o'' fs]; cbn [parse_post].
  - intros [H|(H & x & Hx & L)]; [now left|].
    right. split; [exact H|]. exists x. split; [|exact L].
    apply in_or_app. now right.
  - intros (pre & x & -> & L). exists (p ++ pre), x.
    now rewrite app_assoc.
  - intros (opts & -> & Hpre & Hne & Hf & Tn & Tp & Tb).
    exists (p ++ opts). split; [now rewrite app_assoc|].
    split; [now apply Ho|].
    split; [exact Hne|]. split; [exact Hf|]. split; [tauto|]. split.
    + intros H. destruct (Tp H) as [H'|(x & Hx & L)].
      * destruct (Hp H') as [H''|(x & Hx & L)]; [now left|].
        right. exists x. split; [|exact L]. apply in_or_app. now left.
      * right. exists x. split; [|exact L]. apply in_or_app. now right.
    + intros H. destruct (Tb H) as [H'|(x & Hx & L)].
      * destruct (Hb H') as [H''|(x & Hx & L)]; [now left|].
        right. exists x. split; [|exact L]. apply in_or_app. now left.
      * right. exists x. split; [|exact L]. apply in_or_app. now right.
Qed.

Lemma parse_post_files args o :
  args <> [] -> is_option (hd [] args) = false ->
  parse_post args o (OmpMain.Files o args).
Proof.
  intros Hne Hf. exists []. cbn [app]. split; [reflexivity|].
  split; [constructor|]. tauto.
Qed.

Ltac parse_step IH :=
  match goal with
  | |- parse_post (?a :: ?rest) _ (OmpMain.parse ?rest ?o') =>
      apply (parse_post_prefix [a] rest _ o')
  | |- parse_post (?a :: ?v :: ?rest) _ (OmpMain.parse ?rest ?o') =>
      apply (parse_post_prefix [a; v] rest _ o')
  end;
  [intros ? ?; cbn [app]
  |cbn [OmpMain.num_threads]; try tauto
  |cbn [OmpMain.print_list]; try tauto
  |cbn [OmpMain.run_bench]; try tauto
  |apply IH; lia].

(** The option loop of [main], case by case. *)
Lemma omp_parse_cases n : forall args o,
  (length args <= n)%nat -> parse_post args o (OmpMain.parse args o).
Proof.
  induction n as [|n IH]; intros args o Hlen.
  - destruct args; [now left|simpl in Hlen; lia].
  - destruct args as [|arg rest]; [now left|].
    cbn [length] in Hlen. cbn [OmpMain.parse].
    destruct arg as [|c0 arg1];
      [apply parse_post_files; [discriminate|reflexivity]|].
    destruct (Ascii.eqb c0 "-"%char) eqn:E0; cbn [negb];
      [|apply parse_post_files; [discriminate|exact E0]].
    destruct arg1 as [|c1 arg2]; [now left|].
    assert (L : forall x, Ascii.eqb c1 x = true ->
                  option_letter (c0 :: c1 :: arg2) = Some x).
    { intros x Hx. cbn [option_letter]. rewrite E0.
      apply Ascii.eqb_eq in Hx. now subst. }
    destruct (Ascii.eqb c1 "d"%char) eqn:Ed.
    { destruct rest as [|value rest']; [now left|].
      cbn [length] in Hlen. parse_step IH.
      apply prefix_value; auto. }
    destruct (Ascii.eqb c1 "t"%char) eqn:Et.
    { destruct rest as [|value rest']; [now left|].
      cbn [length] in Hlen. parse_step IH.
      apply prefix_value; auto. }
    destruct (Ascii.eqb c1 "b"%char) eqn:Eb.
    { parse_step IH.
      - apply prefix_flag; auto.
      - intros _. right.
        exists (c0 :: c1 :: arg2). split; [now left|now apply L]. }
    destruct (Ascii.eqb c1 "r"%char) eqn:Er.
    { parse_step IH.
      - apply prefix_flag; auto.
      - intros _. right.
        exists (c0 :: c1 :: arg2). split; [now left|now apply L]. }
    destruct (Ascii.eqb c1 "n"%char) eqn:En.
    { destruct rest as [|value rest'].
      - exists [], (c0 :: c1 :: arg2). split; [reflexivity|now apply L].
      - cbn [length] in Hlen.
        destruct (atoi value <=? 0) eqn:Ea; [now left|].
        apply Z.leb_gt in Ea. parse_step IH.
        apply prefix_value; auto. }
    destruct (Ascii.eqb c1 "v"%char) eqn:Ev.
    { parse_step IH. apply prefix_flag; auto. }
    destruct (Ascii.eqb c1 "h"%char) eqn:Eh.
    { right. split; [reflexivity|].
      exists (c0 :: c1 :: arg2). split; [now left|now apply L]. }
    now left.
Qed.

(** X24.  When the option loop of [main] of the shared-memory program
    ends at the file names, the arguments before them are options and
    their values ([-b], [-r], [-v], and [-d], [-t], [-n] each followed by
    its value), and the file names start at the first argument after these
    that does not start with ['-']: there is at least one file name,
    whatever follows it is read as a file name, options included, and the
    number of threads is positive. *)
Theorem omp_main_file_arguments :
  forall (args : list cstring) (o : OmpMain.options)
         (filenames : list cstring),
    OmpMain.parse args OmpMain.defaults = OmpMain.Files o filenames ->
    (exists opts, args = opts ++ filenames /\ option_prefix opts) /\
    filenames <> [] /\
    is_option (hd [] filenames) = false /\
    0 < OmpMain.num_threads o.
Proof.
  intros args o filenames H.
  pose proof (omp_parse_cases (length args) args OmpMain.defaults
                ltac:(lia)) as P.
  rewrite H in P. destruct P as (opts & E & Hp & Hne & Hf & Tn & _).
  split; [now exists opts|]. split; [exact Hne|]. split; [exact Hf|].
  apply Tn. reflexivity.
Qed.

Lemma omp_main_file_arguments_witness :
  let args := [str "-n"; str "8"; str "-r"; str "a.txt"; str "-t";
               str "b.txt"] in
  let o := OmpMain.mkOptions (str " ,.!?;:") 10 false true 8 false in
  let filenames := [str "a.txt"; str "-t"; str "b.txt"] in
  (exists opts, args = opts ++ filenames /\ option_prefix opts) /\
  filenames <> [] /\
  is_option (hd [] filenames) = false /\
  0 < OmpMain.num_threads o.
Proof.
  intros args o filenames.
  apply (omp_main_file_arguments args o filenames).
  vm_compute. reflexivity.
Defined.

(** X25.  How [main] of the shared-memory program can end before it
    reads a file: it returns 0 only when an argument starts with [-h], and
    otherwise 1; and it calls [atoi] on the null pointer [argv[argc]] only
    when the last argument starts with [-n]. *)
Theorem omp_main_early_exits :
  forall (fs : cstring -> file) (schedule : list (list nat))
         (args : list cstring),
    (forall code,
        OmpMain.main fs schedule args = OmpMain.Returned code ->
        code = 1 \/
        (code = 0 /\
         exists a, In a args /\ option_letter a = Some "h"%char)) /\
    (OmpMain.main fs schedule args = OmpMain.UndefinedBehaviour ->
     exists pre a, args = pre ++ [a] /\ option_letter a = Some "n"%char).
Proof.
  intros fs schedule args.
  pose proof (omp_parse_cases (length args) args OmpMain.defaults
                ltac:(lia)) as P.
  unfold OmpMain.main.
  destruct (OmpMain.parse args OmpMain.defaults) as [code| |o filenames].
  - split; [|discriminate]. intros code' E. injection E as <-. exact P.
  - split; [discriminate|]. intros _. exact P.
  - split; [intros code|]; destruct (OmpMain.run_bench o); discriminate.
Qed.

Lemma omp_main_early_exits_witness :
  let fs := fun _ : cstring => Unreadable in
  (OmpMain.main fs [] [str "-v"; str "-help"] = OmpMain.Returned 0 ->
   0 = 1 \/
   (0 = 0 /\
    exists a, In a [str "-v"; str "-help"]
              /\ option_letter a = Some "h"%char)) /\
  (OmpMain.main fs [] [str "-r"; str "-n"] = OmpMain.UndefinedBehaviour ->
   exists pre a, [str "-r"; str "-n"] = pre ++ [a]
                 /\ option_letter a = Some "n"%char).
Proof.
  intros fs. split.
  - apply (omp_main_early_exits fs [] [str "-v"; str "-help"]).
  - apply (omp_main_early_exits fs [] [str "-r"; str "-n"]).
Defined.



(** ** The assignment of the files to the processes *)

Lemma combine_seq_index {A} (files : list A) : forall s p,
  In p (combine (seq s (length files)) files) ->
  (s <= fst p < s + length files)%nat.
Proof.
  induction files as [|f files IH]; intros s p H; [destruct H|].
  cbn [length seq combine] in H. destruct H as [<-|H].
  - cbn [fst length]. lia.
  - apply IH in H. cbn [length]. lia.
Qed.

(** X27.  The loop [for (i = rank; i < argc - 1; i += size)] deals the
    files out: over the ranks of a run every file of the command line is
    assigned once, and a rank that is not smaller than the number of files
    gets no file and sends the one-byte sentinel. *)
Theorem mpi_files_are_assigned_once :
  forall (files : list file) (size : nat),
    (0 < size)%nat ->
    Permutation
      (concat (List.map (fun rank => Mpi.assigned rank size files)
                        (seq 0 size)))
      files /\
    forall rank, (length files <= rank)%nat ->
      Mpi.assigned rank size files = [] /\
      Mpi.serialize_hashmap (Mpi.local_map rank size files)
      = Some ([NUL], 1).
Proof.
  intros files size Hs. split.
  - pose proof (assigned_partition size files) as P.
    destruct size; [lia|exact P].
  - intros rank Hr.
    assert (E : Mpi.assigned rank size files = []).
    { unfold Mpi.assigned. rewrite filter_none; [reflexivity|].
      intros p Hp. apply combine_seq_index in Hp.
      replace (rank <=? fst p)%nat with false; [reflexivity|].
      symmetry. apply Nat.leb_gt. lia. }
    split; [exact E|]. unfold Mpi.local_map. rewrite E. reflexivity.
Qed.

Lemma mpi_files_are_assigned_once_witness :
  let files := [Readable (str "a") false; Unreadable;
                Readable (str "b") false] in
  Permutation
    (concat (List.map (fun rank => Mpi.assigned rank 5 files) (seq 0 5)))
    files /\
  forall rank, (length files <= rank)%nat ->
    Mpi.assigned rank 5 files = [] /\
    Mpi.serialize_hashmap (Mpi.local_map rank 5 files) = Some ([NUL], 1).
Proof.
  intros files. apply (mpi_files_are_assigned_once files 5). lia.
Defined.


(** ** The bound on the stored words *)

Lemma mpi_insert_word_short t w :
  mpi_short t -> mpi_short (Mpi.insert_word t w).
Proof.
  intros (Hs & Hl & Hw).
  pose proof (hash_range w _ Hs) as Hr.
  set (h := Z.to_nat (hash w (Mpi.size t))).
  assert (Hh : (h < length (Mpi.buckets t))%nat)
    by (rewrite Hl; unfold h; lia).
  destruct (store_split [] _ _ Hh) as (pre & post & E & L & St).
  assert (Len : forall x, length (pre ++ x :: post)
                          = Z.to_nat (Mpi.size t)).
  { intros x. rewrite <- Hl.
    pose proof (f_equal (@length _) E) as E'.
    rewrite length_app in E' |- *. cbn [length] in E' |- *. lia. }
  assert (Old : forall n, In n (concat pre) \/ In n (nth h (Mpi.buckets t) [])
                          \/ In n (concat post) ->
                          (length (Mpi.word n) < MAX_WORD_LEN)%nat).
  { intros n Hn. apply Hw. unfold Mpi.entries. rewrite E, concat_bucket.
    rewrite !in_app_iff. exact Hn. }
  unfold Mpi.insert_word. fold h.
  destruct (Mpi.chain_increment (nth h (Mpi.buckets t) []) w)
    as [chain'|] eqn:C; rewrite St.
  - apply mpi_chain_increment_some in C.
    destruct C as (l1 & e & l2 & Ec & -> & _).
    split; [exact Hs|]. split; [apply Len|].
    intros n Hn. unfold Mpi.entries in Hn. cbn [Mpi.buckets] in Hn.
    rewrite concat_bucket, !in_app_iff in Hn. cbn [In] in Hn.
    rewrite Ec in Old.
    destruct Hn as [Hn|[[Hn|[<-|Hn]]|Hn]].
    + apply Old. now left.
    + apply Old. right. left. apply in_or_app. now left.
    + cbn [Mpi.word]. apply (Old e). right. left. apply in_elt.
    + apply Old. right. left. apply in_or_app. right. now right.
    + apply Old. now right; right.
  - split; [exact Hs|]. split; [apply Len|].
    intros n Hn. unfold Mpi.entries in Hn. cbn [Mpi.buckets] in Hn.
    rewrite concat_bucket, !in_app_iff in Hn. cbn [In] in Hn.
    destruct Hn as [Hn|[[<-|Hn]|Hn]].
    + apply Old. now left.
    + cbn [Mpi.word]. rewrite length_firstn. unfold MAX_WORD_LEN. lia.
    + apply Old. right. now left.
    + apply Old. now right; right.
Qed.

Lemma mpi_insert_times_short t w c :
  mpi_short t -> mpi_short (Mpi.insert_times t w c).
Proof.
  intros H. unfold Mpi.insert_times.
  induction (Z.to_nat c) as [|m IH]; [exact H|].
  rewrite Nat.iter_succ. now apply mpi_insert_word_short.
Qed.

(** X28.  No table of the distributed program ever holds a word of
    [MAX_WORD_LEN] bytes or more, and the bucket array keeps its size:
    [insert_word] of any C string, [merge_hashmaps] of any table and
    [deserialize_hashmap] of any received bytes, well-formed or not, keep
    every stored word within the array [word[MAX_WORD_LEN]] of its node. *)
Theorem mpi_stored_words_stay_short :
  forall (t src : Mpi.HashMap) (w : cstring) (buffer : list ascii)
         (length : Z),
    mpi_short t ->
    mpi_short (Mpi.insert_word t w) /\
    mpi_short (Mpi.merge_hashmaps t src) /\
    mpi_short (Mpi.deserialize_hashmap t buffer length).
Proof.
  intros t src w buffer length H. split; [|split].
  - now apply mpi_insert_word_short.
  - unfold Mpi.merge_hashmaps. revert t H.
    induction (Mpi.entries src) as [|node nodes IH]; intros t H;
      [exact H|].
    cbn [fold_left]. apply IH. now apply mpi_insert_times_short.
  - unfold Mpi.deserialize_hashmap.
    destruct ((length <=? 1) && Ascii.eqb (nth 0 buffer NUL) NUL);
      [exact H|].
    revert t H.
    induction (strtok_all
                 (strndup buffer
                          (if length <? 0 then List.length buffer
                           else Z.to_nat length)) LF)
      as [|line lines IH]; intros t H; [exact H|].
    cbn [fold_left]. apply IH. unfold Mpi.deserialize_line.
    destruct (strchr line COLON) as [colon|]; [|exact H].
    destruct (atoi (skipn (S colon) line) >? 0); [|exact H].
    now apply mpi_insert_times_short.
Qed.

Lemma mpi_stored_words_stay_short_witness :
  let t := Mpi.create_hashmap HASH_TABLE_SIZE in
  let src := Mpi.insert_word (Mpi.create_hashmap 8) (str "pear") in
  let w := repeat "a"%char 150 in
  let buffer := repeat "b"%char 130 ++ str ":2" ++ [LF] in
  mpi_short (Mpi.insert_word t w) /\
  mpi_short (Mpi.merge_hashmaps t src) /\
  mpi_short (Mpi.deserialize_hashmap t buffer 133).
Proof.
  intros t src w buffer.
  apply (mpi_stored_words_stay_short t src w buffer 133).
  apply mpi_create_short. reflexivity.
Defined.

(** ** Reconstruction from a received region *)


























(** ** Insert-or-increment on words of any length *)

(** [insert_word] of the shared-memory program on a word of
    [MAX_WORD_LEN] bytes or more: no stored word of a table that
    satisfies the invariant compares equal, and the word is added as it is
    ([strdup]). *)
Lemma omp_insert_word_long t w :
  omp_inv t -> ~ In NUL w -> (MAX_WORD_LEN <= length w)%nat ->
  insert_postcondition w (omp_listing t)
    (omp_listing (Omp.insert_word t w))
    (Omp.items t) (Omp.items (Omp.insert_word t w)).
Proof.
  intros W Hn Hlen.
  assert (Short : forall n, In n (Omp.entries t) ->
                    (length (Omp.word n) < MAX_WORD_LEN)%nat)
    by (intros n Hin; now apply (omp_inv_words t n W Hin)).
  pose proof (inv_size _ _ _ W) as Hs. cbn [omp_view Mpi.size] in Hs.
  pose proof (inv_length _ _ _ W) as Hl.
  cbn [omp_view Mpi.buckets Mpi.size] in Hl. rewrite length_map in Hl.
  pose proof (hash_range w _ Hs) as Hr.
  set (h := Z.to_nat (hash w (Omp.size t))).
  assert (Hh : (h < length (Omp.buckets t))%nat)
    by (rewrite Hl; unfold h; lia).
  destruct (store_split [] _ _ Hh) as (pre & post & E & L & St).
  assert (C : Omp.chain_increment (nth h (Omp.buckets t) []) w = None).
  { pose proof (omp_chain_increment_view (nth h (Omp.buckets t) []) w)
      as V.
    rewrite mpi_chain_increment_miss in V.
    - destruct (Omp.chain_increment (nth h (Omp.buckets t) []) w);
        [discriminate V|reflexivity].
    - intros x Hx. apply in_map_iff in Hx. destruct Hx as (n & <- & Hin).
      cbn [omp_node_view Mpi.word].
      assert (length (Omp.word n) < MAX_WORD_LEN)%nat
        by (apply Short; now apply (in_nth_concat _ _ h)).
      apply strncasecmp_longer; [assumption|lia|exact Hn]. }
  assert (I : Omp.insert_word t w
              = Omp.mkMap
                  (pre ++ (Omp.mkNode w 1 (hash w (Omp.size t))
                             :: nth h (Omp.buckets t) []) :: post)
                  (Omp.size t) (Omp.items t + 1)).
  { unfold Omp.insert_word. fold h. rewrite C, St. reflexivity. }
  split.
  - intros w0 c0 H0 F0. exfalso.
    destruct (omp_listing_in _ _ _ H0) as (n & Hin & <- & _).
    pose proof (Short n Hin) as S0.
    apply (f_equal (@length _)) in F0. rewrite !fold_case_length in F0.
    lia.
  - intros _. split; [rewrite I; reflexivity|].
    exists (List.map (fun n => (Omp.word n, Omp.count n)) (concat pre)),
           (List.map (fun n => (Omp.word n, Omp.count n))
                     (nth h (Omp.buckets t) [] ++ concat post)).
    split.
    + unfold omp_listing, Omp.entries. rewrite E at 1.
      now rewrite concat_bucket, map_app.
    + rewrite I. unfold omp_listing, Omp.entries. cbn [Omp.buckets].
      now rewrite concat_head, map_app.
Qed.

(** C5 (insertOrIncrement postcondition), amended.  In the distributed
    program, for every table that satisfies the invariant of the data model
    and every word [w] shorter than [MAX_WORD_LEN]; in the shared-memory
    program, for every table that satisfies the invariant (so that its
    stored words are shorter than [MAX_WORD_LEN]) and every word [w] of any
    length: if the table has an entry whose case-folded word is that of
    [w], the count of that entry grows by exactly 1 and [items] is
    unchanged; otherwise the entry [(w, 1)] is added and [items] grows by
    exactly 1; all the other entries, and their order, are unchanged. *)
Theorem insert_word_postcondition :
  forall (tm : Mpi.HashMap) (to : Omp.HashMap) (w : cstring),
    ~ In NUL w ->
    (mpi_wf tm -> (length w < MAX_WORD_LEN)%nat ->
     insert_postcondition w (mpi_listing tm)
       (mpi_listing (Mpi.insert_word tm w))
       (Mpi.items tm) (Mpi.items (Mpi.insert_word tm w)))
    /\
    (omp_inv to ->
     insert_postcondition w (omp_listing to)
       (omp_listing (Omp.insert_word to w))
       (Omp.items to) (Omp.items (Omp.insert_word to w))).
Proof.
  intros tm to w Hn. split.
  - intros W Hl. apply mpi_insert_word_post; [exact W|now split].
  - intros W. destruct (Nat.lt_ge_cases (length w) MAX_WORD_LEN) as [Hl|Hl].
    + apply omp_insert_word_post; [exact W|now split].
    + now apply omp_insert_word_long.
Qed.

Lemma insert_word_postcondition_witness :
  let tm := Mpi.insert_word (Mpi.create_hashmap HASH_TABLE_SIZE)
                            (str "Apple") in
  let to := Omp.insert_word (Omp.create_hashmap HASH_TABLE_SIZE)
                            (str "Apple") in
  let long := repeat "a"%char 120 in
  insert_postcondition (str "apple") (mpi_listing tm)
    (mpi_listing (Mpi.insert_word tm (str "apple")))
    (Mpi.items tm) (Mpi.items (Mpi.insert_word tm (str "apple")))
  /\
  insert_postcondition (str "apple") (omp_listing to)
    (omp_listing (Omp.insert_word to (str "apple")))
    (Omp.items to) (Omp.items (Omp.insert_word to (str "apple")))
  /\
  insert_postcondition long (omp_listing to)
    (omp_listing (Omp.insert_word to long))
    (Omp.items to) (Omp.items (Omp.insert_word to long)).
Proof.
  intros tm to long.
  assert (HA : word_ok (str "Apple")) by word_ok_tac.
  assert (Wm : mpi_wf tm).
  { apply mpi_insert_word_wf; [|exact HA].
    apply mpi_create_wf. reflexivity. }
  assert (Wo : omp_inv to).
  { apply omp_insert_word_inv; [|exact HA].
    apply omp_create_inv. reflexivity. }
  assert (Hn : ~ In NUL (str "apple")) by not_in_tac.
  assert (Hl : ~ In NUL long).
  { intros H. apply repeat_spec in H. discriminate H. }
  destruct (insert_word_postcondition tm to (str "apple") Hn) as [Pm Po].
  destruct (insert_word_postcondition tm to long Hl) as [_ Pl].
  split; [|split].
  - apply Pm; [exact Wm|]. unfold MAX_WORD_LEN. simpl. lia.
  - apply Po. exact Wo.
  - apply Pl. exact Wo.
Defined.

(** C5 as stated fails on words of [MAX_WORD_LEN] bytes or more.  In the
    distributed program such a word is stored cut to [MAX_WORD_LEN - 1]
    bytes, which no later comparison over [MAX_WORD_LEN] bytes matches:
    inserted twice into an empty table it leaves two entries of count 1.
    In the shared-memory program a table that holds such a word (its
    [insert_word] stores words whole) takes a second word with the same
    first [MAX_WORD_LEN] bytes and the same bucket for the first one. *)
Lemma insert_word_long_word_counterexample :
  let w := repeat "a"%char 100 in
  let tm := Mpi.create_hashmap HASH_TABLE_SIZE in
  let w1 := repeat "a"%char 100 ++ str "y" in
  let w2 := repeat "a"%char 100 ++ str "ud" in
  let to := Omp.insert_word (Omp.create_hashmap HASH_TABLE_SIZE) w1 in
  (mpi_wf tm /\ ~ In NUL w /\
   mpi_listing (Mpi.insert_word tm w) = [(repeat "a"%char 99, 1)] /\
   ~ insert_postcondition w (mpi_listing tm)
       (mpi_listing (Mpi.insert_word tm w))
       (Mpi.items tm) (Mpi.items (Mpi.insert_word tm w)) /\
   mpi_listing (Mpi.insert_word (Mpi.insert_word tm w) w)
   = [(repeat "a"%char 99, 1); (repeat "a"%char 99, 1)] /\
   Mpi.items (Mpi.insert_word (Mpi.insert_word tm w) w) = 2)
  /\
  (fold_case w1 <> fold_case w2 /\
   omp_listing to = [(w1, 1)] /\
   omp_listing (Omp.insert_word to w2) = [(w1, 2)] /\
   Omp.items (Omp.insert_word to w2) = 1 /\
   ~ insert_postcondition w2 (omp_listing to)
       (omp_listing (Omp.insert_word to w2))
       (Omp.items to) (Omp.items (Omp.insert_word to w2))).
Proof.
  intros w tm w1 w2 to. split.
  - split; [apply mpi_create_wf; reflexivity|].
    split; [intros H; apply repeat_spec in H; discriminate H|].
    assert (E : mpi_listing (Mpi.insert_word tm w)
                = [(repeat "a"%char 99, 1)]) by (vm_compute; reflexivity).
    split; [exact E|]. split; [|split; vm_compute; reflexivity].
    intros [_ P]. rewrite E in P.
    destruct P as (_ & L1 & L2 & E0 & E1).
    + intros w0 c0 H. vm_compute in H. destruct H.
    + symmetry in E0. change (mpi_listing tm) with (@nil (cstring * Z)) in E0.
      apply app_eq_nil in E0. destruct E0 as [-> ->].
      cbn [app] in E1. injection E1 as E1.
      apply (f_equal (@length _)) in E1. vm_compute in E1. discriminate E1.
  - assert (F : fold_case w1 <> fold_case w2).
    { intros H. apply (f_equal (@length _)) in H. vm_compute in H.
      discriminate H. }
    assert (E0 : omp_listing to = [(w1, 1)]) by (vm_compute; reflexivity).
    assert (E1 : omp_listing (Omp.insert_word to w2) = [(w1, 2)])
      by (vm_compute; reflexivity).
    split; [exact F|]. split; [exact E0|]. split; [exact E1|].
    split; [vm_compute; reflexivity|].
    intros [_ P]. rewrite E0, E1 in P.
    destruct P as (_ & L1 & L2 & Eb & Ea).
    + intros w0 c0 [H|[]] Hf. injection H as <- _. now apply F.
    + destruct L1 as [|x L1].
      * cbn [app] in Ea. injection Ea; intros; discriminate.
      * destruct L1; [|discriminate Ea].
        cbn [app] in Ea. discriminate Ea.
Qed.
